(** * Summarization core of the translator UI back end

A shallow embedding of the annotation classifier (annotation getters),
of the qualified-predicate builder, of the query builder, of the path
finder and of the summary merger, together with the properties stated
about them. *)

From Stdlib Require Import List String Ascii Bool Arith ZArith QArith Qabs Lia.
From Stdlib Require Import SpecFloat.
From Stdlib Require Import Permutation Relations.
Import ListNotations.

Local Close Scope Q_scope.
Local Open Scope string_scope.
Local Open Scope list_scope.

Set Implicit Arguments.
Set Warnings "-register-all".

(* ================================================================== *)
(** * JavaScript values *)
(* ================================================================== *)

(** JSON values as the annotation service returns them.  An object is an
    association list in insertion order; a key that is absent reads as
    [undefined], which is [None] below. *)
Inductive json : Type :=
| JNull
| JBool (b : bool)
| JNum (z : Z)
| JStr (s : string)
| JArr (l : list json)
| JObj (l : list (string * json)).

(** An evaluation either throws (a TypeError) or returns. *)
Inductive outcome (A : Type) : Type :=
| Threw
| Ret (a : A).
Arguments Threw {A}.
Arguments Ret {A} a.

Definition bind {A B : Type} (m : outcome A) (k : A -> outcome B) : outcome B :=
  match m with
  | Threw => Threw
  | Ret a => k a
  end.

Notation "x <- m ;; k" := (bind m (fun x => k))
  (at level 61, m at next level, right associativity).

(** A JavaScript number: an IEEE 754 double, with the operations of the
    specification of floating-point numbers ([prec] bits of precision,
    rounding to nearest, ties to even). *)
Definition number : Type := spec_float.

Definition prec : Z := 53.
Definition emax : Z := 1024.

Definition numAdd (x y : number) : number := SFadd prec emax x y.
Definition numDiv (x y : number) : number := SFdiv prec emax x y.

(** The double of an integer, and of a natural number such as the length
    of an array. *)
Definition numOfZ (z : Z) : number := binary_normalize prec emax z 0 false.

Definition numOfNat (n : nat) : number := numOfZ (Z.of_nat n).

Definition zero : number := S754_zero false.

Fixpoint assoc {A : Type} (k : string) (l : list (string * A)) : option A :=
  match l with
  | [] => None
  | (k', v) :: tl => if String.eqb k k' then Some v else assoc k tl
  end.

(** JavaScript truthiness. *)
Definition truthy (v : json) : bool :=
  match v with
  | JNull => false
  | JBool b => b
  | JNum z => negb (Z.eqb z 0)
  | JStr s => negb (String.eqb s "")
  | JArr _ => true
  | JObj _ => true
  end.

(** [v[key]] for a value that is defined: reading a property of [null]
    throws, an object answers from its own keys, and the other values have
    none of the keys read here. *)
Definition prop (v : json) (key : string) : outcome (option json) :=
  match v with
  | JNull => Threw
  | JObj l => Ret (assoc key l)
  | _ => Ret None
  end.

(** [annotation[0]] followed by a property read: the first element of an
    empty array is [undefined], and reading a property of it throws. *)
Definition first (annotation : list json) : option json :=
  match annotation with
  | [] => None
  | a :: _ => Some a
  end.

Module Cmn.

(** Modelled from the spec: [common.mjs] (imported as [cmn]) is not part of
    the sources; section 4.3 describes the reads as "reads obj[key] ...
    null when absent", that is the stored value, or the fallback when the
    key is missing. *)
Definition jsonGet (obj : json) (key : string) (fallback : json) : outcome json :=
  o <- prop obj key ;;
  Ret (match o with Some v => v | None => fallback end).

(** Modelled from the spec: the read along a key path, the fallback
    standing for any missing step. *)
Fixpoint jsonGetFromKpath (obj : json) (kpath : list string) (fallback : json)
  : outcome json :=
  match kpath with
  | [] => Ret obj
  | k :: tl =>
      o <- prop obj k ;;
      match o with
      | Some v => jsonGetFromKpath v tl fallback
      | None => Ret fallback
      end
  end.

End Cmn.

(* ================================================================== *)
(** * Annotation classifier *)
(* ================================================================== *)

Module Annotation.

(** A JavaScript [Set] of strings keeps the first insertion of a value. *)
Fixpoint set_add (s : string) (l : list string) : list string :=
  match l with
  | [] => [s]
  | x :: tl => if String.eqb x s then l else x :: set_add s tl
  end.

(** [String.prototype.toLowerCase] on a string of ASCII characters: the
    letters [A] to [Z] are lowered, every other character is kept.  (The
    method also lowers capital letters outside ASCII, which this leaves as
    they are.) *)
Definition lower_ascii (c : ascii) : ascii :=
  let n := nat_of_ascii c in
  if andb (Nat.leb 65 n) (Nat.leb n 90) then ascii_of_nat (n + 32) else c.

Fixpoint toLowerCase (s : string) : string :=
  match s with
  | EmptyString => EmptyString
  | String c tl => String (lower_ascii c) (toLowerCase tl)
  end.

(** [s.split('[')[0]] *)
Fixpoint before_bracket (s : string) : string :=
  match s with
  | EmptyString => EmptyString
  | String c tl => if Ascii.eqb c "["%char then EmptyString
                   else String c (before_bracket tl)
  end.

Definition isDisease (a : json) : outcome bool :=
  o <- prop a "disease_ontology" ;;
  Ret (match o with Some _ => true | None => false end).

Definition isChemical (a : json) : outcome bool :=
  c1 <- prop a "chebi" ;;
  match c1 with
  | Some _ => Ret true
  | None =>
      c2 <- prop a "chembl" ;;
      match c2 with
      | Some _ => Ret true
      | None =>
          c3 <- prop a "ndc" ;;
          Ret (match c3 with Some _ => true | None => false end)
      end
  end.

Definition isGene (a : json) : outcome bool :=
  o <- prop a "symbol" ;;
  Ret (match o with Some _ => true | None => false end).

Definition handler := json -> outcome json.

Definition noHandler : handler := fun _ => Ret JNull.

(** [parseAnnotation] with its default fallback [null]. *)
Definition parseAnnotation (annotation : list json)
           (diseaseHandler chemicalHandler geneHandler : handler) : outcome json :=
  match first annotation with
  | None => Threw
  | Some a =>
      d <- isDisease a ;;
      if d then diseaseHandler a else
      c <- isChemical a ;;
      if c then chemicalHandler a else
      g <- isGene a ;;
      if g then geneHandler a else
      Ret JNull
  end.

Section Handlers.

(** The CHEBI role table of [chebi.mjs], which is not part of the
    sources: the high-level role of an identifier ([None] for [null]) and
    the name of a role. *)
Variable getHighLevelRole : json -> option json.
Variable getName : json -> json.

Definition getDiseaseDescription : handler := fun a =>
  d <- Cmn.jsonGetFromKpath a ["disease_ontology"; "def"] JNull ;;
  match d with
  | JNull => Ret JNull
  | JStr s => Ret (JStr (before_bracket s))
  | _ => Threw
  end.

(** One path of [getDiseaseMeshCuries].  The template literal is modelled
    for string CURIEs; another truthy value is reported as [Threw]. *)
Definition mesh_curie (a : json) (path : list string) : outcome (list json) :=
  c <- Cmn.jsonGetFromKpath a path JNull ;;
  match c with
  | JStr s => Ret (if truthy c then [JStr ("MESH:" ++ s)] else [])
  | JNull => Ret []
  | _ => if truthy c then Threw else Ret []
  end.

Definition getDiseaseMeshCuries : handler := fun a =>
  c1 <- mesh_curie a ["mondo"; "xrefs"; "mesh"] ;;
  c2 <- mesh_curie a ["disease_ontology"; "xrefs"; "mesh"] ;;
  Ret (JArr (c1 ++ c2)).

Definition name_of (entry : json) (key : string) : outcome (option string) :=
  n <- Cmn.jsonGet entry key JNull ;;
  match n with
  | JNull => Ret None
  | JStr s => Ret (Some (toLowerCase s))
  | _ => Threw
  end.

Fixpoint chemical_names (ndc : list json) (commercial generic : list string)
  : outcome (list string * list string) :=
  match ndc with
  | [] => Ret (commercial, generic)
  | entry :: tl =>
      c <- name_of entry "proprietaryname" ;;
      g <- name_of entry "nonproprietaryname" ;;
      chemical_names tl
        (match c with Some s => set_add s commercial | None => commercial end)
        (match g with Some s => set_add s generic | None => generic end)
  end.

Definition getChemicalNames : handler := fun a =>
  ndc <- Cmn.jsonGetFromKpath a ["ndc"] (JArr []) ;;
  match ndc with
  | JArr l =>
      r <- chemical_names l [] [] ;;
      Ret (JObj [("commercial", JArr (map JStr (fst r)));
                 ("generic", JArr (map JStr (snd r)))])
  | _ => Threw
  end.

Definition getChemicalDescription : handler := fun a =>
  d <- Cmn.jsonGetFromKpath a ["unii"; "ncit_description"] JNull ;;
  match d with
  | JNull => Cmn.jsonGetFromKpath a ["chebi"; "definition"] JNull
  | _ => Ret d
  end.

Fixpoint roles_of (ids : list json) : list json :=
  match ids with
  | [] => []
  | id :: tl =>
      match getHighLevelRole id with
      | Some h => JObj [("id", h); ("name", getName h)] :: roles_of tl
      | None => roles_of tl
      end
  end.

Definition getChemicalChebiRoles : handler := fun a =>
  ids <- Cmn.jsonGetFromKpath a ["chebi"; "relationship"; "has_role"] JNull ;;
  match ids with
  | JNull => Ret JNull
  | JArr l => Ret (JArr (roles_of l))
  | _ => Ret (JArr (roles_of [ids]))
  end.

Definition getChemicalFdaApproval : handler := fun a =>
  Cmn.jsonGetFromKpath a ["chembl"; "max_phase"] (JNum 0).

Fixpoint indications_of (objs : list json) : outcome (list json) :=
  match objs with
  | [] => Ret []
  | obj :: tl =>
      id <- Cmn.jsonGet obj "mesh_id" (JBool false) ;;
      rest <- indications_of tl ;;
      Ret (if truthy id then id :: rest else rest)
  end.

Definition getChemicalDrugIndications : handler := fun a =>
  objs <- Cmn.jsonGetFromKpath a ["chembl"; "drug_indications"] (JArr []) ;;
  match objs with
  | JArr l => r <- indications_of l ;; Ret (JArr r)
  | _ => Threw
  end.

Definition otc (id name : string) : json :=
  JObj [("id", JStr id); ("name", JStr name)].

Definition getChemicalOtcStatus : handler := fun a =>
  s <- Cmn.jsonGetFromKpath a ["chembl"; "availability_type"] (JNum (-1)) ;;
  Ret (match s with
       | JNum 2 => otc "t" "Over the counter"
       | JNum 1 => otc "f" "Prescription only"
       | JNum 0 => otc "d" "Discontinued"
       | JNum (-2) => otc "w" "Withdrawn"
       | _ => otc "o" "Other"
       end).

Definition getGeneDescription : handler := fun a =>
  Cmn.jsonGet a "summary" JNull.

Definition speciesIdToSpecies (id : json) : json :=
  match id with
  | JNum 9606 => JStr "Human"
  | _ => JNull
  end.

Definition getGeneSpecies : handler := fun a =>
  id <- Cmn.jsonGet a "taxid" JNull ;;
  Ret (speciesIdToSpecies id).

Definition getFdaApproval (annotation : list json) :=
  parseAnnotation annotation noHandler getChemicalFdaApproval noHandler.

Definition getDescription (annotation : list json) :=
  parseAnnotation annotation
    getDiseaseDescription getChemicalDescription getGeneDescription.

Definition getChebiRoles (annotation : list json) :=
  parseAnnotation annotation noHandler getChemicalChebiRoles noHandler.

Definition getDrugIndications (annotation : list json) :=
  parseAnnotation annotation noHandler getChemicalDrugIndications noHandler.

Definition getCuries (annotation : list json) :=
  parseAnnotation annotation getDiseaseMeshCuries noHandler noHandler.

Definition getNames (annotation : list json) :=
  parseAnnotation annotation noHandler getChemicalNames noHandler.

Definition getOtc (annotation : list json) :=
  parseAnnotation annotation noHandler getChemicalOtcStatus noHandler.

Definition getSpecies (annotation : list json) :=
  parseAnnotation annotation noHandler noHandler getGeneSpecies.

(** The eight exposed getters. *)
Definition getters : list (list json -> outcome json) :=
  [getDescription; getNames; getFdaApproval; getChebiRoles;
   getDrugIndications; getOtc; getCuries; getSpecies].

End Handlers.

(** The first element carries none of the classifying keys. *)
Definition unclassified (a : json) : Prop :=
  match a with
  | JNull => False
  | JObj l =>
      assoc "disease_ontology" l = None /\ assoc "chebi" l = None /\
      assoc "chembl" l = None /\ assoc "ndc" l = None /\ assoc "symbol" l = None
  | _ => True
  end.

End Annotation.

(* ================================================================== *)
(** * Strings, atoms and objects used as maps *)
(* ================================================================== *)

(** What a path element, an edge subject or a predicate can be: a string,
    [false] (a canonicalization miss) or [null] (the fallback of a property
    rule). *)
Inductive atom : Type :=
| AFalse
| ANull
| AStr (s : string).

Definition atom_eqb (a b : atom) : bool :=
  match a, b with
  | AFalse, AFalse => true
  | ANull, ANull => true
  | AStr s, AStr t => String.eqb s t
  | _, _ => false
  end.

(** A value inside a template literal. *)
Definition render (a : atom) : string :=
  match a with
  | AFalse => "false"
  | ANull => "null"
  | AStr s => s
  end.

Definition nonempty (s : string) : bool := negb (String.eqb s "").

(** An object used as a map, in insertion order: writing an existing key
    keeps its place. *)
Fixpoint aset {A : Type} (k : string) (v : A) (m : list (string * A))
  : list (string * A) :=
  match m with
  | [] => [(k, v)]
  | (k', v') :: tl =>
      if String.eqb k k' then (k', v) :: tl else (k', v') :: aset k v tl
  end.

Definition akeys {A : Type} (m : list (string * A)) : list string := map fst m.
Definition avalues {A : Type} (m : list (string * A)) : list A := map snd m.

(** ** The order of the properties of an object *)

Definition digit (c : ascii) : option N :=
  let n := N_of_ascii c in
  if (N.leb 48 n && N.leb n 57)%bool then Some (n - 48)%N else None.

(** The number that a string of digits writes, after the digits [acc]. *)
Fixpoint numeral (s : string) (acc : N) : option N :=
  match s with
  | EmptyString => Some acc
  | String c tl =>
      match digit c with
      | Some d => numeral tl (10 * acc + d)%N
      | None => None
      end
  end.

(** A key that is an array index: the decimal numeral, without a leading
    zero, of a number below [2^32 - 1]. *)
Definition arrayIndex (k : string) : option N :=
  match k with
  | EmptyString => None
  | String c tl =>
      if (Ascii.eqb c "0" && nonempty tl)%bool then None
      else match numeral k 0 with
           | Some n => if N.ltb n 4294967295 then Some n else None
           | None => None
           end
  end.

Fixpoint insertByIndex {A : Type} (i : N) (kv : string * A)
         (l : list (N * (string * A))) : list (N * (string * A)) :=
  match l with
  | [] => [(i, kv)]
  | (j, kv') :: tl =>
      if N.leb i j then (i, kv) :: l else (j, kv') :: insertByIndex i kv tl
  end.

(** The properties whose keys are array indices, in ascending order of the
    index. *)
Definition indexedProperties {A : Type} (m : list (string * A))
  : list (N * (string * A)) :=
  fold_right
    (fun kv acc =>
       match arrayIndex (fst kv) with
       | Some i => insertByIndex i kv acc
       | None => acc
       end)
    [] m.

Definition namedProperties {A : Type} (m : list (string * A)) : list (string * A) :=
  filter (fun kv => match arrayIndex (fst kv) with
                    | Some _ => false
                    | None => true
                    end) m.

(** The order in which [Object.keys] and [Object.values] list the
    properties of an object: first those whose keys are array indices, in
    ascending order of the index, then the others in insertion order.  The
    keys of the nodes, of the results and of the scores are CURIEs, which are
    no array indices, and these objects are read in insertion order; the keys
    of the edges are content hashes, which can be numerals. *)
Definition enumerate {A : Type} (m : list (string * A)) : list (string * A) :=
  map snd (indexedProperties m) ++ namedProperties m.

Definition mem (s : string) (l : list string) : bool :=
  existsb (String.eqb s) l.

(** [[...new Set(l)]] on strings. *)
Fixpoint dedup (l : list string) : list string :=
  match l with
  | [] => []
  | x :: tl => x :: filter (fun y => negb (String.eqb y x)) (dedup tl)
  end.

(* ================================================================== *)
(** * Biolink helpers and the TRAPI data model *)
(* ================================================================== *)

(** Modelled from the spec: the interface of [biolink-model.mjs], which is
    not part of the sources; section 4.1 names its functions, whose predicate
    set and inverse table are reference data loaded at startup. *)
Class Biolink : Type := {
  sanitizeBiolinkElement : string -> string;
  invertBiolinkPredicate : atom -> atom;
  isBiolinkPredicate : string -> bool
}.

(** Modelled from the spec: [tagBiolink] of [biolink-model.mjs], section 4.1:
    tagBiolink(name) is "biolink:<name>". *)
Definition tagBiolink (name : string) : string := ("biolink:" ++ name)%string.

Record qualifier : Type := {
  qualifier_type_id : string;
  qualifier_value : string
}.

(** Attribute values: a string, an array of strings, or an object (the
    sentence attribute maps a publication id to its sentence and date). *)
Inductive avalue : Type :=
| VStr (s : string)
| VArr (l : list string)
| VObj (o : list (string * list (string * string))).

Record attribute : Type := {
  attribute_type_id : string;
  value : avalue
}.

Record knode : Type := {
  kn_name : option string;
  kn_categories : option (list string);
  kn_attributes : option (list attribute)
}.

Record kedge : Type := {
  ke_subject : string;
  ke_object : string;
  ke_predicate : string;
  ke_qualifiers : option (list qualifier);
  ke_attributes : option (list attribute)
}.

Record kgraph : Type := {
  kg_nodes : list (string * knode);
  kg_edges : list (string * kedge)
}.

(** A binding is an object from a query-graph key to an array of [{id}]. *)
Definition bindings : Type := list (string * list string).

Record trapiResult : Type := {
  node_bindings : bindings;
  edge_bindings : bindings;
  normalized_score : option number
}.

Record trapiMessage : Type := {
  knowledge_graph : kgraph;
  results : list trapiResult
}.

Record answer : Type := {
  agent : string;
  message : trapiMessage
}.

Definition subjectKey : string := "sn".
Definition objectKey : string := "on".

(* ================================================================== *)
(** * Qualified-predicate builder *)
(* ================================================================== *)

Module Qualified.
Section WithBiolink.

Context {BL : Biolink}.

(** [kedgeToQualifiers]: [None] is the [false] returned when the edge has
    no [qualifiers]; otherwise an object from the sanitized qualifier type
    to the sanitized value, a later qualifier overwriting an earlier one. *)
Definition kedgeToQualifiers (kedgeQualifiers : option (list qualifier))
  : option (list (string * string)) :=
  match kedgeQualifiers with
  | None => None
  | Some qs =>
      Some (fold_left
              (fun qualifiers q =>
                 aset (sanitizeBiolinkElement (qualifier_type_id q))
                      (sanitizeBiolinkElement (qualifier_value q))
                      qualifiers)
              qs [])
  end.

Definition prefixes : list string := [""; ""; "of a "; "of the "; ""].
Definition qualifierKeys : list string :=
  ["direction"; "aspect"; "form or variant"; "part"; "derivative"].

(** [cmn.jsonGet(qualifiers, key, false)]: the empty string stands for a
    falsy reading, which the caller skips either way. *)
Definition qualifierValue (type : string) (qualifiers : list (string * string))
           (key : string) : string :=
  match assoc (type ++ " " ++ key ++ " qualifier")%string qualifiers with
  | Some v => v
  | None => ""
  end.

Definition qualifiersToString (type : string) (qualifiers : list (string * string))
  : string :=
  fold_left
    (fun qualifierStr pq =>
       let '(prefix, qv) := pq in
       if nonempty qv then
         if nonempty qualifierStr
         then (qualifierStr ++ " " ++ prefix ++ qv)%string
         else qv
       else qualifierStr)
    (combine prefixes (map (qualifierValue type qualifiers) qualifierKeys))
    "".

Definition subjectQualifiersToString := qualifiersToString "subject".
Definition objectQualifiersToString := qualifiersToString "object".

Definition finalizeQualifiedPredicate (prefix : string) (predicate : atom)
           (suffix : string) : string :=
  let prefix' := (if nonempty prefix then prefix ++ " " else prefix)%string in
  let suffix' := (if nonempty suffix then " " ++ suffix ++ " of" else suffix)%string in
  (prefix' ++ render predicate ++ suffix')%string.

(** [edgeToQualifiedPredicate], on the two fields of the edge it reads. *)
Definition edgeToQualifiedPredicate (predicate : atom)
           (kedgeQualifiers : option (list qualifier)) (invert : bool) : atom :=
  match kedgeToQualifiers kedgeQualifiers with
  | None => if invert then invertBiolinkPredicate predicate else predicate
  | Some qualifiers =>
      let subjectQualifierStr := subjectQualifiersToString qualifiers in
      let objectQualifierStr := objectQualifiersToString qualifiers in
      let predicate' :=
        match assoc "qualified predicate" qualifiers with
        | Some qp => if nonempty qp then AStr qp else predicate
        | None => predicate
        end in
      if invert
      then AStr (finalizeQualifiedPredicate objectQualifierStr
                   (invertBiolinkPredicate predicate') subjectQualifierStr)
      else AStr (finalizeQualifiedPredicate subjectQualifierStr
                   predicate' objectQualifierStr)
  end.

(** The same function on a knowledge-graph edge. *)
Definition kedgeToQualifiedPredicate (e : kedge) (invert : bool) : atom :=
  edgeToQualifiedPredicate (AStr (ke_predicate e)) (ke_qualifiers e) invert.

(** ** The builder as section 4.7 words it *)

(** The qualifiers read into [{normalizedKey: normalizedValue}]: the value
    of a key is that of the last qualifier of the key. *)
Fixpoint normalizedValue (qs : list qualifier) (key : string) : option string :=
  match qs with
  | [] => None
  | q :: tl =>
      match normalizedValue tl key with
      | Some v => Some v
      | None =>
          if String.eqb key (sanitizeBiolinkElement (qualifier_type_id q))
          then Some (sanitizeBiolinkElement (qualifier_value q))
          else None
      end
  end.

(** The keys of a qualifier string, in their order, each with its prefix. *)
Definition prefixedKeys : list (string * string) :=
  [("direction", ""); ("aspect", ""); ("form or variant", "of a ");
   ("part", "of the "); ("derivative", "")].

(** The values that the qualifiers have for the keys of a type ([subject]
    or [object]), each with the prefix of its key; a key without a value, or
    with an empty one, is left out. *)
Definition prefixedValues (type : string) (qs : list qualifier)
  : list (string * string) :=
  flat_map
    (fun kp =>
       match normalizedValue qs (type ++ " " ++ fst kp ++ " qualifier")%string with
       | Some v => if nonempty v then [(snd kp, v)] else []
       | None => []
       end)
    prefixedKeys.

Definition prefixed (pv : string * string) : string := (fst pv ++ snd pv)%string.

(** The qualifier string as section 4.7 words it: the values with their
    prefixes, joined by spaces. *)
Definition worded_qualifier_string (type : string) (qs : list qualifier) : string :=
  String.concat " " (map prefixed (prefixedValues type qs)).

(** The qualifier string of the amended claim: the first value stands
    without its prefix. *)
Definition spec_qualifier_string (type : string) (qs : list qualifier) : string :=
  match prefixedValues type qs with
  | [] => ""
  | (_, v) :: tl => String.concat " " (v :: map prefixed tl)
  end.

(** The pieces that are not empty, joined by single spaces. *)
Fixpoint join_nonempty (pieces : list string) : string :=
  match pieces with
  | [] => ""
  | p :: tl =>
      if nonempty p then
        (if nonempty (join_nonempty tl) then p ++ " " ++ join_nonempty tl else p)%string
      else join_nonempty tl
  end.

(** The [qualified predicate] qualifier replaces the base predicate. *)
Definition spec_predicate (predicate : atom) (qs : list qualifier) : atom :=
  match normalizedValue qs "qualified predicate" with
  | Some qp => if nonempty qp then AStr qp else predicate
  | None => predicate
  end.

(** The composed string, for a way of making the two qualifier strings. *)
Definition composed (qualifierString : string -> list qualifier -> string)
           (predicate : atom) (kedgeQualifiers : option (list qualifier))
           (invert : bool) : atom :=
  match kedgeQualifiers with
  | None => if invert then invertBiolinkPredicate predicate else predicate
  | Some qs =>
      let s := qualifierString "subject" qs in
      let o := qualifierString "object" qs in
      let p := spec_predicate predicate qs in
      let '(front, p', back) :=
        if invert then (o, invertBiolinkPredicate p, s) else (s, p, o) in
      AStr (join_nonempty
              [front; render p'; (if nonempty back then back ++ " of" else "")%string])
  end.

(** The builder as the claim has it, and as amended. *)
Definition worded_qualified := composed worded_qualifier_string.
Definition spec_qualified := composed spec_qualifier_string.

(** The predicate piece of the composed string. *)
Definition spec_piece (predicate : atom) (qs : list qualifier) (invert : bool)
  : atom :=
  let p := spec_predicate predicate qs in
  if invert then invertBiolinkPredicate p else p.

End WithBiolink.
End Qualified.

(* ================================================================== *)
(** * Canonical identifiers *)
(* ================================================================== *)

Module Canonical.

Fixpoint chars (s : string) : list string :=
  match s with
  | EmptyString => []
  | String c tl => String c EmptyString :: chars tl
  end.

(** [...attrValue(attr)]: a string spreads into its characters, an object
    is not iterable. *)
Definition spread (v : avalue) : outcome (list string) :=
  match v with
  | VStr s => Ret (chars s)
  | VArr l => Ret l
  | VObj _ => Threw
  end.

Definition isCurieAlias (attr : attribute) : bool :=
  String.eqb (attribute_type_id attr) (tagBiolink "same_as") ||
  String.eqb (attribute_type_id attr) (tagBiolink "xref").

Fixpoint aliasesOf (attributes : list attribute) (aliases : list string)
  : outcome (list string) :=
  match attributes with
  | [] => Ret aliases
  | attr :: tl =>
      if isCurieAlias attr
      then vs <- spread (value attr) ;; aliasesOf tl (aliases ++ vs)
      else aliasesOf tl aliases
  end.

Definition attributesOf (n : knode) : list attribute :=
  match kn_attributes n with
  | Some l => l
  | None => []
  end.

(** The bag of one node, a [Set] in insertion order. *)
Definition nodeBag (curie : string) (n : knode) : outcome (list string) :=
  aliases <- aliasesOf (attributesOf n) [curie] ;;
  Ret (dedup aliases).

Fixpoint nodeBags (nodes : list (string * knode)) : outcome (list (list string)) :=
  match nodes with
  | [] => Ret []
  | (curie, n) :: tl =>
      b <- nodeBag curie n ;;
      bs <- nodeBags tl ;;
      Ret (b :: bs)
  end.

Fixpoint allBags (allNodes : list (list (string * knode)))
  : outcome (list (list string)) :=
  match allNodes with
  | [] => Ret []
  | nodes :: tl =>
      bs <- nodeBags nodes ;;
      rest <- allBags tl ;;
      Ret (bs ++ rest)
  end.

(** Modelled from the spec: [cmn.setUnion] of [common.mjs], which is not
    part of the sources; section 4.4: "union all bags", the first inserted
    member staying first. *)
Definition setUnion (sets : list (list string)) : list string :=
  dedup (List.concat sets).

(** One step of the reduction over [allCuries].  [None] is the last element
    of [allCuries]: [concat] appends the iterator returned by [keys()] as a
    single element, which no bag has. *)
Definition mergeStep (nodeSets : list (list string)) (curie : option string)
  : list (list string) :=
  let has (nodeSet : list string) :=
    match curie with
    | Some c => mem c nodeSet
    | None => false
    end in
  let mergeableBags := filter has nodeSets in
  let unmergedBags := filter (fun s => negb (has s)) nodeSets in
  match mergeableBags with
  | [] => unmergedBags
  | _ => unmergedBags ++ [setUnion mergeableBags]
  end.

Definition assignBag (m : list (string * string)) (nodeSet : list string)
  : list (string * string) :=
  match nodeSet with
  | [] => m
  | canonicalNode :: _ =>
      fold_left (fun m curie => aset curie canonicalNode m) nodeSet m
  end.

(** The object [nodeToCanonicalNode] built by [makeCanonicalNodeMapping]. *)
Definition makeCanonicalNodeMapping (allNodes : list (list (string * knode)))
  : outcome (list (string * string)) :=
  nodeSets <- allBags allNodes ;;
  let resultCuries := List.concat (map (@akeys knode) allNodes) in
  let allCuries := map Some resultCuries ++ [None] in
  let mergedNodes := fold_left mergeStep allCuries nodeSets in
  Ret (fold_left assignBag mergedNodes []).

(** The function it returns: [nodeToCanonicalNode[node] || false]. *)
Definition canonical (m : list (string * string)) (node : string) : atom :=
  match assoc node m with
  | Some c => if nonempty c then AStr c else AFalse
  | None => AFalse
  end.

End Canonical.

(* ================================================================== *)
(** * Result graph and path finder *)
(* ================================================================== *)

Record rgraph : Type := {
  rg_nodes : list string;
  rg_edges : list string
}.

Module Rgraph.
Section WithBiolink.

Context {BL : Biolink}.

(** [redgeToTrapiKedge] followed by a read of the edge: an edge binding
    that the knowledge graph does not have is [undefined], and reading it
    throws. *)
Definition redgeToTrapiKedge (redge : string) (kg : kgraph) : outcome kedge :=
  match assoc redge (kg_edges kg) with
  | Some e => Ret e
  | None => Threw
  end.

Definition flattenBindings (b : bindings) : list string :=
  List.concat (avalues b).

Fixpoint filterEdges (redges : list string) (kg : kgraph) : outcome (list string) :=
  match redges with
  | [] => Ret []
  | redge :: tl =>
      e <- redgeToTrapiKedge redge kg ;;
      rest <- filterEdges tl kg ;;
      Ret (if isBiolinkPredicate (ke_predicate e) then redge :: rest else rest)
  end.

(** [makeRgraph]: [None] is the [false] returned for a node that the
    knowledge graph does not have. *)
Definition makeRgraph (rnodes redges : list string) (kg : kgraph)
  : outcome (option rgraph) :=
  if forallb (fun rnode => mem rnode (akeys (kg_nodes kg))) rnodes
  then edges <- filterEdges redges kg ;;
       Ret (Some {| rg_nodes := rnodes; rg_edges := edges |})
  else Ret None.

Definition trapiResultToRgraph (r : trapiResult) (kg : kgraph)
  : outcome (option rgraph) :=
  makeRgraph (flattenBindings (node_bindings r))
             (flattenBindings (edge_bindings r)) kg.

(** [getBindingId]: [None] is [false]; the first element of an empty
    binding is [undefined], and reading its id throws. *)
Definition getBindingId (b : bindings) (key : string) : outcome (option string) :=
  match assoc key b with
  | None => Ret None
  | Some [] => Threw
  | Some (id :: _) => Ret (Some id)
  end.

Definition isRedgeInverted (redge subject : string) (kg : kgraph) : outcome bool :=
  e <- redgeToTrapiKedge redge kg ;;
  Ret (String.eqb subject (ke_object e)).

(** An out edge: the edge binding and the node it leads to. *)
Record outEdge : Type := {
  oe_redge : string;
  oe_target : string
}.

Definition update (m : list (string * list outEdge)) (rnode : string) (val : outEdge)
  : list (string * list outEdge) :=
  let outEdges := match assoc rnode m with Some l => l | None => [] end in
  aset rnode (outEdges ++ [val]) m.

Fixpoint outEdgesOf (redges : list string) (kg : kgraph)
         (m : list (string * list outEdge)) : outcome (list (string * list outEdge)) :=
  match redges with
  | [] => Ret m
  | redge :: tl =>
      e <- redgeToTrapiKedge redge kg ;;
      let subject := ke_subject e in
      let object := ke_object e in
      outEdgesOf tl kg
        (update (update m subject {| oe_redge := redge; oe_target := object |})
                object {| oe_redge := redge; oe_target := subject |})
  end.

Definition makeRnodeToOutEdges (rg : rgraph) (kg : kgraph)
  : outcome (list (string * list outEdge)) :=
  outEdgesOf (rg_edges rg) kg [].

Definition rnodeToOutEdges (m : list (string * list outEdge)) (rnode : string)
  : list outEdge :=
  match assoc rnode m with Some l => l | None => [] end.

(** [objLeft.pop()] *)
Definition pop {A : Type} (l : list A) : option (list A * A) :=
  match rev l with
  | [] => None
  | x :: r => Some (rev r, x)
  end.

(** [rgraphFold]: the loop, one iteration for a unit of fuel; [None] when
    the fuel ends before the loop does. *)
Fixpoint rgraphFold {A B : Type} (fuel : nat) (proc : A -> list A * list B)
         (objLeft : list A) (res : list B) : option (list B) :=
  match fuel with
  | O => None
  | S fuel' =>
      match pop objLeft with
      | None => Some res
      | Some (objLeft', top) =>
          let paths := proc top in
          rgraphFold fuel' proc (objLeft' ++ fst paths) (res ++ snd paths)
      end
  end.

Section Finder.

Variable nodeToCanonicalNode : string -> atom.
Variable outEdges : list (string * list outEdge).
Variable disease : string.
Variable maxHops : nat.

Definition maxPathLength : nat := 2 * maxHops + 1.

Definition isTruthy (a : atom) : bool :=
  match a with
  | AStr s => nonempty s
  | _ => false
  end.

(** The procedure folded over the result graph. *)
Definition extend (path : list string) : list (list string) * list (list string) :=
  let currentRnode := last path "" in
  if Nat.ltb maxPathLength (List.length path) then ([], [])
  else if String.eqb currentRnode disease then ([], [path])
  else
    (map (fun edge => path ++ [oe_redge edge; oe_target edge])
         (filter (fun edge =>
                    negb (mem (oe_target edge) path) &&
                    isTruthy (nodeToCanonicalNode (oe_target edge)))
                 (rnodeToOutEdges outEdges currentRnode)),
     []).

Definition rgraphPaths (fuel : nat) (drug : string) : option (list (list string)) :=
  rgraphFold fuel extend [[drug]] [].

End Finder.

End WithBiolink.
End Rgraph.

(* ================================================================== *)
(** * Summary fragments *)
(* ================================================================== *)

(** An update of a summary node or edge: its key and the object its
    transforms were made from ([nodeRules(knode)], [edgeRules(kedge)]). *)
Record nodeUpdate : Type := {
  nu_key : atom;
  nu_knode : knode
}.

Record edgeUpdate : Type := {
  eu_key : string;
  eu_kedge : kedge
}.

(** A score as it sits in a score list, and the score of a result: a
    number, or [None] for the [undefined] that an empty fragment
    contributes and for the [NaN] that a sum over it gives. *)
Definition score : Type := option number.

(** The fragment of one result: [scores] is [{}] or has one number. *)
Record resultFragment : Type := {
  rf_paths : list (list atom);
  rf_nodes : list nodeUpdate;
  rf_edges : list edgeUpdate;
  rf_scores : list (string * number)
}.

(** The fragment of one agent: [scores] holds a list for each key. *)
Record summaryFragment : Type := {
  sf_paths : list (list atom);
  sf_nodes : list nodeUpdate;
  sf_edges : list edgeUpdate;
  sf_scores : list (string * list score)
}.

Record condensedSummary : Type := {
  cs_agent : string;
  cs_fragment : summaryFragment
}.

Module Fragment.
Section WithBiolink.

Context {BL : Biolink}.

(** [hash] of [hash-sum], the content hash behind [pathToKey]. *)
Variable pathToKey : list atom -> string.

Variable nodeToCanonicalNode : string -> atom.
Variable maxHops : nat.

Definition emptyResultFragment : resultFragment :=
  {| rf_paths := []; rf_nodes := []; rf_edges := []; rf_scores := [] |}.

Definition emptySummaryFragment : summaryFragment :=
  {| sf_paths := []; sf_nodes := []; sf_edges := []; sf_scores := [] |}.

Definition rnodeToKey (rnode : string) : atom := nodeToCanonicalNode rnode.

Definition kedgeToKey (e : kedge) (doInvert : bool) : string :=
  let ksubject := nodeToCanonicalNode (ke_subject e) in
  let predicate := Qualified.kedgeToQualifiedPredicate e doInvert in
  let kobject := nodeToCanonicalNode (ke_object e) in
  if doInvert
  then pathToKey [kobject; predicate; ksubject]
  else pathToKey [ksubject; predicate; kobject].

Definition redgeToKey (redge : string) (kg : kgraph) (doInvert : bool)
  : outcome string :=
  e <- Rgraph.redgeToTrapiKedge redge kg ;;
  Ret (kedgeToKey e doInvert).

(** The loop of [rgraphFold] ends within this many iterations: a path is
    extended at most [maxHops + 1] times, each time by at most one path for
    each out edge. *)
Fixpoint iterations (width depth : nat) : nat :=
  match depth with
  | O => 1
  | S d => 1 + width * iterations width d
  end.

Definition fuelFor (rg : rgraph) : nat :=
  S (iterations (2 * List.length (rg_edges rg)) (S maxHops)).

Definition summarizeRnode (rnode : string) (kg : kgraph) : outcome nodeUpdate :=
  match assoc rnode (kg_nodes kg) with
  | Some n => Ret {| nu_key := rnodeToKey rnode; nu_knode := n |}
  | None => Threw
  end.

Definition summarizeRedge (redge : string) (kg : kgraph) : outcome edgeUpdate :=
  e <- Rgraph.redgeToTrapiKedge redge kg ;;
  Ret {| eu_key := kedgeToKey e false; eu_kedge := e |}.

Fixpoint mapM {A B : Type} (f : A -> outcome B) (l : list A) : outcome (list B) :=
  match l with
  | [] => Ret []
  | x :: tl => y <- f x ;; ys <- mapM f tl ;; Ret (y :: ys)
  end.

Definition E (e o : string) (kg : kgraph) : outcome atom :=
  inv <- Rgraph.isRedgeInverted e o kg ;;
  k <- redgeToKey e kg inv ;;
  Ret (AStr k).

(** One path of [normalizePaths]: the loop over the even indices, then the
    last element. *)
Fixpoint normalizePath (path : list string) (kg : kgraph) : outcome (list atom) :=
  match path with
  | [] => Ret []
  | [n] => Ret [rnodeToKey n]
  | n :: e :: tl =>
      k <- E e n kg ;;
      rest <- match tl with
              | [] => Ret [rnodeToKey e]
              | _ => normalizePath tl kg
              end ;;
      Ret (rnodeToKey n :: k :: rest)
  end.

Definition normalizePaths (rgraphPaths : list (list string)) (kg : kgraph)
  : outcome (list (list atom)) :=
  mapM (fun path => normalizePath path kg) rgraphPaths.

Definition bound (id : option string) : option string :=
  match id with
  | Some s => if nonempty s then Some s else None
  | None => None
  end.

(** [cmn.jsonGet(trapiResult, 'normalized_score', 0)] *)
Definition scoreOf (r : trapiResult) : number :=
  match normalized_score r with
  | Some x => x
  | None => zero
  end.

Definition trapiResultToSummaryFragment (r : trapiResult) (kg : kgraph)
  : outcome resultFragment :=
  rgraph <- Rgraph.trapiResultToRgraph r kg ;;
  match rgraph with
  | None => Ret emptyResultFragment
  | Some rg =>
      drug <- Rgraph.getBindingId (node_bindings r) subjectKey ;;
      disease <- Rgraph.getBindingId (node_bindings r) objectKey ;;
      match bound drug, bound disease with
      | Some drug, Some disease =>
          rnodeToOutEdges <- Rgraph.makeRnodeToOutEdges rg kg ;;
          match Rgraph.rgraphPaths nodeToCanonicalNode rnodeToOutEdges
                  disease maxHops (fuelFor rg) drug with
          | None => Threw
          | Some rgraphPaths =>
              paths <- normalizePaths rgraphPaths kg ;;
              nodes <- mapM (fun rnode => summarizeRnode rnode kg) (rg_nodes rg) ;;
              edges <- mapM (fun redge => summarizeRedge redge kg) (rg_edges rg) ;;
              Ret {| rf_paths := paths;
                     rf_nodes := nodes;
                     rf_edges := edges;
                     rf_scores := [(render (rnodeToKey drug), scoreOf r)] |}
          end
      | _, _ => Ret emptyResultFragment
      end
  end.

(** [mergeSummaryFragments]: the key of the new score is the first key of
    [f2.scores], which is [undefined] for an empty fragment; as a property
    name that is the string "undefined", and the value pushed is
    [undefined]. *)
Definition mergeSummaryFragments (f1 : summaryFragment) (f2 : resultFragment)
  : summaryFragment :=
  let newScoreKey :=
    match rf_scores f2 with
    | (k, _) :: _ => k
    | [] => "undefined"
    end in
  let newScore : score :=
    match rf_scores f2 with
    | (_, v) :: _ => Some v
    | [] => None
    end in
  let currentScores :=
    match assoc newScoreKey (sf_scores f1) with
    | Some l => l
    | None => []
    end in
  {| sf_paths := sf_paths f1 ++ rf_paths f2;
     sf_nodes := sf_nodes f1 ++ rf_nodes f2;
     sf_edges := sf_edges f1 ++ rf_edges f2;
     sf_scores := aset newScoreKey (currentScores ++ [newScore]) (sf_scores f1) |}.

Fixpoint reduceResults (rs : list trapiResult) (kg : kgraph) (acc : summaryFragment)
  : outcome summaryFragment :=
  match rs with
  | [] => Ret acc
  | r :: tl =>
      f <- trapiResultToSummaryFragment r kg ;;
      reduceResults tl kg (mergeSummaryFragments acc f)
  end.

Definition answerToCondensedSummary (a : answer) : outcome condensedSummary :=
  f <- reduceResults (results (message a)) (knowledge_graph (message a))
         emptySummaryFragment ;;
  Ret {| cs_agent := agent a; cs_fragment := f |}.

Definition creativeAnswersToCondensedSummaries (answers : list answer)
  : outcome (list condensedSummary) :=
  mapM answerToCondensedSummary answers.

End WithBiolink.
End Fragment.

(* ================================================================== *)
(** * Summary merger *)
(* ================================================================== *)

(** Modelled from the spec: the interface of [evidence.mjs], which is not
    part of the sources; section 4.9 names the test [isValidId] on
    publication ids and section 4.10 the resolver [idToTypeAndUrl] of an id
    into its type and url. *)
Class Evidence : Type := {
  isValidId : string -> bool;
  idToTypeAndUrl : string -> string * string
}.

(** An element of an aggregated attribute list. *)
Inductive item : Type :=
| IStr (s : string)
| IObj (o : list (string * list (string * string))).

Record snode : Type := {
  n_aras : list string;
  n_names : list string;
  n_types : list string;
  n_curies : list item;
  n_fda_info : option avalue;
  n_descriptions : list item;
  n_synonyms : list item;
  n_same_as : list item;
  n_iri_types : list item
}.

(** A summary edge.  [e_snippets] and [e_qualifiers] are [None] once the
    property was deleted (or, for the qualifiers, set to [null]). *)
Record sedge : Type := {
  e_aras : list string;
  e_predicate : atom;
  e_qualifiers : option (list qualifier);
  e_subject : atom;
  e_object : atom;
  e_iri_types : list item;
  e_snippets : option (list item);
  e_publications : list string
}.

Record pathEntry : Type := {
  subgraph : list atom;
  p_aras : list string
}.

Record publication : Type := {
  pub_type : string;
  pub_url : string;
  pub_snippet : option string;
  pub_pubdate : option string
}.

Record result : Type := {
  r_subject : atom;
  r_drug_name : atom;
  r_paths : list string;
  r_object : atom;
  r_score : score
}.

Record metadata : Type := {
  meta_qid : string;
  meta_aras : list string
}.

Record summary : Type := {
  s_meta : metadata;
  s_results : list result;
  s_paths : list (string * pathEntry);
  s_nodes : list (string * snode);
  s_edges : list (string * sedge);
  s_publications : list (string * publication)
}.

Module Merge.

Fixpoint list_eqb {A : Type} (eqb : A -> A -> bool) (l1 l2 : list A) : bool :=
  match l1, l2 with
  | [], [] => true
  | x :: t1, y :: t2 => eqb x y && list_eqb eqb t1 t2
  | _, _ => false
  end.

Definition pair_eqb {A B : Type} (ea : A -> A -> bool) (eb : B -> B -> bool)
           (p q : A * B) : bool :=
  ea (fst p) (fst q) && eb (snd p) (snd q).

(** Elements of a [Set]: strings by value; an object is taken to be the
    same element when it has the same content. *)
Definition item_eqb (a b : item) : bool :=
  match a, b with
  | IStr s, IStr t => String.eqb s t
  | IObj o, IObj p =>
      list_eqb (pair_eqb String.eqb (list_eqb (pair_eqb String.eqb String.eqb))) o p
  | _, _ => false
  end.

(** [[...new Set(v)]] *)
Fixpoint dedupBy {A : Type} (eqb : A -> A -> bool) (l : list A) : list A :=
  match l with
  | [] => []
  | x :: tl => x :: filter (fun y => negb (eqb y x)) (dedupBy eqb tl)
  end.

(** [evidence.split(/,|\|/)] *)
Fixpoint split (s : string) : list string :=
  match s with
  | EmptyString => [EmptyString]
  | String c tl =>
      if (Ascii.eqb c ","%char || Ascii.eqb c "|"%char)%bool
      then EmptyString :: split tl
      else match split tl with
           | [] => [String c EmptyString]
           | h :: t => String c h :: t
           end
  end.

Definition toItems (v : avalue) : list item :=
  match v with
  | VStr s => [IStr s]
  | VArr l => map IStr l
  | VObj o => [IObj o]
  end.

(** The value computed by [aggregateAttributes]. *)
Definition aggregated (attributeIds : list string) (attributes : option (list attribute))
  : list item :=
  match attributes with
  | None => []
  | Some l =>
      flat_map (fun a => if mem (attribute_type_id a) attributeIds
                         then toItems (value a) else []) l
  end.

Definition evidenceOf (v : avalue) : outcome (list string) :=
  match v with
  | VArr l => Ret l
  | VStr s => Ret (split s)
  | VObj _ => Threw
  end.

Fixpoint evidenceList (attributeIds : list string) (l : list attribute)
  : outcome (list string) :=
  match l with
  | [] => Ret []
  | a :: tl =>
      v <- (if mem (attribute_type_id a) attributeIds
            then evidenceOf (value a) else Ret []) ;;
      rest <- evidenceList attributeIds tl ;;
      Ret (v ++ rest)
  end.

Definition publicationIds : list string :=
  [tagBiolink "supporting_document"; tagBiolink "Publication";
   tagBiolink "publications"].

(** The value computed by the publications rule. *)
Definition evidence (attributes : option (list attribute)) : outcome (list string) :=
  match attributes with
  | None => Ret []
  | Some l => evidenceList publicationIds l
  end.

(** [renameAndTransformAttribute]: the value of the first attribute with
    the identifier. *)
Fixpoint firstAttribute (attributeId : string) (l : list attribute) : option avalue :=
  match l with
  | [] => None
  | a :: tl => if String.eqb attributeId (attribute_type_id a)
               then Some (value a) else firstAttribute attributeId tl
  end.

Definition emptyNode : snode :=
  {| n_aras := []; n_names := []; n_types := []; n_curies := [];
     n_fda_info := None; n_descriptions := []; n_synonyms := [];
     n_same_as := []; n_iri_types := [] |}.

(** [{'aras': []}]; the other fields are absent until the transforms of the
    first update, which write every one of them. *)
Definition emptyEdge : sedge :=
  {| e_aras := []; e_predicate := ANull; e_qualifiers := None;
     e_subject := ANull; e_object := ANull; e_iri_types := [];
     e_snippets := Some []; e_publications := [] |}.

Definition set_names v (n : snode) : snode :=
  {| n_aras := n_aras n; n_names := v; n_types := n_types n;
     n_curies := n_curies n; n_fda_info := n_fda_info n;
     n_descriptions := n_descriptions n; n_synonyms := n_synonyms n;
     n_same_as := n_same_as n; n_iri_types := n_iri_types n |}.
Definition set_types v (n : snode) : snode :=
  {| n_aras := n_aras n; n_names := n_names n; n_types := v;
     n_curies := n_curies n; n_fda_info := n_fda_info n;
     n_descriptions := n_descriptions n; n_synonyms := n_synonyms n;
     n_same_as := n_same_as n; n_iri_types := n_iri_types n |}.
Definition set_curies v (n : snode) : snode :=
  {| n_aras := n_aras n; n_names := n_names n; n_types := n_types n;
     n_curies := v; n_fda_info := n_fda_info n;
     n_descriptions := n_descriptions n; n_synonyms := n_synonyms n;
     n_same_as := n_same_as n; n_iri_types := n_iri_types n |}.
Definition set_fda_info v (n : snode) : snode :=
  {| n_aras := n_aras n; n_names := n_names n; n_types := n_types n;
     n_curies := n_curies n; n_fda_info := v;
     n_descriptions := n_descriptions n; n_synonyms := n_synonyms n;
     n_same_as := n_same_as n; n_iri_types := n_iri_types n |}.
Definition set_descriptions v (n : snode) : snode :=
  {| n_aras := n_aras n; n_names := n_names n; n_types := n_types n;
     n_curies := n_curies n; n_fda_info := n_fda_info n;
     n_descriptions := v; n_synonyms := n_synonyms n;
     n_same_as := n_same_as n; n_iri_types := n_iri_types n |}.
Definition set_synonyms v (n : snode) : snode :=
  {| n_aras := n_aras n; n_names := n_names n; n_types := n_types n;
     n_curies := n_curies n; n_fda_info := n_fda_info n;
     n_descriptions := n_descriptions n; n_synonyms := v;
     n_same_as := n_same_as n; n_iri_types := n_iri_types n |}.
Definition set_same_as v (n : snode) : snode :=
  {| n_aras := n_aras n; n_names := n_names n; n_types := n_types n;
     n_curies := n_curies n; n_fda_info := n_fda_info n;
     n_descriptions := n_descriptions n; n_synonyms := n_synonyms n;
     n_same_as := v; n_iri_types := n_iri_types n |}.
Definition set_n_iri_types v (n : snode) : snode :=
  {| n_aras := n_aras n; n_names := n_names n; n_types := n_types n;
     n_curies := n_curies n; n_fda_info := n_fda_info n;
     n_descriptions := n_descriptions n; n_synonyms := n_synonyms n;
     n_same_as := n_same_as n; n_iri_types := v |}.
Definition set_n_aras v (n : snode) : snode :=
  {| n_aras := v; n_names := n_names n; n_types := n_types n;
     n_curies := n_curies n; n_fda_info := n_fda_info n;
     n_descriptions := n_descriptions n; n_synonyms := n_synonyms n;
     n_same_as := n_same_as n; n_iri_types := n_iri_types n |}.

Definition set_predicate v (e : sedge) : sedge :=
  {| e_aras := e_aras e; e_predicate := v; e_qualifiers := e_qualifiers e;
     e_subject := e_subject e; e_object := e_object e;
     e_iri_types := e_iri_types e; e_snippets := e_snippets e;
     e_publications := e_publications e |}.
Definition set_qualifiers v (e : sedge) : sedge :=
  {| e_aras := e_aras e; e_predicate := e_predicate e; e_qualifiers := v;
     e_subject := e_subject e; e_object := e_object e;
     e_iri_types := e_iri_types e; e_snippets := e_snippets e;
     e_publications := e_publications e |}.
Definition set_subject v (e : sedge) : sedge :=
  {| e_aras := e_aras e; e_predicate := e_predicate e;
     e_qualifiers := e_qualifiers e;
     e_subject := v; e_object := e_object e;
     e_iri_types := e_iri_types e; e_snippets := e_snippets e;
     e_publications := e_publications e |}.
Definition set_object v (e : sedge) : sedge :=
  {| e_aras := e_aras e; e_predicate := e_predicate e;
     e_qualifiers := e_qualifiers e;
     e_subject := e_subject e; e_object := v;
     e_iri_types := e_iri_types e; e_snippets := e_snippets e;
     e_publications := e_publications e |}.
Definition set_e_iri_types v (e : sedge) : sedge :=
  {| e_aras := e_aras e; e_predicate := e_predicate e;
     e_qualifiers := e_qualifiers e;
     e_subject := e_subject e; e_object := e_object e;
     e_iri_types := v; e_snippets := e_snippets e;
     e_publications := e_publications e |}.
Definition set_snippets v (e : sedge) : sedge :=
  {| e_aras := e_aras e; e_predicate := e_predicate e;
     e_qualifiers := e_qualifiers e;
     e_subject := e_subject e; e_object := e_object e;
     e_iri_types := e_iri_types e; e_snippets := v;
     e_publications := e_publications e |}.
Definition set_publications v (e : sedge) : sedge :=
  {| e_aras := e_aras e; e_predicate := e_predicate e;
     e_qualifiers := e_qualifiers e;
     e_subject := e_subject e; e_object := e_object e;
     e_iri_types := e_iri_types e; e_snippets := e_snippets e;
     e_publications := v |}.
Definition set_e_aras v (e : sedge) : sedge :=
  {| e_aras := v; e_predicate := e_predicate e;
     e_qualifiers := e_qualifiers e;
     e_subject := e_subject e; e_object := e_object e;
     e_iri_types := e_iri_types e; e_snippets := e_snippets e;
     e_publications := e_publications e |}.

End Merge.

Module Summarize.
Import Merge.
Section WithInterfaces.

Context {BL : Biolink} {EV : Evidence}.
Variable pathToKey : list atom -> string.
Variable nodeToCanonicalNode : string -> atom.

Fixpoint foldM {A B : Type} (f : A -> B -> outcome A) (l : list B) (a : A)
  : outcome A :=
  match l with
  | [] => Ret a
  | x :: tl => a' <- f a x ;; foldM f tl a'
  end.

(** ** The rules *)

Definition truthyName (name : option string) : list string :=
  match name with
  | Some s => if nonempty s then [s] else []
  | None => []
  end.

Definition orEmpty {A : Type} (l : option (list A)) : list A :=
  match l with
  | Some l => l
  | None => []
  end.

Definition fdaInfo (attributes : option (list attribute)) : option avalue :=
  match attributes with
  | Some l => firstAttribute (tagBiolink "highest_FDA_approval_status") l
  | None => None
  end.

(** [nodeRules(knode)], a list of transforms. *)
Definition nodeRules (k : knode) : list (snode -> outcome snode) :=
  [ (fun n => Ret (set_names (n_names n ++ truthyName (kn_name k)) n));
    (fun n => Ret (set_types (n_types n ++ orEmpty (kn_categories k)) n));
    (fun n => Ret (set_curies
                     (n_curies n ++ aggregated [tagBiolink "xref"] (kn_attributes k)) n));
    (fun n => Ret (set_fda_info (fdaInfo (kn_attributes k)) n));
    (fun n => Ret (set_descriptions
                     (n_descriptions n ++
                      aggregated [tagBiolink "description"] (kn_attributes k)) n));
    (fun n => Ret (set_synonyms
                     (n_synonyms n ++
                      aggregated [tagBiolink "synonym"] (kn_attributes k)) n));
    (fun n => Ret (set_same_as
                     (n_same_as n ++
                      aggregated [tagBiolink "same_as"] (kn_attributes k)) n));
    (fun n => Ret (set_n_iri_types
                     (n_iri_types n ++
                      aggregated [tagBiolink "IriType"] (kn_attributes k)) n)) ].

Definition transformed (f : string -> atom) (val : string) : atom :=
  if nonempty val then f val else ANull.

(** [edgeRules(kedge)], a list of transforms. *)
Definition edgeRules (k : kedge) : list (sedge -> outcome sedge) :=
  [ (fun e => Ret (set_predicate
                     (transformed (fun p => AStr (sanitizeBiolinkElement p))
                                  (ke_predicate k)) e));
    (fun e => Ret (set_qualifiers (ke_qualifiers k) e));
    (fun e => Ret (set_subject (transformed nodeToCanonicalNode (ke_subject k)) e));
    (fun e => Ret (set_object (transformed nodeToCanonicalNode (ke_object k)) e));
    (fun e => Ret (set_e_iri_types
                     (e_iri_types e ++
                      aggregated [tagBiolink "IriType"] (ke_attributes k)) e));
    (fun e => Ret (set_snippets
                     (Some (orEmpty (e_snippets e) ++
                            aggregated ["bts:sentence"] (ke_attributes k))) e));
    (fun e => v <- evidence (ke_attributes k) ;;
              Ret (set_publications (e_publications e ++ v) e)) ].

(** ** Extending the summary with a fragment *)

Definition pathDrug (path : list atom) : string :=
  match path with
  | [] => "undefined"
  | a :: _ => render a
  end.

Definition extendSummaryResults (results : list (string * list string))
           (newPaths : list (list atom)) : list (string * list string) :=
  fold_left
    (fun results path =>
       let paths := match assoc (pathDrug path) results with
                    | Some l => l
                    | None => []
                    end in
       aset (pathDrug path) (paths ++ [pathToKey path]) results)
    newPaths results.

Definition extendSummaryPaths (paths : list (string * pathEntry))
           (newPaths : list (list atom)) (agent : string)
  : list (string * pathEntry) :=
  fold_left
    (fun paths path =>
       match assoc (pathToKey path) paths with
       | Some existingPath =>
           aset (pathToKey path)
                {| subgraph := subgraph existingPath;
                   p_aras := p_aras existingPath ++ [agent] |} paths
       | None =>
           aset (pathToKey path) {| subgraph := path; p_aras := [agent] |} paths
       end)
    newPaths paths.

Definition extendSummaryObj {O U : Type} (empty : O) (key : U -> string)
           (transforms : U -> list (O -> outcome O)) (push : string -> O -> O)
           (objs : list (string * O)) (updates : list U) (agent : string)
  : outcome (list (string * O)) :=
  foldM
    (fun objs update =>
       let obj := match assoc (key update) objs with
                  | Some o => o
                  | None => empty
                  end in
       obj' <- foldM (fun o transform => o' <- transform o ;; Ret (push agent o'))
                 (transforms update) obj ;;
       Ret (aset (key update) obj' objs))
    updates objs.

Definition extendSummaryNodes :=
  extendSummaryObj emptyNode (fun u => render (nu_key u))
    (fun u => nodeRules (nu_knode u))
    (fun agent n => set_n_aras (n_aras n ++ [agent]) n).

Definition extendSummaryEdges :=
  extendSummaryObj emptyEdge eu_key
    (fun u => edgeRules (eu_kedge u))
    (fun agent e => set_e_aras (e_aras e ++ [agent]) e).

Definition extendSummaryScores (scores newScores : list (string * list score))
  : list (string * list score) :=
  fold_left
    (fun scores kv =>
       let currentScores := match assoc (fst kv) scores with
                            | Some l => l
                            | None => []
                            end in
       aset (fst kv) (currentScores ++ snd kv) scores)
    newScores scores.

(** The state of the loop over the condensed summaries. *)
Record merged : Type := {
  m_results : list (string * list string);
  m_paths : list (string * pathEntry);
  m_nodes : list (string * snode);
  m_edges : list (string * sedge);
  m_scores : list (string * list score)
}.

Definition emptyMerged : merged :=
  {| m_results := []; m_paths := []; m_nodes := []; m_edges := []; m_scores := [] |}.

Definition extendSummary (m : merged) (cs : condensedSummary) : outcome merged :=
  let agent := cs_agent cs in
  let f := cs_fragment cs in
  nodes <- extendSummaryNodes (m_nodes m) (sf_nodes f) agent ;;
  edges <- extendSummaryEdges (m_edges m) (sf_edges f) agent ;;
  Ret {| m_results := extendSummaryResults (m_results m) (sf_paths f);
         m_paths := extendSummaryPaths (m_paths m) (sf_paths f) agent;
         m_nodes := nodes;
         m_edges := edges;
         m_scores := extendSummaryScores (m_scores m) (sf_scores f) |}.

(** ** Publications and inverse edges *)

Definition makePublicationObject (type url : string) (snippet pubdate : option string)
  : publication :=
  {| pub_type := type; pub_url := url;
     pub_snippet := snippet; pub_pubdate := pubdate |}.

(** The first snippet that has the id. *)
Fixpoint findSnippet (id : string) (snippets : list item)
  : option (list (string * string)) :=
  match snippets with
  | [] => None
  | IObj o :: tl =>
      match assoc id o with
      | Some publicationObj => Some publicationObj
      | None => findSnippet id tl
      end
  | IStr _ :: tl => findSnippet id tl
  end.

Definition extendSummaryPublications (publications : list (string * publication))
           (edge : sedge) : list (string * publication) :=
  fold_left
    (fun publications id =>
       let '(type, url) := idToTypeAndUrl id in
       match findSnippet id (orEmpty (e_snippets edge)) with
       | Some publicationObj =>
           aset id (makePublicationObject type url
                      (assoc "sentence" publicationObj)
                      (assoc "publication date" publicationObj)) publications
       | None => aset id (makePublicationObject type url None None) publications
       end)
    (e_publications edge) publications.

Definition edgePredicate (e : sedge) (invert : bool) : atom :=
  Qualified.edgeToQualifiedPredicate (e_predicate e) (e_qualifiers e) invert.

Definition invertedEdgeKey (e : sedge) : string :=
  pathToKey [e_object e; edgePredicate e true; e_subject e].

(** The copy installed by [addInverseEdge]. *)
Definition invertedEdge (e : sedge) : sedge :=
  set_qualifiers None
    (set_predicate (edgePredicate e true)
       (set_object (e_subject e) (set_subject (e_object e) e))).

(** The edge after its own turn in the loop. *)
Definition finishedEdge (e : sedge) : sedge :=
  set_qualifiers None (set_predicate (edgePredicate e false) e).

(** The edges object during the loop of [edgesToEdgesAndPublications]: the
    flag tells whether the object under the key is still the one the loop
    was started on ([true]), which the loop changes in place, or a copy
    that [addInverseEdge] has put there. *)
Definition tracked : Type := list (string * (bool * sedge)).

Definition edgeStep (st : tracked * list (string * publication))
           (ke : string * sedge) : tracked * list (string * publication) :=
  let '(edges, publications) := st in
  let '(key, edge) := ke in
  let publications' := extendSummaryPublications publications edge in
  let edge1 := set_snippets None edge in
  let edges1 := aset (invertedEdgeKey edge1) (false, invertedEdge edge1) edges in
  let edges2 :=
    match assoc key edges1 with
    | Some (true, _) => aset key (true, finishedEdge edge1) edges1
    | _ => edges1
    end in
  (edges2, publications').

(** The loop runs over [Object.values(edges)], taken before the loop. *)
Definition edgesToEdgesAndPublications (edges : list (string * sedge))
  : list (string * sedge) * list (string * publication) :=
  let st := fold_left edgeStep (enumerate edges)
              (map (fun ke => (fst ke, (true, snd ke))) edges, []) in
  (map (fun ke => (fst ke, snd (snd ke))) (fst st), snd st).

(** [objRemoveDuplicates] on an edge (its qualifiers are objects, each one
    its own element), followed by the filter on its publications. *)
Definition cleanEdge (e : sedge) : sedge :=
  set_publications (filter isValidId (dedup (e_publications e)))
    (set_snippets (option_map (dedupBy item_eqb) (e_snippets e))
       (set_e_iri_types (dedupBy item_eqb (e_iri_types e))
          (set_e_aras (dedup (e_aras e)) e))).

Definition pushIfEmpty {A : Type} (arr : list A) (val : A) : list A :=
  match arr with
  | [] => [val]
  | _ => arr
  end.

Definition nodeRemoveDuplicates (n : snode) : snode :=
  {| n_aras := dedup (n_aras n);
     n_names := dedup (n_names n);
     n_types := dedup (n_types n);
     n_curies := dedupBy item_eqb (n_curies n);
     n_fda_info := n_fda_info n;
     n_descriptions := dedupBy item_eqb (n_descriptions n);
     n_synonyms := dedupBy item_eqb (n_synonyms n);
     n_same_as := dedupBy item_eqb (n_same_as n);
     n_iri_types := dedupBy item_eqb (n_iri_types n) |}.

Definition cleanNode (k : string) (n : snode) : snode :=
  let node := nodeRemoveDuplicates n in
  set_curies (pushIfEmpty (n_curies node) (IStr k))
    (set_names (pushIfEmpty (n_names node) k) node).

End WithInterfaces.
End Summarize.

Module Results.
Import Merge.
Section Expand.

(** [a < b] on path elements; two strings compare by their characters.  A
    comparison with [false] or [null] goes through numbers and is false
    for a key that is not a numeral. *)
Definition jsLt (a b : atom) : bool :=
  match a, b with
  | AStr s, AStr t => String.ltb s t
  | _, _ => false
  end.

(** The loop of [isPathLessThan] over the even indices. *)
Fixpoint compareEven (path1 path2 : list atom) : Z :=
  match path1, path2 with
  | a :: r1, b :: r2 =>
      if jsLt a b then (-1)%Z
      else if jsLt b a then 1%Z
      else match r1, r2 with
           | _ :: t1, _ :: t2 => compareEven t1 t2
           | _, _ => 0%Z
           end
  | _, _ => 0%Z
  end.

Definition isPathLessThan (path1 path2 : list atom) : Z :=
  if Nat.eqb (List.length path1) (List.length path2)
  then compareEven path1 path2
  else if Nat.ltb (List.length path1) (List.length path2) then (-1)%Z else 1%Z.

(** [Array.prototype.sort] with a comparator: a stable sort, here by
    insertion. *)
Fixpoint insert {A : Type} (cmp : A -> A -> Z) (x : A) (l : list A) : list A :=
  match l with
  | [] => [x]
  | y :: tl => if Z.leb (cmp x y) 0 then x :: l else y :: insert cmp x tl
  end.

Definition sort {A : Type} (cmp : A -> A -> Z) (l : list A) : list A :=
  fold_right (insert cmp) [] l.

(** [a + b] on scores: a sum with [undefined] is [NaN], written [None]
    as well. *)
Definition jsAdd (a b : score) : score :=
  match a, b with
  | Some x, Some y => Some (numAdd x y)
  | _, _ => None
  end.

(** [drugScores.reduce((a, b) => a + b) / drugScores.length]; reducing an
    empty array throws. *)
Definition average (drugScores : list score) : outcome score :=
  match drugScores with
  | [] => Threw
  | x :: tl =>
      Ret (match fold_left jsAdd tl x with
           | Some total =>
               Some (numDiv total (numOfNat (List.length drugScores)))
           | None => None
           end)
  end.

Definition getPathFromPid (paths : list (string * pathEntry)) (pid : string)
  : outcome (list atom) :=
  match assoc pid paths with
  | Some p => Ret (subgraph p)
  | None => Threw
  end.

Definition fromOption {A : Type} (o : option A) : outcome A :=
  match o with
  | Some a => Ret a
  | None => Threw
  end.

Definition expandResult (paths : list (string * pathEntry))
           (nodes : list (string * snode)) (scores : list (string * list score))
           (ps : list string) : outcome result :=
  resolved <- Fragment.mapM
                (fun pid => s <- getPathFromPid paths pid ;; Ret (pid, s)) ps ;;
  match resolved with
  | [] => Threw
  | (_, []) :: _ => Threw
  | (_, (drug :: _) as subgraph) :: _ =>
      node <- fromOption (assoc (render drug) nodes) ;;
      let drugName := n_names node in
      let disease := last subgraph AFalse in
      drugScores <- fromOption (assoc (render drug) scores) ;;
      mean <- average drugScores ;;
      Ret {| r_subject := drug;
             r_drug_name := match drugName with
                            | [] => drug
                            | name :: _ => AStr name
                            end;
             r_paths := map fst
                          (sort (fun a b => isPathLessThan (snd a) (snd b)) resolved);
             r_object := disease;
             r_score := mean |}
  end.

Definition expandResults (results : list (list string))
           (paths : list (string * pathEntry))
           (nodes : list (string * snode)) (scores : list (string * list score))
  : outcome (list result) :=
  Fragment.mapM (expandResult paths nodes scores) results.

End Expand.
End Results.

Module Summary.
Import Merge Summarize Results.
Section WithInterfaces.

Context {BL : Biolink} {EV : Evidence}.
Variable pathToKey : list atom -> string.

(** [SERVER_CONFIG.max_hops] *)
Variable maxHops : nat.

Definition pathRemoveDuplicates (p : pathEntry) : pathEntry :=
  {| subgraph := dedupBy atom_eqb (subgraph p); p_aras := dedup (p_aras p) |}.

Definition onValues {A B : Type} (f : string -> A -> B) (m : list (string * A))
  : list (string * B) :=
  map (fun kv => (fst kv, f (fst kv) (snd kv))) m.

(** The summary before the results are expanded: the state of the loop, the
    edges after the removal of duplicates and of invalid publication ids. *)
Definition cleanedEdges (m : merged) : list (string * sedge) :=
  onValues (fun _ e => cleanEdge e) (m_edges m).

Definition finish (qid : string) (condensedSummaries : list condensedSummary)
           (m : merged) : outcome summary :=
  let ep := edgesToEdgesAndPublications pathToKey (cleanedEdges m) in
  let metadataObject :=
    {| meta_qid := qid; meta_aras := map cs_agent condensedSummaries |} in
  let nodes := onValues cleanNode (m_nodes m) in
  results <- expandResults (map dedup (avalues (m_results m)))
               (m_paths m) nodes (m_scores m) ;;
  Ret {| s_meta := metadataObject;
         s_results := results;
         s_paths := onValues (fun _ p => pathRemoveDuplicates p) (m_paths m);
         s_nodes := nodes;
         s_edges := fst ep;
         s_publications := snd ep |}.

Definition mergeAll (nodeToCanonicalNode : string -> atom)
           (condensedSummaries : list condensedSummary) : outcome merged :=
  foldM (extendSummary pathToKey nodeToCanonicalNode) condensedSummaries emptyMerged.

Definition condensedSummariesToSummary (nodeToCanonicalNode : string -> atom)
           (qid : string) (condensedSummaries : list condensedSummary)
  : outcome summary :=
  m <- mergeAll nodeToCanonicalNode condensedSummaries ;;
  finish qid condensedSummaries m.

Definition resultNodes (answers : list answer) : list (list (string * knode)) :=
  map (fun a => kg_nodes (knowledge_graph (message a))) answers.

Definition creativeAnswersToSummary (qid : string) (answers : list answer)
  : outcome summary :=
  mapping <- Canonical.makeCanonicalNodeMapping (resultNodes answers) ;;
  let nodeToCanonicalNode := Canonical.canonical mapping in
  condensedSummaries <-
    Fragment.creativeAnswersToCondensedSummaries
      pathToKey nodeToCanonicalNode maxHops answers ;;
  condensedSummariesToSummary nodeToCanonicalNode qid condensedSummaries.

End WithInterfaces.
End Summary.


(* ================================================================== *)
(** * The paths of a result graph, as section 4.6 words them *)
(* ================================================================== *)

Module PathSpec.
Section Paths.

Variable kg : kgraph.
Variable rg : rgraph.
Variable nodeToCanonicalNode : string -> atom.
Variable disease : string.
Variable maxHops : nat.

(** An edge of the reduced graph between two nodes; the graph is undirected
    for the traversal. *)
Definition joins (redge a b : string) : Prop :=
  In redge (rg_edges rg) /\
  exists e, assoc redge (kg_edges kg) = Some e /\
            ((ke_subject e = a /\ ke_object e = b) \/
             (ke_object e = a /\ ke_subject e = b)).

(** The sequences [node, edge, node, ...] from the drug in which every
    extension goes along an edge of the reduced graph to a target that is not
    already in the sequence and whose canonical node is not [false]. *)
Inductive walk (drug : string) : list string -> Prop :=
| walk_start : walk drug [drug]
| walk_step (path : list string) (redge target : string) :
    walk drug path ->
    joins redge (last path "") target ->
    ~ In target path ->
    nodeToCanonicalNode target <> AFalse ->
    walk drug (path ++ [redge; target]).

Definition simplePath (drug : string) (path : list string) : Prop :=
  walk drug path /\
  last path "" = disease /\
  List.length path <= 2 * maxHops + 1.

End Paths.

Section Tree.

Variable extend : list string -> list (list string) * list (list string).

(** The paths yielded below a path of the search tree, in the order in which
    the loop of [rgraphFold] yields them: the last extension is popped first. *)
Fixpoint explore (depth : nat) (path : list string) : list (list string) :=
  match depth with
  | O => snd (extend path)
  | S d => snd (extend path) ++ flat_map (explore d) (rev (fst (extend path)))
  end.

(** One extension in the search tree. *)
Definition child (path extended : list string) : Prop :=
  In extended (fst (extend path)).

End Tree.
End PathSpec.

(* ================================================================== *)
(** * The scores that the loops add *)
(* ================================================================== *)

Module ScoreTrace.
Section WithBiolink.

Context {BL : Biolink}.
Variable pathToKey : list atom -> string.
Variable nodeToCanonicalNode : string -> atom.
Variable maxHops : nat.

(** What the fragment of one result adds to the score list of a key: its one
    score under the key of its drug; an empty fragment adds [undefined] under
    the key "undefined". *)
Definition contribution (r : trapiResult) (kg : kgraph) (k : string) : list score :=
  match Fragment.trapiResultToSummaryFragment
          pathToKey nodeToCanonicalNode maxHops r kg with
  | Ret f =>
      match rf_scores f with
      | (k', v) :: _ => if String.eqb k k' then [Some v] else []
      | [] => if String.eqb k "undefined" then [None] else []
      end
  | Threw => []
  end.

(** The score list accumulated for a key, over the agents and their
    results in order. *)
Definition accumulated (answers : list answer) (k : string) : list score :=
  flat_map
    (fun a => flat_map
                (fun r => contribution r (knowledge_graph (message a)) k)
                (results (message a)))
    answers.

End WithBiolink.

(** The score list of a key in an object of score lists. *)
Definition scoresOf (scores : list (string * list score)) (k : string) : list score :=
  match assoc k scores with
  | Some l => l
  | None => []
  end.

End ScoreTrace.

(* ================================================================== *)
(** * Scores, as sections 4.8, 4.9 and 8 word them *)
(* ================================================================== *)

Module ScoreSpec.

(** A CURIE has the form [prefix:localid]. *)
Fixpoint hasColon (s : string) : bool :=
  match s with
  | EmptyString => false
  | String c tl => (Ascii.eqb c ":" || hasColon tl)%bool
  end.

Definition isCurie (s : string) : bool := hasColon s.

Section Worded.

(** The resolver of section 4.4. *)
Variable canon : string -> atom.

(** The CURIE that a result binds first under a key of the query graph. *)
Definition boundCurie (r : trapiResult) (key : string) : option string :=
  match assoc key (node_bindings r) with
  | Some (id :: _) => if nonempty id then Some id else None
  | _ => None
  end.

(** A result that can be bound (sections 4.5 and 7): it binds [sn] and
    [on], and every CURIE that it binds is a node of the knowledge graph. *)
Definition bindable (r : trapiResult) (kg : kgraph) : bool :=
  match boundCurie r subjectKey, boundCurie r objectKey with
  | Some _, Some _ =>
      forallb (fun curie => mem curie (akeys (kg_nodes kg)))
              (List.concat (map snd (node_bindings r)))
  | _, _ => false
  end.

(** The scores of the fragment of a result (section 4.8), as far as they
    are for a key: [{canon(drug): result.normalized_score ?? 0}], and nothing
    for a result that cannot be bound, whose fragment is empty. *)
Definition contributed (r : trapiResult) (kg : kgraph) (k : string) : list number :=
  if bindable r kg then
    match boundCurie r subjectKey with
    | Some drug =>
        if String.eqb k (render (canon drug))
        then [match normalized_score r with
              | Some x => x
              | None => zero
              end]
        else []
    | None => []
    end
  else [].

(** [scores[drug]] (section 4.9): the scores of the fragments, concatenated
    in the order of the agents and of their results. *)
Definition scoresFor (answers : list answer) (k : string) : list number :=
  flat_map
    (fun a => flat_map
                (fun r => contributed r (knowledge_graph (message a)) k)
                (results (message a)))
    answers.

End Worded.

(** The value of a double that is finite. *)
Definition toQ (x : number) : option Q :=
  match x with
  | S754_zero _ => Some 0%Q
  | S754_finite s m e =>
      Some (inject_Z (if s then Z.neg m else Z.pos m) * Qpower 2 e)%Q
  | _ => None
  end.

Fixpoint exactSum (l : list number) : option Q :=
  match l with
  | [] => Some 0%Q
  | x :: tl =>
      match toQ x, exactSum tl with
      | Some q, Some t => Some (q + t)%Q
      | _, _ => None
      end
  end.

(** The arithmetic mean of a list of doubles. *)
Definition exactMean (l : list number) : option Q :=
  match l, exactSum l with
  | _ :: _, Some t => Some (t / inject_Z (Z.of_nat (List.length l)))%Q
  | _, _ => None
  end.

(** A score that is a number, equal to a value to within 1e-9. *)
Definition within (a : score) (m : option Q) : Prop :=
  match a, m with
  | Some x, Some m =>
      match toQ x with
      | Some q => (Qabs (q - m) <= 1 # 1000000000)%Q
      | None => False
      end
  | _, _ => False
  end.

(** The mean as doubles give it: the sum from left to right, divided by
    the length, every operation rounded. *)
Definition roundedMean (l : list number) : score :=
  match l with
  | [] => None
  | x :: tl => Some (numDiv (fold_left numAdd tl x) (numOfNat (List.length l)))
  end.

Section Claim.

Context {BL : Biolink} {EV : Evidence}.
Variable pathToKey : list atom -> string.
Variable maxHops : nat.

(** The claim on the answers of some agents: the score of every result is
    the arithmetic mean of the scores for its drug, to within 1e-9. *)
Definition scoresAreMeans (answers : list answer) : Prop :=
  forall qid s mapping,
    Summary.creativeAnswersToSummary pathToKey maxHops qid answers = Ret s ->
    Canonical.makeCanonicalNodeMapping (Summary.resultNodes answers) =
      Ret mapping ->
    forall r, In r (s_results s) ->
      within (r_score r)
        (exactMean (scoresFor (Canonical.canonical mapping) answers
                      (render (r_subject r)))).

End Claim.

End ScoreSpec.

(* ================================================================== *)
(** * Publications and inverse edges, as section 4.9 and 4.10 word them *)
(* ================================================================== *)

Module EdgeSpec.
Import Summarize.
Section WithInterfaces.

Context {BL : Biolink} {EV : Evidence}.
Variable pathToKey : list atom -> string.

(** The entry of the publications table for an id listed on an edge. *)
Definition publicationOf (edge : sedge) (id : string) : publication :=
  match findSnippet id (orEmpty (e_snippets edge)) with
  | Some publicationObj =>
      makePublicationObject (fst (idToTypeAndUrl id)) (snd (idToTypeAndUrl id))
        (assoc "sentence" publicationObj)
        (assoc "publication date" publicationObj)
  | None =>
      makePublicationObject (fst (idToTypeAndUrl id)) (snd (idToTypeAndUrl id))
        None None
  end.

(** The path of the inverse of an edge: object, inverse qualified predicate,
    subject. *)
Definition inversePath (e : sedge) : list atom :=
  [e_object e; edgePredicate e true; e_subject e].

(** An entry mirrors an edge: subject and object swapped, the inverse
    qualified predicate, no qualifiers. *)
Definition mirrors (inverse e : sedge) : Prop :=
  e_subject inverse = e_object e /\
  e_object inverse = e_subject e /\
  e_predicate inverse = edgePredicate e true /\
  e_qualifiers inverse = None.

(** The copy that [addInverseEdge] makes of an edge, and the edge after its
    turn: the snippets are deleted first. *)
Definition inverseOf (e : sedge) : sedge :=
  invertedEdge (Merge.set_snippets None e).

Definition finished (e : sedge) : sedge :=
  finishedEdge (Merge.set_snippets None e).

Definition inverseKey (e : sedge) : string := pathToKey (inversePath e).

(** After the turns of the edges [done], the inverse key of each of them
    holds the copy of an edge with that inverse key. *)
Definition installed (done : list (string * sedge)) (t : tracked) : Prop :=
  forall K e, In (K, e) done ->
    exists K' e', In (K', e') done /\
                  inverseKey e' = inverseKey e /\
                  assoc (inverseKey e) t = Some (false, inverseOf e').

(** Every object of the edges is the copy of an edge that had its turn,
    under the inverse key of that edge, or an edge of the fragments under its
    own key, before or after its turn. *)
Definition provenance (origs done : list (string * sedge)) (t : tracked) : Prop :=
  forall K flag x, In (K, (flag, x)) t ->
    (flag = false /\
     exists K0 e, In (K0, e) done /\ K = inverseKey e /\ x = inverseOf e) \/
    (flag = true /\
     exists e, In (K, e) origs /\ (x = e \/ x = finished e)).

(** Every edge has its inverse: under the key of the path [object, inverse
    qualified predicate, subject] there is an entry with subject and object
    swapped, the inverse predicate and no qualifiers. *)
Definition inverseClosed (edges : list (string * sedge)) : Prop :=
  forall K e, In (K, e) edges ->
    exists inverse,
      assoc (inverseKey e) edges = Some inverse /\
      e_subject inverse = e_object e /\
      e_object inverse = e_subject e /\
      e_predicate inverse = invertBiolinkPredicate (e_predicate e) /\
      e_qualifiers inverse = None.

End WithInterfaces.
End EdgeSpec.

(* ================================================================== *)
(** * The edges that the fragments build *)
(* ================================================================== *)

Module Stages.
Import Summarize Summary.
Section WithInterfaces.

Context {BL : Biolink} {EV : Evidence}.
Variable pathToKey : list atom -> string.
Variable maxHops : nat.

(** The state of the summary after the loop over the condensed summaries. *)
Definition mergedState (answers : list answer) : outcome merged :=
  mapping <- Canonical.makeCanonicalNodeMapping (resultNodes answers) ;;
  condensedSummaries <-
    Fragment.creativeAnswersToCondensedSummaries
      pathToKey (Canonical.canonical mapping) maxHops answers ;;
  mergeAll pathToKey (Canonical.canonical mapping) condensedSummaries.

(** The edges of the summary when [edgesToEdgesAndPublications] starts:
    one for each edge key of the fragments. *)
Definition fragmentEdges (answers : list answer) : list (string * sedge) :=
  match mergedState answers with
  | Ret m => cleanedEdges m
  | Threw => []
  end.

End WithInterfaces.
End Stages.

(* ================================================================== *)
(** * Results that cannot be bound, as section 7 words them *)
(* ================================================================== *)

Module SkipSpec.
Import Summarize.
Section WithBiolink.

Context {BL : Biolink}.

(** A result that binds a CURIE absent from the nodes of the knowledge
    graph; or a result whose edge bindings are all in the knowledge graph and
    whose [sn] or [on] binding is missing, the other one not being an empty
    array. *)
Definition unbindable (r : trapiResult) (kg : kgraph) : Prop :=
  forallb (fun rnode => mem rnode (akeys (kg_nodes kg)))
          (Rgraph.flattenBindings (node_bindings r)) = false \/
  ((exists edges,
      Rgraph.filterEdges (Rgraph.flattenBindings (edge_bindings r)) kg = Ret edges) /\
   ((assoc subjectKey (node_bindings r) = None /\
     assoc objectKey (node_bindings r) <> Some []) \/
    (assoc objectKey (node_bindings r) = None /\
     assoc subjectKey (node_bindings r) <> Some []))).

End WithBiolink.

(** The answer of an agent with other results. *)
Definition withResults (a : answer) (rs : list trapiResult) : answer :=
  {| agent := agent a;
     message := {| knowledge_graph := knowledge_graph (message a);
                   results := rs |} |}.

(** A result whose [sn] or [on] binding is missing, or which binds a CURIE
    absent from the nodes of the knowledge graph. *)
Definition badResult (r : trapiResult) (kg : kgraph) : Prop :=
  assoc subjectKey (node_bindings r) = None \/
  assoc objectKey (node_bindings r) = None \/
  forallb (fun rnode => mem rnode (akeys (kg_nodes kg)))
          (Rgraph.flattenBindings (node_bindings r)) = false.

(** Two outcomes that both throw, or both return, related values. *)
Definition osim {A : Type} (R : A -> A -> Prop) (x y : outcome A) : Prop :=
  match x, y with
  | Threw, Threw => True
  | Ret a, Ret b => R a b
  | _, _ => False
  end.

(** Score objects that agree on every key but "undefined". *)
Definition agree (s s' : list (string * list score)) : Prop :=
  NoDup (akeys s) /\ NoDup (akeys s') /\
  forall k, k <> "undefined" -> assoc k s = assoc k s'.

Definition fsim (f f' : summaryFragment) : Prop :=
  sf_paths f = sf_paths f' /\ sf_nodes f = sf_nodes f' /\
  sf_edges f = sf_edges f' /\ agree (sf_scores f) (sf_scores f').

Definition csim (cs cs' : condensedSummary) : Prop :=
  cs_agent cs = cs_agent cs' /\ fsim (cs_fragment cs) (cs_fragment cs').

Definition msim (m m' : merged) : Prop :=
  m_results m = m_results m' /\ m_paths m = m_paths m' /\
  m_nodes m = m_nodes m' /\ m_edges m = m_edges m' /\
  forall k, k <> "undefined" -> assoc k (m_scores m) = assoc k (m_scores m').

Section Recovery.

Context {BL : Biolink} {EV : Evidence}.
Variable pathToKey : list atom -> string.
Variable maxHops : nat.

(** The policy of section 7: the summary with a bad result among the
    results of an agent is the summary without it. *)
Definition recovers : Prop :=
  forall (qid : string) (pre post : list answer) (a : answer)
         (rs1 rs2 : list trapiResult) (r : trapiResult),
    results (message a) = rs1 ++ r :: rs2 ->
    badResult r (knowledge_graph (message a)) ->
    Summary.creativeAnswersToSummary pathToKey maxHops qid (pre ++ a :: post) =
    Summary.creativeAnswersToSummary pathToKey maxHops qid
      (pre ++ withResults a (rs1 ++ rs2) :: post).

End Recovery.
End SkipSpec.

(* ================================================================== *)
(** * The order of the agents, as section 5 words it *)
(* ================================================================== *)

Module OrderSpec.
Import Summarize Summary.

Definition resultDrugs (s : summary) : list string :=
  map (fun r => render (r_subject r)) (s_results s).


Section WithInterfaces.

Context {BL : Biolink} {EV : Evidence}.
Variable pathToKey : list atom -> string.
Variable maxHops : nat.


(** The condensed summaries of the agents. *)
Definition condensed (answers : list answer) : outcome (list condensedSummary) :=
  mapping <- Canonical.makeCanonicalNodeMapping (resultNodes answers) ;;
  Fragment.creativeAnswersToCondensedSummaries
    pathToKey (Canonical.canonical mapping) maxHops answers.

(** The paths of all the fragments. *)
Definition pathsOf (css : list condensedSummary) : list (list atom) :=
  flat_map (fun cs => sf_paths (cs_fragment cs)) css.

(** The edge updates of all the fragments. *)
Definition edgesOf (css : list condensedSummary) : list edgeUpdate :=
  flat_map (fun cs => sf_edges (cs_fragment cs)) css.

Definition fragmentPaths (answers : list answer) : list (list atom) :=
  match condensed answers with
  | Ret css => pathsOf css
  | Threw => []
  end.

End WithInterfaces.
End OrderSpec.

(* ================================================================== *)
(** * Query builder *)
(* ================================================================== *)

Module Query.

(** The errors that [queryToCreativeQuery] throws, and its completion: an
    error thrown or a value returned. *)
Inductive error : Type :=
| TypeError
| ReferenceError
| RangeError.

Inductive completion (A : Type) : Type :=
| Err (e : error)
| Ok (a : A).
Arguments Err {A} e.
Arguments Ok {A} a.

(** A node of the request: its category and, for the node of the query,
    its id. *)
Record requestNode : Type := {
  category : string;
  id : option json
}.

Definition nodeToQgNode (node : requestNode) : json :=
  JObj (("categories", JArr [JStr (tagBiolink (category node))]) ::
        match id node with
        | Some v => if truthy v then [("ids", JArr [v])] else []
        | None => []
        end).

(** [buildCreativeQgraph]; the direction of [diseaseToTrapiQgraph] is
    [null]. *)
Definition buildCreativeQgraph (subject object : requestNode) (predicate : string)
           (direction : json) : json :=
  let qgNodes :=
    JObj [(subjectKey, nodeToQgNode subject); (objectKey, nodeToQgNode object)] in
  let qgEdge :=
    [("subject", JStr subjectKey);
     ("object", JStr objectKey);
     ("predicates", JArr [JStr (tagBiolink predicate)]);
     ("knowledge_type", JStr "inferred")] ++
    (if truthy direction
     then [("qualifier_constraints",
            JArr [JObj [("qualifier_set",
                         JArr [JObj [("qualifier_type_id",
                                      JStr "biolink:object_aspect_qualifier");
                                     ("qualifier_value",
                                      JStr "activity_or_abundance")];
                               JObj [("qualifier_type_id",
                                      JStr "biolink:object_direction_qualifier");
                                     ("qualifier_value", direction)]])]])]
     else []) in
  JObj [("nodes", qgNodes); ("edges", JObj [("t_edge", JObj qgEdge)])].

Definition diseaseToTrapiQgraph (disease : json) : json :=
  buildCreativeQgraph
    {| category := "ChemicalEntity"; id := None |}
    {| category := "Disease"; id := Some disease |}
    "treats" JNull.

Definition geneToTrapiQgraph (gene direction : json) : json :=
  buildCreativeQgraph
    {| category := "ChemicalEntity"; id := None |}
    {| category := "Gene"; id := Some gene |}
    "affects" direction.

Definition chemicalToTrapiQgraph (chemical direction : json) : json :=
  buildCreativeQgraph
    {| category := "ChemicalEntity"; id := Some chemical |}
    {| category := "Gene"; id := None |}
    "affects" direction.

Section WithCommon.

(** The tests [cmn.isObj] and [cmn.jsonHasKey] of [common.mjs], which is
    not part of the sources. *)
Variable isObj : json -> bool.
Variable jsonHasKey : json -> string -> bool.

Definition validKeys : list string := ["type"; "curie"; "direction"].

(** [cmn.jsonGet(query, key)], called after the tests of the keys: the
    key is there, and no fallback is used.  A read that throws is a
    [TypeError]. *)
Definition read (query : json) (key : string) (k : json -> completion json)
  : completion json :=
  match Cmn.jsonGet query key JNull with
  | Ret v => k v
  | Threw => Err TypeError
  end.

Definition queryToCreativeQuery (query : json) : completion json :=
  if negb (isObj query) then Err TypeError
  else if negb (forallb (jsonHasKey query) validKeys) then Err ReferenceError
  else
    read query "type" (fun queryType =>
      let wrap qg := Ok (JObj [("message", JObj [("query_graph", qg)])]) in
      match queryType with
      | JStr t =>
          if String.eqb t "drug" then
            read query "curie" (fun curie => wrap (diseaseToTrapiQgraph curie))
          else if String.eqb t "gene" then
            read query "curie" (fun curie =>
              read query "direction" (fun direction =>
                wrap (chemicalToTrapiQgraph curie direction)))
          else if String.eqb t "chemical" then
            read query "curie" (fun curie =>
              read query "direction" (fun direction =>
                wrap (geneToTrapiQgraph curie direction)))
          else Err RangeError
      | _ => Err RangeError
      end).

End WithCommon.

(** The graph of a request, and its one edge. *)
Definition queryGraph (request : json) : option json :=
  match request with
  | JObj [("message", JObj [("query_graph", qg)])] => Some qg
  | _ => None
  end.

Definition edgeOf (qg : json) : option (list (string * json)) :=
  match qg with
  | JObj [("nodes", _); ("edges", JObj [("t_edge", JObj e)])] => Some e
  | _ => None
  end.

Definition nodeOf (qg : json) (key : string) : option json :=
  match qg with
  | JObj [("nodes", JObj nodes); ("edges", _)] => assoc key nodes
  | _ => None
  end.

End Query.

(* ================================================================== *)
(** * Notions that the further properties are stated with *)
(* ================================================================== *)

Module CanonicalSpec.
Import Canonical.

(** The bags that hold a CURIE. *)
Definition holding (x : string) (bags : list (list string)) : list (list string) :=
  filter (mem x) bags.

(** The test of [mergeStep]: the bag has the CURIE of the step. *)
Definition has (curie : option string) (nodeSet : list string) : bool :=
  match curie with
  | Some c => mem c nodeSet
  | None => false
  end.

(** Every bag starts with a CURIE of [keys]. *)
Definition headed (keys : list string) (bags : list (list string)) : Prop :=
  forall b, In b bags -> exists h t, b = h :: t /\ In h keys.

(** Two CURIEs in one bag. *)
Definition together (x y : string) (bags : list (list string)) : Prop :=
  exists b, In b bags /\ In x b /\ In y b.

End CanonicalSpec.

Module NodeKeySpec.
Import Canonical.

(** The CURIEs that are keys of the nodes of some agent. *)
Definition nodeKeys (allNodes : list (list (string * knode))) : list string :=
  List.concat (map (@akeys knode) allNodes).

(** No alias of a node is the key of another node: the only node key in the
    bag of a node is its own. *)
Definition aliasesAreNoKeys (allNodes : list (list (string * knode))) : Prop :=
  forall nodes c n b x,
    In nodes allNodes -> In (c, n) nodes -> nodeBag c n = Ret b ->
    In x b -> In x (nodeKeys allNodes) -> x = c.

(** The only node key in a bag is its head. *)
Definition ownKey (keys : list string) (bags : list (list string)) : Prop :=
  forall b x, In b bags -> In x b -> In x keys -> hd "" b = x.

End NodeKeySpec.

Module SettledSpec.
Import Summarize EdgeSpec.
Section WithInterfaces.

Context {BL : Biolink} {EV : Evidence}.
Variable pathToKey : list atom -> string.

(** An object that is still under its key after the turn of the key is the
    edge after its turn. *)
Definition settled (origs done : list (string * sedge)) (t : tracked) : Prop :=
  forall K x, assoc K t = Some (true, x) -> In K (akeys done) ->
              exists e, In (K, e) origs /\ x = finished e.

End WithInterfaces.
End SettledSpec.

Module AgentSpec.

(** A list of agents of an entry of the summary: not empty, without
    duplicates, and of agents that answered. *)
Definition credited (agents aras : list string) : Prop :=
  aras <> [] /\ NoDup aras /\ forall a, In a aras -> In a agents.

(** The same before the duplicates are removed. *)
Definition reported (agents aras : list string) : Prop :=
  aras <> [] /\ forall a, In a aras -> In a agents.

End AgentSpec.

Module ReplaySpec.
Import Summarize.

Section Replay.

Variables O U : Type.
Variable empty : O.
Variable key : U -> string.
Variable transforms : U -> list (O -> outcome O).
Variable push : string -> O -> O.

(** The transforms of one update of an agent, applied to the object of its
    key, or to a new object. *)
Definition applyUpdate (agent : string) (u : U) (o : option O) : outcome O :=
  foldM (fun o transform => o' <- transform o ;; Ret (push agent o'))
    (transforms u)
    (match o with Some o => o | None => empty end).

(** Updates applied in order to one object. *)
Definition replay (updates : list (string * U)) (o : option O)
  : outcome (option O) :=
  foldM (fun o au => o' <- applyUpdate (fst au) (snd au) o ;; Ret (Some o'))
    updates o.

(** The updates of a key. *)
Definition forKey (k : string) (updates : list (string * U)) : list (string * U) :=
  filter (fun au => String.eqb (key (snd au)) k) updates.

End Replay.

Definition nodeKey (u : nodeUpdate) : string := render (nu_key u).

(** The updates of a node, applied in order. *)
Definition replayNodes : list (string * nodeUpdate) -> option snode
                         -> outcome (option snode) :=
  replay Merge.emptyNode (fun u => nodeRules (nu_knode u))
    (fun agent n => Merge.set_n_aras (n_aras n ++ [agent]) n).

(** A list field of an object that may not be there yet. *)
Definition field {O A : Type} (f : O -> list A) (o : option O) : list A :=
  match o with
  | Some n => f n
  | None => []
  end.

(** The node updates of the agents in order, each with its agent. *)
Definition nodeUpdatesOf (css : list condensedSummary) : list (string * nodeUpdate) :=
  flat_map (fun cs => map (pair (cs_agent cs)) (sf_nodes (cs_fragment cs))) css.

(** The names that the nodes of the agents give to a key. *)
Definition namesGiven (k : string) (css : list condensedSummary) : list string :=
  flat_map (fun au => truthyName (kn_name (nu_knode (snd au))))
    (forKey nodeKey k (nodeUpdatesOf css)).

Definition lastOf {A : Type} (l : list A) : option A :=
  match rev l with
  | [] => None
  | x :: _ => Some x
  end.

(** The last node that the agents have for a key. *)
Definition lastNode (k : string) (css : list condensedSummary) : option knode :=
  option_map (fun au => nu_knode (snd au))
    (lastOf (forKey nodeKey k (nodeUpdatesOf css))).

End ReplaySpec.

Module BoundSpec.

(** A path within the hop limit: an odd number of elements, at most
    [2 * maxHops + 1]. *)
Definition withinHops (maxHops : nat) {A : Type} (path : list A) : Prop :=
  Nat.odd (List.length path) = true /\ List.length path <= 2 * maxHops + 1.

End BoundSpec.

Module BindingSpec.
Section WithBiolink.

Context {BL : Biolink}.
Variable pathToKey : list atom -> string.
Variable canon : string -> atom.

(** The key is that of a node that a result of an answer binds. *)
Definition boundNodeKey (answers : list answer) (k : string) : Prop :=
  exists a r curie,
    In a answers /\ In r (results (message a)) /\
    In curie (Rgraph.flattenBindings (node_bindings r)) /\
    k = render (canon curie).

(** The key is that of an edge that a result of an answer binds, an edge
    of the knowledge graph of the answer with a biolink predicate. *)
Definition boundEdgeKey (answers : list answer) (k : string) : Prop :=
  exists a r redge e,
    In a answers /\ In r (results (message a)) /\
    In redge (Rgraph.flattenBindings (edge_bindings r)) /\
    assoc redge (kg_edges (knowledge_graph (message a))) = Some e /\
    isBiolinkPredicate (ke_predicate e) = true /\
    k = Fragment.kedgeToKey pathToKey canon e false.

End WithBiolink.
End BindingSpec.

Module AnnotationSpec.

(** The string has the character. *)
Fixpoint contains (c : ascii) (s : string) : bool :=
  match s with
  | EmptyString => false
  | String c' tl => Ascii.eqb c' c || contains c tl
  end.




End AnnotationSpec.

(* ================================================================== *)
(** * Example data *)
(* ================================================================== *)

Module Examples.

Definition stripPrefix (p s : string) : string :=
  if String.prefix p s
  then String.substring (String.length p) (String.length s - String.length p) s
  else s.

Fixpoint spaced (s : string) : string :=
  match s with
  | EmptyString => EmptyString
  | String c tl => String (if Ascii.eqb c "_"%char then " "%char else c) (spaced tl)
  end.

Definition inverseOf (a : atom) : atom :=
  match a with
  | AStr s =>
      if String.eqb s "treats" then AStr "treated by"
      else if String.eqb s "treated by" then AStr "treats"
      else if String.eqb s "affects" then AStr "affected by"
      else if String.eqb s "affected by" then AStr "affects"
      else a
  | _ => a
  end.

(** Modelled from the spec: an instance of [biolink-model.mjs], which is
    not part of the sources, after section 4.1: sanitizing strips the
    prefix and normalizes the spacing, inverting returns the registered
    inverse and leaves an unknown predicate unchanged, and the predicate
    test is membership in the allowed set. *)
#[export] Instance biolink : Biolink := {|
  sanitizeBiolinkElement := fun s => spaced (stripPrefix "biolink:" s);
  invertBiolinkPredicate := inverseOf;
  isBiolinkPredicate := fun p =>
    mem p ["biolink:treats"; "biolink:affects"; "biolink:related_to"]
|}.

(** Modelled from the spec: an instance of [evidence.mjs], which is not
    part of the sources: PubMed identifiers are the valid ones. *)
#[export] Instance evidence : Evidence := {|
  isValidId := fun id => String.prefix "PMID:" id;
  idToTypeAndUrl := fun id => ("PMID", ("https://pubmed.ncbi.nlm.nih.gov/" ++ id)%string)
|}.

(** The qualifiers of an edge: a direction and an aspect on the object, a
    form and a part on the subject. *)
Definition liverQualifiers : list qualifier :=
  [ {| qualifier_type_id := "biolink:object_aspect_qualifier";
       qualifier_value := "activity" |};
    {| qualifier_type_id := "biolink:object_direction_qualifier";
       qualifier_value := "increased" |};
    {| qualifier_type_id := "biolink:subject_part_qualifier";
       qualifier_value := "liver" |};
    {| qualifier_type_id := "biolink:subject_aspect_qualifier";
       qualifier_value := "secretion" |} ].

Definition partQualifier : list qualifier :=
  [ {| qualifier_type_id := "biolink:subject_part_qualifier";
       qualifier_value := "liver" |} ].

Definition directionQualifier : list qualifier :=
  [ {| qualifier_type_id := "biolink:subject_direction_qualifier";
       qualifier_value := "increased" |} ].

(** A stand-in for the content hash: the elements, separated. *)
Definition key (path : list atom) : string :=
  String.concat "|" (map render path).

Definition node (name : string) (attributes : list attribute) : knode :=
  {| kn_name := Some name;
     kn_categories := Some ["biolink:NamedThing"];
     kn_attributes := Some attributes |}.

Definition edge (s p o : string) (q : option (list qualifier))
           (attributes : list attribute) : kedge :=
  {| ke_subject := s; ke_object := o; ke_predicate := p;
     ke_qualifiers := q; ke_attributes := Some attributes |}.

Definition emptySummary : summary :=
  {| s_meta := {| meta_qid := ""; meta_aras := [] |};
     s_results := []; s_paths := []; s_nodes := []; s_edges := [];
     s_publications := [] |}.

Definition returned (o : outcome summary) : summary :=
  match o with
  | Ret s => s
  | Threw => emptySummary
  end.

(** The scores 0.5 and 0.25. *)
Definition half : number :=
  Eval vm_compute in numDiv (numOfNat 1) (numOfNat 2).

Definition quarter : number :=
  Eval vm_compute in numDiv (numOfNat 1) (numOfNat 4).

(** The second scenario of section 8: one agent, one result, one edge
    [treats] from the drug to the disease, score 0.5. *)
Definition directGraph : kgraph :=
  {| kg_nodes := [("CHEBI:1", node "aspirin" []); ("MONDO:1", node "" [])];
     kg_edges :=
       [("e1", edge "CHEBI:1" "biolink:treats" "MONDO:1" None
                 [{| attribute_type_id := "biolink:publications";
                     value := VStr "PMID:1,bad|PMID:2" |}])] |}.

Definition directResult : trapiResult :=
  {| node_bindings := [("sn", ["CHEBI:1"]); ("on", ["MONDO:1"])];
     edge_bindings := [("t_edge", ["e1"])];
     normalized_score := Some half |}.

Definition directAnswers : list answer :=
  [{| agent := "ara-a";
      message := {| knowledge_graph := directGraph; results := [directResult] |} |}].

Definition directSummary : summary :=
  Eval vm_compute in
    returned (Summary.creativeAnswersToSummary key 3 "Q1" directAnswers).


(** Two nodes of one knowledge graph that are aliases of each other, on one
    path from the drug to the disease, next to a path without aliases. *)
Definition aliasGraph : kgraph :=
  {| kg_nodes :=
       [("CHEBI:1", node "drug" []);
        ("GENE:1", node "g1" []);
        ("GENE:2", node "g2" []);
        ("UMLS:1", node "x1"
           [{| attribute_type_id := "biolink:same_as"; value := VArr ["UMLS:2"] |}]);
        ("UMLS:2", node "x2" []);
        ("MONDO:1", node "disease" [])];
     kg_edges :=
       [("e1", edge "CHEBI:1" "biolink:affects" "UMLS:1" None []);
        ("e2", edge "UMLS:1" "biolink:affects" "UMLS:2" None []);
        ("e3", edge "UMLS:2" "biolink:affects" "MONDO:1" None []);
        ("f1", edge "CHEBI:1" "biolink:affects" "GENE:1" None []);
        ("f2", edge "GENE:1" "biolink:affects" "GENE:2" None []);
        ("f3", edge "GENE:2" "biolink:affects" "MONDO:1" None [])] |}.

Definition aliasResult : trapiResult :=
  {| node_bindings :=
       [("sn", ["CHEBI:1"]); ("on", ["MONDO:1"]);
        ("n1", ["GENE:1"; "GENE:2"; "UMLS:1"; "UMLS:2"])];
     edge_bindings := [("t_edge", ["e1"; "e2"; "e3"; "f1"; "f2"; "f3"])];
     normalized_score := Some half |}.

Definition aliasAnswers : list answer :=
  [{| agent := "ara-a";
      message := {| knowledge_graph := aliasGraph; results := [aliasResult] |} |}].

Definition aliasSummary : summary :=
  Eval vm_compute in
    returned (Summary.creativeAnswersToSummary key 3 "Q1" aliasAnswers).

(** The lengths of the subgraphs that the paths of a result point to. *)
Definition pathLengths (s : summary) (r : result) : list nat :=
  map (fun pid => match assoc pid (s_paths s) with
                  | Some p => List.length (subgraph p)
                  | None => 0
                  end) (r_paths r).

Definition directMapping : list (string * string) :=
  [("CHEBI:1", "CHEBI:1"); ("MONDO:1", "MONDO:1")].

Definition directRgraph : rgraph :=
  {| rg_nodes := ["CHEBI:1"; "MONDO:1"]; rg_edges := ["e1"] |}.

Definition directEntry : result :=
  Eval vm_compute in
    hd {| r_subject := AFalse; r_drug_name := AFalse; r_paths := [];
          r_object := AFalse; r_score := None |}
       (s_results directSummary).

(** The fifth scenario of section 8: an edge [affects] with an aspect and a
    direction qualifier on its object. *)
Definition qualifiedGraph : kgraph :=
  {| kg_nodes := [("CHEBI:1", node "aspirin" []); ("NCBIGene:1", node "cox" [])];
     kg_edges :=
       [("e1", edge "CHEBI:1" "biolink:affects" "NCBIGene:1"
                 (Some [ {| qualifier_type_id := "biolink:object_aspect_qualifier";
                            qualifier_value := "activity" |};
                         {| qualifier_type_id := "biolink:object_direction_qualifier";
                            qualifier_value := "increased" |} ])
                 [])] |}.

Definition qualifiedResult : trapiResult :=
  {| node_bindings := [("sn", ["CHEBI:1"]); ("on", ["NCBIGene:1"])];
     edge_bindings := [("t_edge", ["e1"])];
     normalized_score := None |}.

Definition qualifiedAnswers : list answer :=
  [{| agent := "ara-a";
      message := {| knowledge_graph := qualifiedGraph;
                    results := [qualifiedResult] |} |}].

Definition qualifiedSummary : summary :=
  Eval vm_compute in
    returned (Summary.creativeAnswersToSummary key 3 "Q1" qualifiedAnswers).

Definition directEdge : sedge :=
  Eval vm_compute in
    match Stages.fragmentEdges key 3 directAnswers with
    | (_, e) :: _ => e
    | [] => Merge.emptyEdge
    end.

(** A result without an [sn] binding that also binds an edge which the
    knowledge graph does not have. *)
Definition danglingResult : trapiResult :=
  {| node_bindings := [("on", ["MONDO:1"])];
     edge_bindings := [("t_edge", ["e404"])];
     normalized_score := None |}.

Definition danglingAnswer : answer :=
  {| agent := "ara-a";
     message := {| knowledge_graph := directGraph;
                   results := [directResult; danglingResult] |} |}.

(** A result that binds a CURIE absent from the knowledge graph. *)
Definition absentResult : trapiResult :=
  {| node_bindings := [("sn", ["CHEBI:404"]); ("on", ["MONDO:1"])];
     edge_bindings := [("t_edge", ["e1"])];
     normalized_score := Some quarter |}.

Definition absentAnswer : answer :=
  {| agent := "ara-a";
     message := {| knowledge_graph := directGraph;
                   results := [directResult; absentResult] |} |}.

(** Two agents whose drug nodes name each other as aliases. *)
Definition aliasOf (drug other : string) : answer :=
  {| agent := ("ara-" ++ drug)%string;
     message :=
       {| knowledge_graph :=
            {| kg_nodes :=
                 [(drug, node drug
                     [{| attribute_type_id := "biolink:same_as";
                         value := VArr [other] |}]);
                  ("MONDO:1", node "disease" [])];
               kg_edges :=
                 [("e1", edge drug "biolink:treats" "MONDO:1" None [])] |};
          results :=
            [{| node_bindings := [("sn", [drug]); ("on", ["MONDO:1"])];
                edge_bindings := [("t_edge", ["e1"])];
                normalized_score := None |}] |} |}.

Definition firstOrder : list answer :=
  [aliasOf "UMLS:1" "UMLS:2"; aliasOf "UMLS:2" "UMLS:1"].




(** Two agents with the same message. *)
Definition twoAgents : list answer :=
  [{| agent := "ara-a";
      message := {| knowledge_graph := directGraph; results := [directResult] |} |};
   {| agent := "ara-b";
      message := {| knowledge_graph := directGraph; results := [directResult] |} |}].

Definition twoAgentsSummary : summary :=
  Eval vm_compute in
    returned (Summary.creativeAnswersToSummary key 3 "Q1" twoAgents).

Definition directPath : list atom :=
  [AStr "CHEBI:1"; AStr "CHEBI:1|biolink:treats|MONDO:1"; AStr "MONDO:1"].

(** An agent with several results for one drug, which differ in their
    scores. *)
Definition scored (x : number) : trapiResult :=
  {| node_bindings := [("sn", ["CHEBI:1"]); ("on", ["MONDO:1"])];
     edge_bindings := [("t_edge", ["e1"])];
     normalized_score := Some x |}.

Definition scoring (rs : list trapiResult) : list answer :=
  [{| agent := "ara-a";
      message := {| knowledge_graph := directGraph; results := rs |} |}].

Definition noEntry : result :=
  {| r_subject := AFalse; r_drug_name := AFalse; r_paths := [];
     r_object := AFalse; r_score := None |}.

(** The scores 0.5 and 0.25, with the mean 0.375. *)
Definition twoScores : list answer := scoring [scored half; scored quarter].

Definition twoScoresSummary : summary :=
  Eval vm_compute in
    returned (Summary.creativeAnswersToSummary key 3 "Q1" twoScores).

Definition twoScoresEntry : result :=
  Eval vm_compute in hd noEntry (s_results twoScoresSummary).

Definition threeEighths : number :=
  Eval vm_compute in numDiv (numOfNat 3) (numOfNat 8).

(** The scores 1e16, 1 and 1. *)
Definition largeScores : list answer :=
  scoring [scored (numOfZ 10000000000000000); scored (numOfZ 1); scored (numOfZ 1)].

Definition largeScoresSummary : summary :=
  Eval vm_compute in
    returned (Summary.creativeAnswersToSummary key 3 "Q1" largeScores).

Definition largeScoresEntry : result :=
  Eval vm_compute in hd noEntry (s_results largeScoresSummary).

(** A drug with the key "undefined", and a second result that binds a CURIE
    absent from the knowledge graph. *)
Definition undefinedDrug : list answer :=
  [{| agent := "ara-a";
      message :=
        {| knowledge_graph :=
             {| kg_nodes := [("undefined", node "drug" []);
                             ("MONDO:1", node "disease" [])];
                kg_edges :=
                  [("e1", edge "undefined" "biolink:treats" "MONDO:1" None [])] |};
           results :=
             [{| node_bindings := [("sn", ["undefined"]); ("on", ["MONDO:1"])];
                 edge_bindings := [("t_edge", ["e1"])];
                 normalized_score := Some half |};
              absentResult] |} |}].

Definition undefinedDrugSummary : summary :=
  Eval vm_compute in
    returned (Summary.creativeAnswersToSummary key 3 "Q1" undefinedDrug).

Definition undefinedDrugEntry : result :=
  Eval vm_compute in hd noEntry (s_results undefinedDrugSummary).









End Examples.

(** Further example data. *)
Module Scenarios.
Import Examples.

Definition mappingOf (allNodes : list (list (string * knode)))
  : list (string * string) :=
  match Canonical.makeCanonicalNodeMapping allNodes with
  | Ret m => m
  | Threw => []
  end.

Definition firstMapping : list (string * string) :=
  Eval vm_compute in mappingOf (Summary.resultNodes firstOrder).

(** Two nodes that list the same alias, which is the key of no node. *)
Definition sharedAliasNodes : list (list (string * knode)) :=
  [[("CHEBI:1", node "a"
       [{| attribute_type_id := "biolink:xref"; value := VArr ["X:1"] |}]);
    ("CHEBI:2", node "b"
       [{| attribute_type_id := "biolink:xref"; value := VArr ["X:1"] |}])]].

Definition sharedAliasMapping : list (string * string) :=
  Eval vm_compute in mappingOf sharedAliasNodes.

(** Two agents with the same result; only the node of the first agent has
    an approval status. *)
Definition approvedGraph : kgraph :=
  {| kg_nodes :=
       [("CHEBI:1", node "Aspirin"
           [{| attribute_type_id := "biolink:highest_FDA_approval_status";
               value := VStr "regular approval" |}]);
        ("MONDO:1", node "" [])];
     kg_edges := kg_edges directGraph |}.

Definition approvalAnswers : list answer :=
  [{| agent := "ara-a";
      message := {| knowledge_graph := approvedGraph; results := [directResult] |} |};
   {| agent := "ara-b";
      message := {| knowledge_graph := directGraph; results := [directResult] |} |}].

Definition approvalSummary : summary :=
  Eval vm_compute in
    returned (Summary.creativeAnswersToSummary key 3 "Q1" approvalAnswers).

Definition approvalCondensed : list condensedSummary :=
  Eval vm_compute in
    match OrderSpec.condensed key 3 approvalAnswers with
    | Ret css => css
    | Threw => []
    end.

Definition drugNode : snode :=
  Eval vm_compute in
    match assoc "CHEBI:1" (s_nodes approvalSummary) with
    | Some n => n
    | None => Merge.emptyNode
    end.

Definition twoAgentsCondensed : list condensedSummary :=
  Eval vm_compute in
    match OrderSpec.condensed key 3 twoAgents with
    | Ret css => css
    | Threw => []
    end.

Definition directOutEdges : list (string * list Rgraph.outEdge) :=
  Eval vm_compute in
    match Rgraph.makeRnodeToOutEdges directRgraph directGraph with
    | Ret m => m
    | Threw => []
    end.

Definition summaryEdge (s : summary) (k : string) : sedge :=
  match assoc k (s_edges s) with
  | Some e => e
  | None => Merge.emptyEdge
  end.

Definition summaryPath (s : summary) (k : string) : pathEntry :=
  match assoc k (s_paths s) with
  | Some p => p
  | None => {| subgraph := []; p_aras := [] |}
  end.

Definition summaryPublication (s : summary) (k : string) : publication :=
  match assoc k (s_publications s) with
  | Some p => p
  | None => {| pub_type := ""; pub_url := ""; pub_snippet := None;
               pub_pubdate := None |}
  end.

(** Two edges from the drug to the disease that list the same
    publication, each with a sentence of its own; the content hash of the
    second edge is a numeral. *)
Definition cited (id text : string) : list attribute :=
  [{| attribute_type_id := "biolink:publications"; value := VStr id |};
   {| attribute_type_id := "bts:sentence";
      value := VObj [(id, [("sentence", text)])] |}].

Definition citedGraph : kgraph :=
  {| kg_nodes := [("CHEBI:1", node "aspirin" []); ("MONDO:1", node "" [])];
     kg_edges :=
       [("e1", edge "CHEBI:1" "biolink:treats" "MONDO:1" None
                 (cited "PMID:1" "first"));
        ("e2", edge "CHEBI:1" "biolink:affects" "MONDO:1" None
                 (cited "PMID:1" "second"))] |}.

Definition citedAnswers : list answer :=
  [{| agent := "ara-a";
      message :=
        {| knowledge_graph := citedGraph;
           results :=
             [{| node_bindings := [("sn", ["CHEBI:1"]); ("on", ["MONDO:1"])];
                 edge_bindings := [("t_edge", ["e1"; "e2"])];
                 normalized_score := None |}] |} |}].

Definition numberedKey (path : list atom) : string :=
  if String.eqb (key path) "CHEBI:1|biolink:affects|MONDO:1"
  then "42071536" else key path.

Definition citedSummary : summary :=
  Eval vm_compute in
    returned (Summary.creativeAnswersToSummary numberedKey 3 "Q1" citedAnswers).

(** Stand-ins for the tests of [common.mjs] on a query. *)
Definition isObject (v : json) : bool :=
  match v with
  | JObj _ => true
  | _ => false
  end.

Definition hasKey (v : json) (k : string) : bool :=
  match v with
  | JObj l => match assoc k l with Some _ => true | None => false end
  | _ => false
  end.

Definition geneQuery : json :=
  JObj [("type", JStr "gene"); ("curie", JStr "CHEBI:1");
        ("direction", JStr "increased")].

Definition geneRequest : json :=
  Eval vm_compute in
    match Query.queryToCreativeQuery isObject hasKey geneQuery with
    | Query.Ok r => r
    | Query.Err _ => JNull
    end.

Definition diseaseAnnotation : json :=
  JObj [("disease_ontology",
         JObj [("def", JStr "A disease of the joints. [url:http://example.org]")]);
        ("chembl", JObj [("max_phase", JNum 4)])].



End Scenarios.

(* ================================================================== *)
(** * Properties *)
(* ================================================================== *)

Module AnnotationFacts.
Import Annotation.

Lemma parseAnnotation_first (a : json) (rest rest' : list json) (d c g : handler) :
  parseAnnotation (a :: rest) d c g = parseAnnotation (a :: rest') d c g.
Proof. reflexivity. Qed.

Lemma parseAnnotation_unclassified (a : json) (rest : list json) (d c g : handler) :
  unclassified a -> parseAnnotation (a :: rest) d c g = Ret JNull.
Proof.
  unfold parseAnnotation, isDisease, isChemical, isGene; simpl.
  destruct a; simpl; try reflexivity; try contradiction.
  intros (Hd & Hc1 & Hc2 & Hc3 & Hg).
  now rewrite Hd, Hc1, Hc2, Hc3, Hg.
Qed.

(** C10.  Each of the eight exposed getters looks at the first element of
    its argument only: the result does not depend on the elements after
    it; and when that first element has none of the keys
    [disease_ontology], [chebi], [chembl], [ndc] and [symbol], the getter
    returns [null]. *)
Theorem getters_classify_first_element
        (getHighLevelRole : json -> option json) (getName : json -> json)
        (getter : list json -> outcome json) (a : json) (rest rest' : list json) :
  In getter (getters getHighLevelRole getName) ->
  getter (a :: rest) = getter (a :: rest') /\
  (unclassified a -> getter (a :: rest) = Ret JNull).
Proof.
  unfold getters; simpl.
  intros H.
  repeat (destruct H as [<- | H];
          [ split; [ apply parseAnnotation_first
                   | apply parseAnnotation_unclassified ] | ]).
  contradiction.
Qed.

Lemma getters_classify_first_element_witness :
  getDescription [JObj [("name", JStr "x")]; JNull] =
  getDescription [JObj [("name", JStr "x")]] /\
  (unclassified (JObj [("name", JStr "x")]) ->
   getDescription [JObj [("name", JStr "x")]; JNull] = Ret JNull).
Proof.
  apply (@getters_classify_first_element (fun _ => None) (fun v => v)
           getDescription).
  simpl; auto.
Defined.

End AnnotationFacts.

Lemma assoc_aset_eq {A : Type} (k : string) (v : A) (m : list (string * A)) :
  assoc k (aset k v m) = Some v.
Proof.
  induction m as [|(k', v') m IH]; simpl.
  - now rewrite String.eqb_refl.
  - destruct (String.eqb k k') eqn:E; simpl; rewrite E; [reflexivity | exact IH].
Qed.

Lemma assoc_aset_neq {A : Type} (n k : string) (v : A) (m : list (string * A)) :
  n <> k -> assoc n (aset k v m) = assoc n m.
Proof.
  intros Hn. induction m as [|(k', v') m IH]; simpl.
  - apply String.eqb_neq in Hn. now rewrite Hn.
  - destruct (String.eqb k k') eqn:E; simpl.
    + apply String.eqb_eq in E. subst k'.
      apply String.eqb_neq in Hn. now rewrite Hn.
    + now rewrite IH.
Qed.

Lemma assoc_aset {A : Type} (n k : string) (v : A) (m : list (string * A)) :
  assoc n (aset k v m) = if String.eqb n k then Some v else assoc n m.
Proof.
  destruct (String.eqb n k) eqn:E.
  - apply String.eqb_eq in E. subst. apply assoc_aset_eq.
  - apply String.eqb_neq in E. now apply assoc_aset_neq.
Qed.

Module QualifiedFacts.
Import Qualified.
Section WithBiolink.

Context {BL : Biolink}.

Lemma append_assoc (a b c : string) : ((a ++ b) ++ c = a ++ (b ++ c))%string.
Proof. induction a as [|x a IH]; simpl; [reflexivity | now rewrite IH]. Qed.

Lemma append_nil_r (a : string) : (a ++ "")%string = a.
Proof. induction a as [|x a IH]; simpl; [reflexivity | now rewrite IH]. Qed.

Lemma finalize_joined (front : string) (p : atom) (back : string) :
  nonempty (render p) = true ->
  finalizeQualifiedPredicate front p back =
  join_nonempty [front; render p;
                 (if nonempty back then back ++ " of" else "")%string].
Proof.
  intros Hp. unfold finalizeQualifiedPredicate.
  destruct (render p) as [|c r]; [discriminate|].
  destruct front as [|f front]; destruct back as [|b back]; simpl;
    rewrite ?append_assoc, ?append_nil_r; reflexivity.
Qed.

(** The object that [kedgeToQualifiers] builds answers with the value of
    the last qualifier of a key. *)
Lemma qualifiers_lookup (qs : list qualifier) (key : string) :
  forall acc,
    assoc key
      (fold_left
         (fun qualifiers q =>
            aset (sanitizeBiolinkElement (qualifier_type_id q))
                 (sanitizeBiolinkElement (qualifier_value q))
                 qualifiers)
         qs acc) =
    match normalizedValue qs key with
    | Some v => Some v
    | None => assoc key acc
    end.
Proof.
  induction qs as [|q tl IH]; simpl; intros acc; [reflexivity|].
  rewrite IH. destruct (normalizedValue tl key); [reflexivity|].
  rewrite assoc_aset.
  now destruct (String.eqb key (sanitizeBiolinkElement (qualifier_type_id q))).
Qed.

Lemma kedgeToQualifiers_lookup (qs : list qualifier)
      (qualifiers : list (string * string)) (key : string) :
  kedgeToQualifiers (Some qs) = Some qualifiers ->
  assoc key qualifiers = normalizedValue qs key.
Proof.
  unfold kedgeToQualifiers. intros H. inversion H; subst; clear H.
  rewrite qualifiers_lookup. now destruct (normalizedValue qs key).
Qed.

Lemma concat_joined (a x : string) (rest : list string) :
  String.concat " " ((a ++ " " ++ x)%string :: rest) =
  (a ++ " " ++ String.concat " " (x :: rest))%string.
Proof.
  destruct rest as [|y r]; simpl; [reflexivity|].
  now rewrite !append_assoc.
Qed.

(** The loop of [qualifiersToString], once the string is not empty. *)
Lemma loop_started (l : list (string * string)) :
  forall s,
    nonempty s = true ->
    fold_left
      (fun qualifierStr pq =>
         let '(prefix, qv) := pq in
         if nonempty qv then
           if nonempty qualifierStr
           then (qualifierStr ++ " " ++ prefix ++ qv)%string
           else qv
         else qualifierStr)
      l s =
    String.concat " "
      (s :: map prefixed
              (flat_map (fun pv => if nonempty (snd pv) then [pv] else []) l)).
Proof.
  induction l as [|(prefix, qv) tl IH]; intros s Hs; [reflexivity|].
  cbn [fold_left flat_map snd]. destruct (nonempty qv) eqn:Hq.
  - rewrite Hs, IH.
    + cbn [app map]. unfold prefixed at 2. cbn [fst snd].
      apply concat_joined.
    + destruct s; [discriminate | reflexivity].
  - apply IH. exact Hs.
Qed.

(** The loop of [qualifiersToString] from the empty string. *)
Lemma loop_from_empty (l : list (string * string)) :
  fold_left
    (fun qualifierStr pq =>
       let '(prefix, qv) := pq in
       if nonempty qv then
         if nonempty qualifierStr
         then (qualifierStr ++ " " ++ prefix ++ qv)%string
         else qv
       else qualifierStr)
    l "" =
  match flat_map (fun pv => if nonempty (snd pv) then [pv] else []) l with
  | [] => ""
  | (_, v) :: tl => String.concat " " (v :: map prefixed tl)
  end.
Proof.
  induction l as [|(prefix, qv) tl IH]; [reflexivity|].
  cbn [fold_left flat_map snd]. destruct (nonempty qv) eqn:Hq.
  - cbn [nonempty negb String.eqb app]. now apply loop_started.
  - exact IH.
Qed.

Lemma value_present (qs : list qualifier) (qualifiers : list (string * string))
      (type key prefix : string) :
  kedgeToQualifiers (Some qs) = Some qualifiers ->
  (if nonempty (qualifierValue type qualifiers key)
   then [(prefix, qualifierValue type qualifiers key)] else []) =
  match normalizedValue qs (type ++ " " ++ key ++ " qualifier")%string with
  | Some v => if nonempty v then [(prefix, v)] else []
  | None => []
  end.
Proof.
  intros H. unfold qualifierValue. rewrite (kedgeToQualifiers_lookup _ H).
  now destruct (normalizedValue qs _).
Qed.

(** The string of [qualifiersToString] is the qualifier string of the
    amended claim. *)
Lemma qualifiersToString_spec (qs : list qualifier)
      (qualifiers : list (string * string)) (type : string) :
  kedgeToQualifiers (Some qs) = Some qualifiers ->
  qualifiersToString type qualifiers = spec_qualifier_string type qs.
Proof.
  intros H. unfold qualifiersToString, spec_qualifier_string. rewrite loop_from_empty.
  assert (E : flat_map (fun pv : string * string =>
                          if nonempty (snd pv) then [pv] else [])
                (combine prefixes
                   (map (qualifierValue type qualifiers) qualifierKeys)) =
              prefixedValues type qs).
  { unfold prefixedValues, prefixedKeys, prefixes, qualifierKeys.
    cbn [combine map flat_map fst snd].
    now rewrite !(value_present _ _ _ H). }
  now rewrite E.
Qed.

(** C6, as amended.  The qualified-predicate builder returns the raw
    predicate, inverted by [invertBiolinkPredicate] when inversion is
    requested, if the edge has no qualifiers; otherwise it returns the string
    made of the subject qualifier string, the predicate (the [qualified
    predicate] qualifier when present, the base predicate otherwise) and the
    object qualifier string followed by " of", the suffix being attached only
    when the object qualifier string is not empty and single spaces
    separating only the pieces that are not empty; the inverse form swaps the
    two qualifier strings and inverts the predicate.  A qualifier string is
    made of the values of the last qualifiers of the keys [direction],
    [aspect], [form or variant], [part] and [derivative], in that order,
    joined by single spaces, each value but the first one after its prefix;
    and the predicate piece of an edge with qualifiers is a string that is
    not empty. *)
Theorem edgeToQualifiedPredicate_spec
        (predicate : atom) (kedgeQualifiers : option (list qualifier))
        (invert : bool) :
  (forall qs, kedgeQualifiers = Some qs ->
              nonempty (render (spec_piece predicate qs invert)) = true) ->
  edgeToQualifiedPredicate predicate kedgeQualifiers invert =
  spec_qualified predicate kedgeQualifiers invert.
Proof.
  unfold edgeToQualifiedPredicate, spec_qualified, composed, spec_piece.
  destruct kedgeQualifiers as [qs|]; [|reflexivity].
  intros Hp. specialize (Hp qs eq_refl). revert Hp.
  destruct (kedgeToQualifiers (Some qs)) as [qualifiers|] eqn:Eq;
    [|discriminate].
  unfold subjectQualifiersToString, objectQualifiersToString, spec_predicate.
  rewrite !(qualifiersToString_spec _ Eq), (kedgeToQualifiers_lookup _ Eq).
  destruct invert; intros Hp; f_equal; now apply finalize_joined.
Qed.

End WithBiolink.

Lemma edgeToQualifiedPredicate_spec_witness :
  nonempty (render (spec_piece (BL := Examples.biolink) (AStr "affects")
                      Examples.liverQualifiers true)) = true /\
  spec_qualified (BL := Examples.biolink) (AStr "affects")
    (Some Examples.liverQualifiers) true =
    AStr "increased activity affected by secretion of the liver of" /\
  edgeToQualifiedPredicate (BL := Examples.biolink) (AStr "affects")
    (Some Examples.liverQualifiers) true =
    AStr "increased activity affected by secretion of the liver of".
Proof.
  split; [reflexivity | split; [reflexivity|]].
  rewrite (@edgeToQualifiedPredicate_spec Examples.biolink (AStr "affects")
             (Some Examples.liverQualifiers) true).
  - reflexivity.
  - intros qs E. inversion E; subst. reflexivity.
Defined.

(** C6, as stated, fails twice.  The first value of a qualifier string
    stands without its prefix: a subject [part] qualifier alone gives "liver
    affects", not "of the liver affects".  And the spaces are written also
    around a predicate that is the empty string. *)
Lemma first_qualifier_has_no_prefix :
  edgeToQualifiedPredicate (BL := Examples.biolink) (AStr "affects")
    (Some Examples.partQualifier) false = AStr "liver affects" /\
  worded_qualified (BL := Examples.biolink) (AStr "affects")
    (Some Examples.partQualifier) false = AStr "of the liver affects" /\
  edgeToQualifiedPredicate (BL := Examples.biolink) (AStr "")
    (Some Examples.directionQualifier) false = AStr "increased " /\
  worded_qualified (BL := Examples.biolink) (AStr "")
    (Some Examples.directionQualifier) false = AStr "increased".
Proof. repeat split. Qed.

End QualifiedFacts.

(** ** Shared lemmas *)

Lemma bind_ret {A B : Type} (m : outcome A) (k : A -> outcome B) (b : B) :
  bind m k = Ret b -> exists a, m = Ret a /\ k a = Ret b.
Proof. destruct m as [|a]; simpl; [discriminate | eauto]. Qed.

Ltac inv_bind H :=
  let a := fresh "a" in
  let Ha := fresh "Ha" in
  apply bind_ret in H; destruct H as (a & Ha & H).

Lemma dedup_nil (l : list string) : dedup l = [] -> l = [].
Proof. destruct l; simpl; [reflexivity | discriminate]. Qed.

Lemma dedupBy_nil {A : Type} (eqb : A -> A -> bool) (l : list A) :
  Merge.dedupBy eqb l = [] -> l = [].
Proof. destruct l; simpl; [reflexivity | discriminate]. Qed.

Lemma pushIfEmpty_nonempty {A : Type} (l : list A) (v : A) :
  Summarize.pushIfEmpty l v <> [].
Proof. destruct l; simpl; discriminate. Qed.

Lemma in_onValues {A B : Type} (f : string -> A -> B) (m : list (string * A))
      (k : string) (b : B) :
  In (k, b) (Summary.onValues f m) -> exists a, In (k, a) m /\ b = f k a.
Proof.
  unfold Summary.onValues. rewrite in_map_iff.
  intros ((k', a) & Heq & Hin). simpl in Heq. inversion Heq; subst. eauto.
Qed.

Module SummaryFacts.
Import Merge Summarize Results Summary.
Section WithInterfaces.

Context {BL : Biolink} {EV : Evidence}.
Variable pathToKey : list atom -> string.
Variable maxHops : nat.

(** The stages of the summarizer, when it returns. *)
Lemma creativeAnswersToSummary_stages (qid : string) (answers : list answer)
      (s : summary) :
  creativeAnswersToSummary pathToKey maxHops qid answers = Ret s ->
  exists mapping css m,
    Canonical.makeCanonicalNodeMapping (resultNodes answers) = Ret mapping /\
    Fragment.creativeAnswersToCondensedSummaries
      pathToKey (Canonical.canonical mapping) maxHops answers = Ret css /\
    mergeAll pathToKey (Canonical.canonical mapping) css = Ret m /\
    finish pathToKey qid css m = Ret s.
Proof.
  unfold creativeAnswersToSummary, condensedSummariesToSummary. intros H.
  inv_bind H. inv_bind H. inv_bind H. eauto 8.
Qed.

Lemma finish_nodes (qid : string) (css : list condensedSummary) (m : merged)
      (s : summary) :
  finish pathToKey qid css m = Ret s ->
  s_nodes s = onValues cleanNode (m_nodes m).
Proof.
  unfold finish. intros H. inv_bind H. inversion H; subst. reflexivity.
Qed.


End WithInterfaces.
End SummaryFacts.

Module SummaryWitnesses.
Import Merge Summarize Results Summary Examples.


End SummaryWitnesses.

Module PathOrderFacts.
Import Merge Summarize Results Summary Examples.

(** C8.  The paths of a result are sorted on the subgraphs as the fragments
    gave them, and the removal of duplicates from the path entries, which
    comes after the sort, also removes the repeated elements of a subgraph.
    For a path through two nodes with one canonical key the subgraph gets
    shorter: in the summary of [aliasAnswers] the only result lists a path
    with a subgraph of length 7 before a path with a subgraph of length 6. *)
Theorem paths_unsorted_after_deduplication :
  creativeAnswersToSummary key 3 "Q1" aliasAnswers = Ret aliasSummary /\
  map (pathLengths aliasSummary) (s_results aliasSummary) = [[7; 6]].
Proof. split; vm_compute; reflexivity. Qed.

End PathOrderFacts.

Module FoldFacts.
Import Rgraph PathSpec.

Lemma pop_snoc {A : Type} (l : list A) (x : A) : pop (l ++ [x]) = Some (l, x).
Proof.
  unfold pop. rewrite rev_app_distr. simpl. now rewrite rev_involutive.
Qed.

Lemma rgraphFold_done {A B : Type} (proc : A -> list A * list B) (n : nat)
      (res : list B) :
  rgraphFold (S n) proc [] res = Some res.
Proof. reflexivity. Qed.

Section Loop.

Variable extend : list string -> list (list string) * list (list string).
Variable limit width : nat.

Hypothesis extend_leaf :
  forall p, limit < List.length p -> extend p = ([], []).
Hypothesis extend_grows :
  forall p c, In c (fst (extend p)) -> List.length c = List.length p + 2.
Hypothesis extend_width :
  forall p, List.length (fst (extend p)) <= width.

Lemma fold_children (d : nat)
      (IH : forall path, limit < List.length path + 2 * d ->
            forall rest acc, exists m,
              m <= Fragment.iterations width d /\
              forall n, rgraphFold (m + n) extend (rest ++ [path]) acc =
                        rgraphFold n extend rest (acc ++ explore extend d path))
      (cs : list (list string)) :
  (forall c, In c cs -> limit < List.length c + 2 * d) ->
  forall rest acc, exists m,
    m <= List.length cs * Fragment.iterations width d /\
    forall n, rgraphFold (m + n) extend (rest ++ cs) acc =
              rgraphFold n extend rest
                (acc ++ flat_map (explore extend d) (rev cs)).
Proof.
  induction cs as [|c cs' IHcs] using rev_ind; intros Hcs rest acc.
  - exists 0. split; [simpl; lia|]. intros n. simpl. now rewrite !app_nil_r.
  - assert (Hc : limit < List.length c + 2 * d)
      by (apply Hcs, in_or_app; right; left; reflexivity).
    assert (Hcs' : forall x, In x cs' -> limit < List.length x + 2 * d)
      by (intros x Hx; apply Hcs, in_or_app; left; exact Hx).
    destruct (IH c Hc (rest ++ cs') acc) as (m1 & Hm1 & E1).
    destruct (IHcs Hcs' rest (acc ++ explore extend d c)) as (m2 & Hm2 & E2).
    exists (m1 + m2). split.
    + rewrite length_app. simpl. lia.
    + intros n. rewrite <- Nat.add_assoc, app_assoc, E1, E2.
      rewrite rev_app_distr. simpl. now rewrite <- app_assoc.
Qed.

Lemma fold_explore (d : nat) :
  forall path, limit < List.length path + 2 * d ->
  forall rest acc, exists m,
    m <= Fragment.iterations width d /\
    forall n, rgraphFold (m + n) extend (rest ++ [path]) acc =
              rgraphFold n extend rest (acc ++ explore extend d path).
Proof.
  induction d as [|d IHd]; intros path Hd rest acc.
  - exists 1. split; [simpl; lia|]. intros n. simpl.
    rewrite pop_snoc, extend_leaf by lia. simpl. now rewrite !app_nil_r.
  - destruct (@fold_children d IHd (fst (extend path))) with
      (rest := rest) (acc := acc ++ snd (extend path)) as (m & Hm & E).
    + intros c Hc. rewrite (extend_grows _ _ Hc). lia.
    + exists (S m). split.
      * simpl. pose proof (extend_width path).
        assert (List.length (fst (extend path)) * Fragment.iterations width d
                <= width * Fragment.iterations width d)
          by (apply Nat.mul_le_mono_r; assumption).
        lia.
      * intros n. simpl. rewrite pop_snoc, E. now rewrite <- app_assoc.
Qed.

(** The loop ends within the fuel, with the paths of the search tree. *)
Lemma fold_total (d : nat) (path : list string) :
  limit < List.length path + 2 * d ->
  rgraphFold (S (Fragment.iterations width d)) extend [path] [] =
  Some (explore extend d path).
Proof.
  intros Hd.
  destruct (fold_explore d path Hd [] []) as (m & Hm & E).
  replace (S (Fragment.iterations width d))
    with (m + S (Fragment.iterations width d - m)) by lia.
  simpl in E. rewrite E. reflexivity.
Qed.

End Loop.
End FoldFacts.

(** ** Objects used as maps *)

(** ** The order of the properties *)

Lemma in_insertByIndex {A : Type} (i : N) (kv : string * A)
      (l : list (N * (string * A))) (x : N * (string * A)) :
  In x (insertByIndex i kv l) <-> x = (i, kv) \/ In x l.
Proof.
  induction l as [|(j, kv') tl IH]; simpl.
  - split; intros [H | []]; auto.
  - destruct (N.leb i j); simpl; [split; intros [H | H]; auto|].
    rewrite IH. split; intros H; tauto.
Qed.

Lemma in_indexedProperties {A : Type} (m : list (string * A)) (kv : string * A) :
  In kv (map snd (indexedProperties m)) <->
  In kv m /\ arrayIndex (fst kv) <> None.
Proof.
  induction m as [|x tl IH]; simpl; [tauto|].
  destruct (arrayIndex (fst x)) as [i|] eqn:E.
  - rewrite in_map_iff. split.
    + intros ((j, y) & Ey & Hin). simpl in Ey. subst y.
      apply in_insertByIndex in Hin. destruct Hin as [Hin | Hin].
      * inversion Hin; subst. split; [now left | congruence].
      * assert (H : In kv (map snd (indexedProperties tl)))
          by (apply in_map_iff; exists (j, kv); auto).
        apply IH in H. tauto.
    + intros ([-> | Hin] & Hi).
      * exists (i, kv). split; [reflexivity|]. apply in_insertByIndex. now left.
      * assert (H : In kv (map snd (indexedProperties tl))) by (apply IH; auto).
        apply in_map_iff in H. destruct H as ((j, y) & Ey & H). simpl in Ey. subst y.
        exists (j, kv). split; [reflexivity|]. apply in_insertByIndex. now right.
  - rewrite IH. split; [tauto|]. intros ([-> | Hin] & Hi); [congruence | tauto].
Qed.

(** The properties listed are the properties of the object. *)
Lemma in_enumerate {A : Type} (m : list (string * A)) (kv : string * A) :
  In kv (enumerate m) <-> In kv m.
Proof.
  unfold enumerate, namedProperties.
  rewrite in_app_iff, in_indexedProperties, filter_In.
  destruct (arrayIndex (fst kv)) as [i|]; split.
  - intros [(H & _) | (_ & H)]; [exact H | discriminate].
  - intros H. left. split; [exact H | discriminate].
  - intros [(_ & H) | (H & _)]; [now elim H | exact H].
  - intros H. right. auto.
Qed.

(** Without a key that is an array index, the properties are listed in
    insertion order. *)
Lemma enumerate_named {A : Type} (m : list (string * A)) :
  (forall kv, In kv m -> arrayIndex (fst kv) = None) -> enumerate m = m.
Proof.
  unfold enumerate, namedProperties, indexedProperties.
  induction m as [|x tl IH]; simpl; intros H; [reflexivity|].
  rewrite (H x (or_introl eq_refl)).
  assert (Htl : forall kv, In kv tl -> arrayIndex (fst kv) = None)
    by (intros kv Hin; apply H; now right).
  specialize (IH Htl).
  destruct (fold_right _ _ tl) as [|y l] eqn:E; simpl in *;
    [now rewrite IH|].
  exfalso.
  assert (Hin : In (snd y) (map snd (indexedProperties tl)))
    by (unfold indexedProperties; rewrite E; now left).
  apply in_indexedProperties in Hin. destruct Hin as (Hin & Hi).
  apply Hi. now apply Htl.
Qed.

Lemma mem_In (s : string) (l : list string) : mem s l = true <-> In s l.
Proof.
  unfold mem. rewrite existsb_exists. split.
  - intros (x & Hx & E). apply String.eqb_eq in E. now subst.
  - intros H. exists s. split; [exact H | apply String.eqb_refl].
Qed.

Lemma mem_not_In (s : string) (l : list string) : mem s l = false <-> ~ In s l.
Proof.
  rewrite <- mem_In. destruct (mem s l); split; intros H;
    try discriminate; try reflexivity; try (intros H'; discriminate).
  exfalso. now apply H.
Qed.

Module OutEdgeFacts.
Import Rgraph PathSpec.
Section WithBiolink.

Context {BL : Biolink}.

Lemma update_In (m : list (string * list outEdge)) (k : string) (v oe : outEdge)
      (n : string) :
  In oe (rnodeToOutEdges (update m k v) n) <->
  In oe (rnodeToOutEdges m n) \/ (k = n /\ oe = v).
Proof.
  unfold rnodeToOutEdges, update. rewrite assoc_aset.
  destruct (String.eqb n k) eqn:E.
  - apply String.eqb_eq in E. subst k. rewrite in_app_iff. simpl.
    split; intros [H | H]; auto.
    + destruct H as [H | []]. right. split; [reflexivity | now symmetry].
    + destruct H as [_ ->]. auto.
  - apply String.eqb_neq in E. split; [auto|].
    intros [H | [H _]]; [exact H | congruence].
Qed.

Lemma update_length (m : list (string * list outEdge)) (k : string) (v : outEdge)
      (n : string) :
  List.length (rnodeToOutEdges (update m k v) n) <=
  List.length (rnodeToOutEdges m n) + 1.
Proof.
  unfold rnodeToOutEdges, update. rewrite assoc_aset.
  destruct (String.eqb n k) eqn:E.
  - apply String.eqb_eq in E. subst k. rewrite length_app. simpl. lia.
  - lia.
Qed.

Lemma filterEdges_resolved (kg : kgraph) (redges edges : list string) :
  filterEdges redges kg = Ret edges ->
  forall redge, In redge edges ->
    exists e, assoc redge (kg_edges kg) = Some e.
Proof.
  revert edges. induction redges as [|r tl IH]; simpl; intros edges H.
  - inversion H; subst. intros ? [].
  - inv_bind H. inv_bind H. inversion H; subst; clear H.
    unfold redgeToTrapiKedge in Ha.
    destruct (assoc r (kg_edges kg)) as [e|] eqn:Er; [|discriminate].
    inversion Ha; subst.
    intros redge Hin. destruct (isBiolinkPredicate (ke_predicate a)).
    + destruct Hin as [<- | Hin]; [eauto | now apply (IH a0)].
    + now apply (IH a0).
Qed.

Lemma outEdgesOf_returns (kg : kgraph) (redges : list string) :
  (forall redge, In redge redges -> exists e, assoc redge (kg_edges kg) = Some e) ->
  forall m, exists m', outEdgesOf redges kg m = Ret m'.
Proof.
  induction redges as [|r tl IH]; simpl; intros H m.
  - eauto.
  - destruct (H r (or_introl eq_refl)) as (e & He).
    unfold redgeToTrapiKedge. rewrite He. simpl.
    apply IH. intros x Hx. apply H. now right.
Qed.

Lemma outEdgesOf_In (kg : kgraph) (redges : list string) :
  forall m m', outEdgesOf redges kg m = Ret m' ->
  forall n oe,
    In oe (rnodeToOutEdges m' n) <->
    In oe (rnodeToOutEdges m n) \/
    (In (oe_redge oe) redges /\
     exists e, assoc (oe_redge oe) (kg_edges kg) = Some e /\
               ((ke_subject e = n /\ ke_object e = oe_target oe) \/
                (ke_object e = n /\ ke_subject e = oe_target oe))).
Proof.
  induction redges as [|r tl IH]; simpl; intros m m' H n oe.
  - inversion H; subst. split; [auto|]. intros [H' | ([] & _)]. exact H'.
  - inv_bind H. unfold redgeToTrapiKedge in Ha.
    destruct (assoc r (kg_edges kg)) as [e|] eqn:Er; [|discriminate].
    inversion Ha; subst a; clear Ha.
    rewrite (IH _ _ H n oe), !update_In. clear IH H.
    split.
    + intros [[[H | (Hk & ->)] | (Hk & ->)] | (Hin & e' & He' & Hd)].
      * auto.
      * right. simpl. split; [auto|]. exists e. split; [exact Er|]. left. auto.
      * right. simpl. split; [auto|]. exists e. split; [exact Er|]. right. auto.
      * right. split; [auto|]. eauto.
    + intros [H | ([Hr | Hin] & e' & He' & Hd)].
      * auto.
      * subst r. rewrite Er in He'. inversion He'; subst e'.
        left. destruct oe as [re t]; simpl in *.
        destruct Hd as [(Hs & Ho) | (Ho & Hs)]; subst.
        -- left. right. auto.
        -- right. auto.
      * right. split; [exact Hin|]. eauto.
Qed.

Lemma outEdgesOf_length (kg : kgraph) (redges : list string) :
  forall m m', outEdgesOf redges kg m = Ret m' ->
  forall n, List.length (rnodeToOutEdges m' n) <=
            List.length (rnodeToOutEdges m n) + 2 * List.length redges.
Proof.
  induction redges as [|r tl IH]; simpl; intros m m' H n.
  - inversion H; subst. lia.
  - inv_bind H. specialize (IH _ _ H n).
    pose proof (update_length
                  (update m (ke_subject a)
                     {| oe_redge := r; oe_target := ke_object a |})
                  (ke_object a) {| oe_redge := r; oe_target := ke_subject a |} n).
    pose proof (update_length m (ke_subject a)
                  {| oe_redge := r; oe_target := ke_object a |} n).
    lia.
Qed.

End WithBiolink.
End OutEdgeFacts.

Module PathFacts.
Import Rgraph PathSpec FoldFacts.

Section Tree.

Variable ext : list string -> list (list string) * list (list string).
Variable limit : nat.

Hypothesis ext_leaf : forall p, limit < List.length p -> ext p = ([], []).
Hypothesis ext_grows :
  forall p c, In c (fst (ext p)) -> List.length c = List.length p + 2.
Hypothesis ext_found : forall p q, In q (snd (ext p)) -> q = p.

Lemma explore_sound (d : nat) :
  forall p q, In q (explore ext d p) ->
              clos_refl_trans_1n _ (child ext) p q /\ In q (snd (ext q)).
Proof.
  induction d as [|d IH]; simpl; intros p q H.
  - pose proof (ext_found _ _ H). subst q. split; [constructor | exact H].
  - apply in_app_or in H. destruct H as [H | H].
    + pose proof (ext_found _ _ H). subst q. split; [constructor | exact H].
    + apply in_flat_map in H. destruct H as (c & Hc & Hq).
      apply in_rev in Hc. destruct (IH _ _ Hq) as (Hr & Hf).
      split; [econstructor; [exact Hc | exact Hr] | exact Hf].
Qed.

Lemma explore_complete (p q : list string) :
  clos_refl_trans_1n _ (child ext) p q ->
  In q (snd (ext q)) ->
  forall d, limit < List.length p + 2 * d -> In q (explore ext d p).
Proof.
  induction 1 as [p | p c q Hc Hr IH]; intros Hf d Hd.
  - destruct d; simpl; [exact Hf | apply in_or_app; left; exact Hf].
  - destruct d as [|d]; simpl.
    + unfold child in Hc. rewrite ext_leaf in Hc by lia. destruct Hc.
    + apply in_or_app. right. apply in_flat_map. exists c. split.
      * apply in_rev. rewrite rev_involutive. exact Hc.
      * apply IH; [exact Hf|]. rewrite (ext_grows _ _ Hc). lia.
Qed.

End Tree.

Section Finder.

Variable kg : kgraph.
Variable rg : rgraph.
Variable canon : string -> atom.
Variable outEdges : list (string * list outEdge).
Variable disease : string.
Variable maxHops : nat.

Hypothesis out_joins :
  forall n oe, In oe (rnodeToOutEdges outEdges n) <->
               joins kg rg (oe_redge oe) n (oe_target oe).
Hypothesis canon_truthy :
  forall t, isTruthy (canon t) = true <-> canon t <> AFalse.

Lemma in_children (p c : list string) :
  In c (fst (extend canon outEdges disease maxHops p)) <->
  List.length p <= maxPathLength maxHops /\
  last p "" <> disease /\
  exists redge target,
    joins kg rg redge (last p "") target /\
    ~ In target p /\ canon target <> AFalse /\
    c = p ++ [redge; target].
Proof.
  unfold extend.
  destruct (Nat.ltb (maxPathLength maxHops) (List.length p)) eqn:El.
  - apply Nat.ltb_lt in El. simpl. split; [intros [] | intros (H & _); lia].
  - apply Nat.ltb_ge in El.
    destruct (String.eqb (last p "") disease) eqn:Ed.
    + apply String.eqb_eq in Ed. simpl.
      split; [intros [] | intros (_ & H & _); contradiction].
    + apply String.eqb_neq in Ed. simpl. rewrite in_map_iff. split.
      * intros (oe & <- & Hin). apply filter_In in Hin.
        destruct Hin as (Hin & Hc). apply andb_true_iff in Hc.
        destruct Hc as (Hm & Ht). apply negb_true_iff in Hm.
        split; [exact El | split; [exact Ed|]].
        exists (oe_redge oe), (oe_target oe).
        split; [now apply out_joins|].
        split; [now apply mem_not_In|].
        split; [now apply canon_truthy | reflexivity].
      * intros (_ & _ & redge & target & Hj & Hn & Hc & ->).
        exists {| oe_redge := redge; oe_target := target |}. split; [reflexivity|].
        apply filter_In. split.
        -- now apply out_joins.
        -- simpl. apply andb_true_iff. split.
           ++ apply negb_true_iff. now apply mem_not_In.
           ++ now apply canon_truthy.
Qed.

Lemma in_found (p q : list string) :
  In q (snd (extend canon outEdges disease maxHops p)) <->
  q = p /\ List.length p <= maxPathLength maxHops /\ last p "" = disease.
Proof.
  unfold extend.
  destruct (Nat.ltb (maxPathLength maxHops) (List.length p)) eqn:El.
  - apply Nat.ltb_lt in El. simpl. split; [intros [] | intros (_ & H & _); lia].
  - apply Nat.ltb_ge in El.
    destruct (String.eqb (last p "") disease) eqn:Ed.
    + apply String.eqb_eq in Ed. simpl. split.
      * intros [<- | []]. auto.
      * intros (-> & _). auto.
    + apply String.eqb_neq in Ed. simpl.
      split; [intros [] | intros (_ & _ & H); contradiction].
Qed.

Lemma walk_last (drug : string) (p : list string) :
  walk kg rg canon drug p -> In (last p "") p.
Proof.
  induction 1 as [|p redge target _ _ _ _ _].
  - simpl. auto.
  - replace (p ++ [redge; target]) with ((p ++ [redge]) ++ [target])
      by (now rewrite <- app_assoc).
    rewrite last_last. apply in_or_app. right. simpl. auto.
Qed.

Lemma last_extended (p : list string) (redge target : string) :
  last (p ++ [redge; target]) "" = target.
Proof.
  replace (p ++ [redge; target]) with ((p ++ [redge]) ++ [target])
    by (now rewrite <- app_assoc).
  apply last_last.
Qed.

Lemma chain_walk (drug : string) (q : list string) :
  clos_refl_trans_n1 _ (child (extend canon outEdges disease maxHops)) [drug] q ->
  walk kg rg canon drug q.
Proof.
  induction 1 as [|y z Hc _ IH].
  - constructor.
  - apply in_children in Hc.
    destruct Hc as (_ & _ & redge & target & Hj & Hn & Hc & ->).
    now constructor.
Qed.

Lemma walk_chain (drug : string) (q : list string) :
  walk kg rg canon drug q ->
  ~ In disease q ->
  List.length q <= maxPathLength maxHops ->
  clos_refl_trans_n1 _ (child (extend canon outEdges disease maxHops)) [drug] q.
Proof.
  induction 1 as [|p redge target Hw IH Hj Hn Hc]; intros Hd Hl.
  - constructor.
  - assert (Hdp : ~ In disease p)
      by (intros Hin; apply Hd, in_or_app; left; exact Hin).
    rewrite length_app in Hl. simpl in Hl.
    econstructor; [|apply IH; [exact Hdp | lia]].
    apply in_children. split; [lia | split].
    + intros E. apply Hdp. rewrite <- E. eapply walk_last; eauto.
    + exists redge, target. auto.
Qed.

(** The paths of the search tree are the simple paths of section 4.6. *)
Lemma explore_simplePath (drug : string) (d : nat) (q : list string) :
  maxPathLength maxHops < 1 + 2 * d ->
  (In q (explore (extend canon outEdges disease maxHops) d [drug]) <->
   simplePath kg rg canon disease maxHops drug q).
Proof.
  intros Hd. unfold simplePath. split.
  - intros H. apply explore_sound in H.
    + destruct H as (Hr & Hf). apply in_found in Hf.
      destruct Hf as (_ & Hl & He).
      split; [|split; [exact He | exact Hl]].
      apply chain_walk. apply clos_rt_rtn1, clos_rt1n_rt. exact Hr.
    + intros p q' Hq. now apply in_found in Hq.
  - intros (Hw & He & Hl).
    apply explore_complete with (limit := maxPathLength maxHops).
    + intros p Hp. unfold extend.
      apply Nat.ltb_lt in Hp. now rewrite Hp.
    + intros p c Hc. apply in_children in Hc.
      destruct Hc as (_ & _ & redge & target & _ & _ & _ & ->).
      rewrite length_app. reflexivity.
    + apply clos_rt_rt1n, clos_rtn1_rt.
      destruct Hw as [|p redge target Hw Hj Hn Hc].
      * constructor.
      * rewrite last_extended in He. subst target.
        rewrite length_app in Hl. simpl in Hl.
        econstructor; [|apply walk_chain; [exact Hw | exact Hn | unfold maxPathLength; lia]].
        apply in_children. split; [unfold maxPathLength; lia | split].
        -- intros E. apply Hn. rewrite <- E. eapply walk_last; eauto.
        -- exists redge, disease. auto.
    + apply in_found. auto.
    + simpl. exact Hd.
Qed.

End Finder.
End PathFacts.

Module FinderFacts.
Import Rgraph PathSpec FoldFacts OutEdgeFacts PathFacts.
Section WithBiolink.

Context {BL : Biolink}.

Lemma canonical_truthy (mapping : list (string * string)) (t : string) :
  isTruthy (Canonical.canonical mapping t) = true <->
  Canonical.canonical mapping t <> AFalse.
Proof.
  unfold Canonical.canonical.
  destruct (assoc t mapping) as [c|]; simpl.
  - destruct (nonempty c) eqn:E; simpl.
    + rewrite E. split; [discriminate | reflexivity].
    + split; [discriminate | intros H; now elim H].
  - split; [discriminate | intros H; now elim H].
Qed.

Lemma extend_width (canon : string -> atom) (outEdges : list (string * list outEdge))
      (disease : string) (maxHops width : nat) :
  (forall n, List.length (rnodeToOutEdges outEdges n) <= width) ->
  forall p, List.length (fst (extend canon outEdges disease maxHops p)) <= width.
Proof.
  intros Hw p. unfold extend.
  destruct (Nat.ltb _ _); [simpl; lia|].
  destruct (String.eqb _ _); [simpl; lia|].
  simpl. rewrite length_map.
  eapply Nat.le_trans; [apply filter_length_le | apply Hw].
Qed.

Lemma makeRgraph_edges (rnodes redges : list string) (kg : kgraph) (rg : rgraph) :
  makeRgraph rnodes redges kg = Ret (Some rg) ->
  filterEdges redges kg = Ret (rg_edges rg) /\ rg_nodes rg = rnodes.
Proof.
  unfold makeRgraph. destruct (forallb _ _); [|discriminate].
  intros H. inv_bind H. inversion H; subst. simpl. auto.
Qed.

(** C2.  For a result whose reduced graph is built and whose drug and
    disease are bound, the path finder ends within its fuel and yields
    exactly the simple paths of the reduced graph from the drug to the
    disease of length at most [2 * maxHops + 1]: the sequences in which every
    extension follows an edge of the reduced graph to a target that is not
    already in the path and whose canonical node is not [false]. *)
Theorem path_finder_yields_simple_paths
        (mapping : list (string * string)) (maxHops : nat)
        (r : trapiResult) (kg : kgraph) (rg : rgraph) (drug disease : string) :
  trapiResultToRgraph r kg = Ret (Some rg) ->
  getBindingId (node_bindings r) subjectKey = Ret (Some drug) ->
  getBindingId (node_bindings r) objectKey = Ret (Some disease) ->
  exists outEdges paths,
    makeRnodeToOutEdges rg kg = Ret outEdges /\
    rgraphPaths (Canonical.canonical mapping) outEdges disease maxHops
      (Fragment.fuelFor maxHops rg) drug = Some paths /\
    forall p, In p paths <->
              simplePath kg rg (Canonical.canonical mapping) disease maxHops drug p.
Proof.
  intros Hrg _ _.
  apply makeRgraph_edges in Hrg. destruct Hrg as (Hf & _).
  destruct (outEdgesOf_returns kg (rg_edges rg)
              (filterEdges_resolved _ _ Hf) []) as (outEdges & Ho).
  exists outEdges,
    (explore (extend (Canonical.canonical mapping) outEdges disease maxHops)
             (S maxHops) [drug]).
  split; [exact Ho | split].
  - unfold rgraphPaths, Fragment.fuelFor.
    apply fold_total with (limit := maxPathLength maxHops).
    + intros p Hp. unfold extend. apply Nat.ltb_lt in Hp. now rewrite Hp.
    + intros p c Hc. unfold extend in Hc.
      destruct (Nat.ltb _ _); [destruct Hc|].
      destruct (String.eqb _ _); [destruct Hc|].
      simpl in Hc. apply in_map_iff in Hc. destruct Hc as (oe & <- & _).
      rewrite length_app. reflexivity.
    + apply extend_width. intros n.
      pose proof (outEdgesOf_length _ _ _ Ho n) as Hl.
      simpl in Hl. exact Hl.
    + unfold maxPathLength. simpl. lia.
  - intros p. apply explore_simplePath.
    + intros n oe. rewrite (outEdgesOf_In _ _ _ Ho n oe).
      unfold joins. simpl. split.
      * intros [[] | H]. exact H.
      * auto.
    + apply canonical_truthy.
    + unfold maxPathLength. lia.
Qed.

End WithBiolink.

Lemma path_finder_yields_simple_paths_witness :
  trapiResultToRgraph (BL := Examples.biolink) Examples.directResult
    Examples.directGraph = Ret (Some Examples.directRgraph) /\
  getBindingId (node_bindings Examples.directResult) subjectKey =
    Ret (Some "CHEBI:1") /\
  getBindingId (node_bindings Examples.directResult) objectKey =
    Ret (Some "MONDO:1") /\
  exists outEdges paths,
    makeRnodeToOutEdges Examples.directRgraph Examples.directGraph = Ret outEdges /\
    rgraphPaths (Canonical.canonical Examples.directMapping) outEdges "MONDO:1" 3
      (Fragment.fuelFor 3 Examples.directRgraph) "CHEBI:1" = Some paths /\
    forall p, In p paths <->
              simplePath Examples.directGraph Examples.directRgraph
                (Canonical.canonical Examples.directMapping) "MONDO:1" 3 "CHEBI:1" p.
Proof.
  assert (H1 : trapiResultToRgraph (BL := Examples.biolink) Examples.directResult
                 Examples.directGraph = Ret (Some Examples.directRgraph))
    by (vm_compute; reflexivity).
  assert (H2 : getBindingId (node_bindings Examples.directResult) subjectKey =
               Ret (Some "CHEBI:1")) by (vm_compute; reflexivity).
  assert (H3 : getBindingId (node_bindings Examples.directResult) objectKey =
               Ret (Some "MONDO:1")) by (vm_compute; reflexivity).
  split; [exact H1 | split; [exact H2 | split; [exact H3|]]].
  exact (path_finder_yields_simple_paths Examples.directMapping 3 _ _ H1 H2 H3).
Defined.

End FinderFacts.

(** ** Monadic maps and folds *)

Lemma mapM_In {A B : Type} (f : A -> outcome B) (l : list A) (l' : list B) :
  Fragment.mapM f l = Ret l' ->
  forall y, In y l' -> exists x, In x l /\ f x = Ret y.
Proof.
  revert l'. induction l as [|x tl IH]; simpl; intros l' H y Hy.
  - inversion H; subst. destruct Hy.
  - inv_bind H. inv_bind H. inversion H; subst; clear H.
    destruct Hy as [<- | Hy]; [eauto|].
    destruct (IH _ Ha0 _ Hy) as (x' & Hx' & E). eauto.
Qed.

Lemma akeys_aset_In {A : Type} (k : string) (v : A) (m : list (string * A))
      (x : string) :
  In x (akeys (aset k v m)) <-> In x (akeys m) \/ x = k.
Proof.
  induction m as [|(k', v') m IH]; simpl.
  - split; [intros [<- | []]; auto | intros [[] | ->]; auto].
  - destruct (String.eqb k k') eqn:E; simpl.
    + apply String.eqb_eq in E. subst k'.
      split; [intros [H | H]; auto | intros [[H | H] | ->]; auto].
    + rewrite IH. split; [intros [H | [H | H]]; auto | intros [[H | H] | H]; auto].
Qed.

Lemma akeys_aset_NoDup {A : Type} (k : string) (v : A) (m : list (string * A)) :
  NoDup (akeys m) -> NoDup (akeys (aset k v m)).
Proof.
  induction m as [|(k', v') m IH]; simpl; intros Hn.
  - constructor; [intros [] | constructor].
  - inversion Hn as [|? ? Hk Hm]; subst.
    destruct (String.eqb k k') eqn:E; simpl.
    + constructor; assumption.
    + constructor; [|now apply IH].
      rewrite akeys_aset_In. intros [H | H]; [contradiction|].
      subst k'. rewrite String.eqb_refl in E. discriminate.
Qed.

Lemma assoc_not_In {A : Type} (k : string) (m : list (string * A)) :
  ~ In k (akeys m) -> assoc k m = None.
Proof.
  induction m as [|(k', v') m IH]; simpl; intros H; [reflexivity|].
  destruct (String.eqb k k') eqn:E.
  - apply String.eqb_eq in E. subst. elim H. auto.
  - apply IH. intros Hin. apply H. auto.
Qed.

Module ScoreFacts.
Import Merge Summarize Results Summary ScoreTrace ScoreSpec.

Lemma scoresOf_aset (k k' : string) (l : list score)
      (scores : list (string * list score)) :
  scoresOf (aset k' l scores) k = if String.eqb k k' then l else scoresOf scores k.
Proof.
  unfold scoresOf. rewrite assoc_aset. now destruct (String.eqb k k').
Qed.

Lemma extendSummaryScores_scoresOf (new scores : list (string * list score))
      (k : string) :
  NoDup (akeys new) ->
  scoresOf (extendSummaryScores scores new) k = scoresOf scores k ++ scoresOf new k.
Proof.
  unfold extendSummaryScores.
  revert scores. induction new as [|(k', l) tl IH]; simpl; intros scores Hn.
  - unfold scoresOf at 3. simpl. now rewrite app_nil_r.
  - inversion Hn as [|? ? Hk Htl]; subst. rewrite (IH _ Htl), scoresOf_aset.
    unfold scoresOf at 4. simpl.
    destruct (String.eqb k k') eqn:E.
    + apply String.eqb_eq in E. subst k'.
      fold (scoresOf scores k). unfold scoresOf at 2.
      rewrite (assoc_not_In _ _ Hk). now rewrite app_nil_r.
    + reflexivity.
Qed.

(** The sum that [reduce] makes of scores that are numbers. *)
Lemma fold_numbers (tl : list number) :
  forall x, fold_left jsAdd (map Some tl) (Some x) = Some (fold_left numAdd tl x).
Proof.
  induction tl as [|y tl IH]; simpl; intros x; [reflexivity | apply IH].
Qed.

(** The mean computed by [expandResults], on scores that are numbers. *)
Lemma average_rounded (l : list number) (a : score) :
  average (map Some l) = Ret a -> l <> [] /\ a = roundedMean l.
Proof.
  destruct l as [|x tl]; [discriminate|].
  unfold average, roundedMean. cbn [map]. rewrite fold_numbers.
  intros H. inversion H; subst; clear H.
  split; [discriminate|]. simpl. now rewrite length_map.
Qed.

End ScoreFacts.

Module ScoreChain.
Import Merge Summarize Results Summary ScoreTrace ScoreSpec ScoreFacts.
Section WithInterfaces.

Context {BL : Biolink} {EV : Evidence}.
Variable pathToKey : list atom -> string.
Variable canon : string -> atom.
Variable maxHops : nat.

Ltac invert_fragment H :=
  repeat (first
    [ inv_bind H
    | match type of H with
      | context [match ?x with _ => _ end] => destruct x eqn:?
      end ]).

Lemma fragment_scores (r : trapiResult) (kg : kgraph) (f : resultFragment) :
  Fragment.trapiResultToSummaryFragment pathToKey canon maxHops r kg = Ret f ->
  rf_scores f = [] \/
  exists drug, rf_scores f = [(render (canon drug), Fragment.scoreOf r)].
Proof.
  unfold Fragment.trapiResultToSummaryFragment. intros H.
  invert_fragment H; try discriminate; inversion H; subst; simpl; eauto.
Qed.

(** The scores of the fragment of a result are those that section 4.8
    words: one score for a result that can be bound, none for another. *)
Lemma fragment_scores_worded (r : trapiResult) (kg : kgraph) (f : resultFragment) :
  Fragment.trapiResultToSummaryFragment pathToKey canon maxHops r kg = Ret f ->
  rf_scores f =
  if bindable r kg then
    match boundCurie r subjectKey with
    | Some drug => [(render (canon drug), Fragment.scoreOf r)]
    | None => []
    end
  else [].
Proof.
  unfold Fragment.trapiResultToSummaryFragment, Rgraph.trapiResultToRgraph,
    Rgraph.makeRgraph, Rgraph.flattenBindings, avalues, Rgraph.getBindingId,
    bindable, boundCurie, Fragment.bound, Fragment.rnodeToKey.
  intros H.
  destruct (forallb _ (List.concat (map snd (node_bindings r)))) eqn:Hn.
  - destruct (Rgraph.filterEdges _ kg) as [|edges]; [discriminate|].
    cbn [bind] in H.
    destruct (assoc subjectKey (node_bindings r)) as [[|d dl]|];
      destruct (assoc objectKey (node_bindings r)) as [[|o ol]|];
      cbn [bind] in H; try discriminate;
      try (destruct (nonempty d)); try (destruct (nonempty o));
      try (inversion H; subst; reflexivity).
    invert_fragment H; try discriminate. inversion H; subst. reflexivity.
  - cbn [bind] in H. inversion H; subst. simpl.
    destruct (assoc subjectKey (node_bindings r)) as [[|d dl]|];
      destruct (assoc objectKey (node_bindings r)) as [[|o ol]|];
      try reflexivity;
      try (destruct (nonempty d)); try (destruct (nonempty o)); reflexivity.
Qed.

Lemma contribution_worded (r : trapiResult) (kg : kgraph) (f : resultFragment)
      (k : string) :
  Fragment.trapiResultToSummaryFragment pathToKey canon maxHops r kg = Ret f ->
  k <> "undefined" ->
  contribution pathToKey canon maxHops r kg k = map Some (contributed canon r kg k).
Proof.
  intros H Hk. unfold contribution, contributed.
  rewrite H, (fragment_scores_worded _ _ H).
  apply String.eqb_neq in Hk.
  destruct (bindable r kg); [|now rewrite Hk].
  destruct (boundCurie r subjectKey) as [drug|]; [|now rewrite Hk].
  unfold Fragment.scoreOf. now destruct (String.eqb k (render (canon drug))).
Qed.

Lemma merge_scoresOf (f1 : summaryFragment) (f2 : resultFragment) (k : string) :
  scoresOf (sf_scores (Fragment.mergeSummaryFragments f1 f2)) k =
  scoresOf (sf_scores f1) k ++
  match rf_scores f2 with
  | (k', v) :: _ => if String.eqb k k' then [Some v] else []
  | [] => if String.eqb k "undefined" then [None] else []
  end.
Proof.
  unfold Fragment.mergeSummaryFragments; simpl. rewrite scoresOf_aset.
  destruct (rf_scores f2) as [|(k', v) tl].
  - destruct (String.eqb k "undefined") eqn:E.
    + apply String.eqb_eq in E. subst k. reflexivity.
    + now rewrite app_nil_r.
  - destruct (String.eqb k k') eqn:E.
    + apply String.eqb_eq in E. subst k. reflexivity.
    + now rewrite app_nil_r.
Qed.

Lemma reduceResults_scores (kg : kgraph) (rs : list trapiResult) :
  forall acc f,
    Fragment.reduceResults pathToKey canon maxHops rs kg acc = Ret f ->
    NoDup (akeys (sf_scores acc)) ->
    NoDup (akeys (sf_scores f)) /\
    forall k, scoresOf (sf_scores f) k =
              scoresOf (sf_scores acc) k ++
              flat_map (fun r => contribution pathToKey canon maxHops r kg k) rs.
Proof.
  induction rs as [|r tl IH]; simpl; intros acc f H Hn.
  - inversion H; subst. split; [exact Hn|]. intros k. now rewrite app_nil_r.
  - inv_bind H.
    destruct (IH _ _ H) as (Hn' & Hs).
    { unfold Fragment.mergeSummaryFragments; simpl. now apply akeys_aset_NoDup. }
    split; [exact Hn'|]. intros k.
    rewrite Hs, merge_scoresOf, <- app_assoc. f_equal. f_equal.
    unfold contribution. now rewrite Ha.
Qed.

(** When the results of an agent are reduced, every one of them has given
    a fragment. *)
Lemma reduceResults_worded (kg : kgraph) (rs : list trapiResult) (k : string) :
  k <> "undefined" ->
  forall acc f,
    Fragment.reduceResults pathToKey canon maxHops rs kg acc = Ret f ->
    flat_map (fun r => contribution pathToKey canon maxHops r kg k) rs =
    map Some (flat_map (fun r => contributed canon r kg k) rs).
Proof.
  intros Hk. induction rs as [|r tl IH]; simpl; intros acc f H; [reflexivity|].
  inv_bind H. rewrite map_app, (@contribution_worded r kg a k Ha Hk).
  f_equal. eapply IH. exact H.
Qed.

Lemma condensed_scores (answers : list answer) :
  forall css,
    Fragment.creativeAnswersToCondensedSummaries
      pathToKey canon maxHops answers = Ret css ->
    Forall (fun cs => NoDup (akeys (sf_scores (cs_fragment cs)))) css /\
    forall k, flat_map (fun cs => scoresOf (sf_scores (cs_fragment cs)) k) css =
              accumulated pathToKey canon maxHops answers k.
Proof.
  unfold Fragment.creativeAnswersToCondensedSummaries.
  induction answers as [|a tl IH]; simpl; intros css H.
  - inversion H; subst. split; [constructor | reflexivity].
  - inv_bind H. inv_bind H. inversion H; subst; clear H.
    unfold Fragment.answerToCondensedSummary in Ha. inv_bind Ha.
    inversion Ha; subst; clear Ha.
    destruct (reduceResults_scores _ _ _ Ha1) as (Hn & Hs); [constructor|].
    destruct (IH _ Ha0) as (Hf & Hacc).
    split; [constructor; [exact Hn | exact Hf]|].
    intros k. simpl. rewrite Hs, Hacc. reflexivity.
Qed.

(** The scores that the loops accumulate for a key are the scores that
    section 4.9 words. *)
Lemma accumulated_worded (answers : list answer) (k : string) :
  k <> "undefined" ->
  forall css,
    Fragment.creativeAnswersToCondensedSummaries
      pathToKey canon maxHops answers = Ret css ->
    accumulated pathToKey canon maxHops answers k =
    map Some (scoresFor canon answers k).
Proof.
  intros Hk. unfold Fragment.creativeAnswersToCondensedSummaries.
  induction answers as [|a tl IH]; simpl; intros css H; [reflexivity|].
  inv_bind H. inv_bind H.
  unfold Fragment.answerToCondensedSummary in Ha. inv_bind Ha.
  rewrite map_app, (IH _ Ha0). f_equal.
  eapply reduceResults_worded; eauto.
Qed.

Lemma extendSummary_scores (m m' : merged) (cs : condensedSummary) :
  extendSummary pathToKey canon m cs = Ret m' ->
  m_scores m' = extendSummaryScores (m_scores m) (sf_scores (cs_fragment cs)).
Proof.
  unfold extendSummary. intros H. inv_bind H. inv_bind H.
  inversion H; subst. reflexivity.
Qed.

Lemma mergeAll_scores (css : list condensedSummary) :
  forall m0 m,
    foldM (extendSummary pathToKey canon) css m0 = Ret m ->
    Forall (fun cs => NoDup (akeys (sf_scores (cs_fragment cs)))) css ->
    forall k, scoresOf (m_scores m) k =
              scoresOf (m_scores m0) k ++
              flat_map (fun cs => scoresOf (sf_scores (cs_fragment cs)) k) css.
Proof.
  induction css as [|cs tl IH]; simpl; intros m0 m H Hf k.
  - inversion H; subst. now rewrite app_nil_r.
  - inv_bind H. inversion Hf as [|? ? Hn Htl]; subst.
    rewrite (IH _ _ H Htl), (extendSummary_scores _ _ Ha).
    rewrite extendSummaryScores_scoresOf by exact Hn.
    now rewrite <- app_assoc.
Qed.

End WithInterfaces.
End ScoreChain.

Module ResultScoreFacts.
Import Merge Summarize Results Summary ScoreTrace ScoreSpec ScoreFacts ScoreChain.
Section WithInterfaces.

Context {BL : Biolink} {EV : Evidence}.
Variable pathToKey : list atom -> string.
Variable maxHops : nat.

Lemma expandResult_score (paths : list (string * pathEntry))
      (nodes : list (string * snode)) (scores : list (string * list score))
      (ps : list string) (r : result) :
  expandResult paths nodes scores ps = Ret r ->
  exists drugScores,
    assoc (render (r_subject r)) scores = Some drugScores /\
    average drugScores = Ret (r_score r).
Proof.
  unfold expandResult. intros H. inv_bind H.
  destruct a as [|(pid, [|drug sub]) tl]; try discriminate.
  inv_bind H. inv_bind H. inv_bind H. inversion H; subst; clear H. simpl.
  unfold fromOption in Ha1.
  destruct (assoc (render drug) scores) as [l|]; [|discriminate].
  inversion Ha1; subst. eauto.
Qed.

Lemma finish_results (qid : string) (css : list condensedSummary) (m : merged)
      (s : summary) :
  finish pathToKey qid css m = Ret s ->
  expandResults (map dedup (avalues (m_results m))) (m_paths m)
    (onValues cleanNode (m_nodes m)) (m_scores m) = Ret (s_results s).
Proof.
  unfold finish. intros H. inv_bind H. inversion H; subst. exact Ha.
Qed.

Lemma colon_not_undefined (k : string) : isCurie k = true -> k <> "undefined".
Proof. intros H ->. discriminate. Qed.

(** C4, as amended.  The score of every result of the final summary whose
    drug key is a CURIE is the mean, as doubles give it, of the scores for
    the key: their sum from left to right divided by their number, where
    every result that can be bound has contributed, in the order of the
    agents and of their results, its [normalized_score], or 0 when it has
    none; there is at least one such score. *)
Theorem result_score_is_rounded_mean (qid : string) (answers : list answer)
        (s : summary) :
  creativeAnswersToSummary pathToKey maxHops qid answers = Ret s ->
  exists mapping,
    Canonical.makeCanonicalNodeMapping (resultNodes answers) = Ret mapping /\
    forall r, In r (s_results s) ->
      isCurie (render (r_subject r)) = true ->
      let drugScores :=
        scoresFor (Canonical.canonical mapping) answers (render (r_subject r)) in
      drugScores <> [] /\ r_score r = roundedMean drugScores.
Proof.
  intros H.
  destruct (SummaryFacts.creativeAnswersToSummary_stages _ _ _ _ H)
    as (mapping & css & m & Hmap & Hcs & Hm & Hf).
  exists mapping. split; [exact Hmap|]. intros r Hr Hc.
  apply colon_not_undefined in Hc.
  apply finish_results in Hf.
  destruct (mapM_In _ _ Hf _ Hr) as (ps & _ & Hps).
  destruct (expandResult_score _ _ _ _ Hps) as (drugScores & Hk & Havg).
  destruct (condensed_scores _ _ _ _ Hcs) as (Hn & Hacc).
  pose proof Hm as Hs. unfold mergeAll in Hs.
  eapply mergeAll_scores with (k := render (r_subject r)) in Hs; [|exact Hn].
  assert (Ew : accumulated pathToKey (Canonical.canonical mapping) maxHops answers
                 (render (r_subject r)) =
               map Some (scoresFor (Canonical.canonical mapping) answers
                           (render (r_subject r))))
    by (eapply accumulated_worded; eauto).
  rewrite Hacc, Ew in Hs.
  unfold scoresOf at 1 in Hs. rewrite Hk in Hs.
  unfold scoresOf in Hs; simpl in Hs. subst drugScores.
  cbv zeta. now apply average_rounded.
Qed.

End WithInterfaces.
End ResultScoreFacts.

Module ResultScoreWitness.
Import Merge Summarize Results Summary ScoreSpec Examples.

Lemma result_score_is_rounded_mean_witness :
  creativeAnswersToSummary key 3 "Q1" twoScores = Ret twoScoresSummary /\
  In twoScoresEntry (s_results twoScoresSummary) /\
  isCurie (render (r_subject twoScoresEntry)) = true /\
  r_score twoScoresEntry = Some threeEighths /\
  exists mapping,
    Canonical.makeCanonicalNodeMapping (resultNodes twoScores) = Ret mapping /\
    scoresFor (Canonical.canonical mapping) twoScores
      (render (r_subject twoScoresEntry)) = [half; quarter] /\
    r_score twoScoresEntry = roundedMean [half; quarter].
Proof.
  assert (H : creativeAnswersToSummary key 3 "Q1" twoScores = Ret twoScoresSummary)
    by (vm_compute; reflexivity).
  assert (Hin : In twoScoresEntry (s_results twoScoresSummary))
    by (vm_compute; auto).
  assert (Hc : isCurie (render (r_subject twoScoresEntry)) = true)
    by reflexivity.
  split; [exact H | split; [exact Hin | split; [exact Hc|]]].
  split; [reflexivity|].
  destruct (ResultScoreFacts.result_score_is_rounded_mean key 3 "Q1" twoScores H)
    as (mapping & Hmap & Hr).
  exists mapping. split; [exact Hmap|].
  destruct (Hr twoScoresEntry Hin Hc) as (_ & Hs).
  assert (E : scoresFor (Canonical.canonical mapping) twoScores
                (render (r_subject twoScoresEntry)) = [half; quarter]).
  { vm_compute in Hmap. inversion Hmap; subst. vm_compute. reflexivity. }
  split; [exact E|]. cbv zeta in Hs. rewrite E in Hs. exact Hs.
Defined.

(** C4, as stated, fails twice.  Doubles round: the scores 1e16, 1 and 1
    have the sum 1e16 and give the score 3333333333333333.5, half a unit
    below their mean.  And every result that cannot be bound leaves
    [undefined] in the list of the key "undefined": a drug of that name, which
    is no CURIE, gets no number for its score. *)
Lemma doubles_round_and_undefined_spoils :
  ~ scoresAreMeans key 3 largeScores /\ ~ scoresAreMeans key 3 undefinedDrug.
Proof.
  split; intros H.
  - assert (Hs : creativeAnswersToSummary key 3 "Q1" largeScores =
                 Ret largeScoresSummary) by (vm_compute; reflexivity).
    specialize (H "Q1" largeScoresSummary _ Hs eq_refl largeScoresEntry
                  (or_introl eq_refl)).
    vm_compute in H. apply H. reflexivity.
  - assert (Hs : creativeAnswersToSummary key 3 "Q1" undefinedDrug =
                 Ret undefinedDrugSummary) by (vm_compute; reflexivity).
    specialize (H "Q1" undefinedDrugSummary _ Hs eq_refl undefinedDrugEntry
                  (or_introl eq_refl)).
    vm_compute in H. exact H.
Qed.

End ResultScoreWitness.

Lemma in_aset {A : Type} (k : string) (v : A) (m : list (string * A))
      (k' : string) (v' : A) :
  In (k', v') (aset k v m) -> (k' = k /\ v' = v) \/ In (k', v') m.
Proof.
  induction m as [|(k0, v0) m IH]; simpl.
  - intros [H | []]. inversion H. auto.
  - destruct (String.eqb k k0) eqn:E; simpl.
    + apply String.eqb_eq in E. subst k0.
      intros [H | H]; [inversion H; auto | auto].
    + intros [H | H]; [auto | destruct (IH H); auto].
Qed.

Lemma assoc_In {A : Type} (k : string) (v : A) (m : list (string * A)) :
  assoc k m = Some v -> In (k, v) m.
Proof.
  induction m as [|(k0, v0) m IH]; simpl; [discriminate|].
  destruct (String.eqb k k0) eqn:E.
  - apply String.eqb_eq in E. subst k0. intros H. inversion H. auto.
  - auto.
Qed.

Lemma In_assoc {A : Type} (k : string) (v : A) (m : list (string * A)) :
  In (k, v) m -> exists v', assoc k m = Some v'.
Proof.
  induction m as [|(k0, v0) m IH]; simpl; [intros []|].
  destruct (String.eqb k k0) eqn:E; [eauto|].
  intros [H | H]; [|auto].
  inversion H; subst. rewrite String.eqb_refl in E. discriminate.
Qed.

Module PublicationFacts.
Import Merge Summarize Results Summary EdgeSpec.
Section WithInterfaces.

Context {BL : Biolink} {EV : Evidence}.
Variable pathToKey : list atom -> string.

Lemma extendSummaryPublications_assoc (edge : sedge) (ids : list string) :
  forall publications id,
    assoc id
      (fold_left
         (fun publications id =>
            let '(type, url) := idToTypeAndUrl id in
            match findSnippet id (orEmpty (e_snippets edge)) with
            | Some publicationObj =>
                aset id (makePublicationObject type url
                           (assoc "sentence" publicationObj)
                           (assoc "publication date" publicationObj)) publications
            | None => aset id (makePublicationObject type url None None) publications
            end) ids publications) =
    if mem id ids then Some (publicationOf edge id) else assoc id publications.
Proof.
  induction ids as [|x tl IH]; simpl; intros publications id; [reflexivity|].
  rewrite IH. unfold mem at 2. simpl. fold (mem id tl).
  destruct (mem id tl); [now rewrite orb_true_r|]. rewrite orb_false_r.
  assert (E : (let '(type, url) := idToTypeAndUrl x in
               match findSnippet x (orEmpty (e_snippets edge)) with
               | Some publicationObj =>
                   aset x (makePublicationObject type url
                             (assoc "sentence" publicationObj)
                             (assoc "publication date" publicationObj)) publications
               | None => aset x (makePublicationObject type url None None) publications
               end) = aset x (publicationOf edge x) publications).
  { unfold publicationOf. destruct (idToTypeAndUrl x) as (t, u). simpl.
    now destruct (findSnippet x (orEmpty (e_snippets edge))). }
  rewrite E, assoc_aset.
  destruct (String.eqb id x) eqn:Ex; [|reflexivity].
  apply String.eqb_eq in Ex. now subst.
Qed.

Lemma publications_of_edge (publications : list (string * publication))
      (edge : sedge) (id : string) :
  assoc id (extendSummaryPublications publications edge) =
  if mem id (e_publications edge) then Some (publicationOf edge id)
  else assoc id publications.
Proof. apply extendSummaryPublications_assoc. Qed.

Lemma edgeStep_publications (edges : list (string * sedge)) :
  forall t publications,
    snd (fold_left (edgeStep pathToKey) edges (t, publications)) =
    fold_left extendSummaryPublications (map snd edges) publications.
Proof.
  induction edges as [|(k, e) tl IH]; simpl; intros t publications; [reflexivity|].
  apply IH.
Qed.

Lemma publications_of_edges (edges : list sedge) :
  forall publications id p,
    assoc id (fold_left extendSummaryPublications edges publications) = Some p ->
    assoc id publications = Some p \/
    exists e, In e edges /\ In id (e_publications e) /\ p = publicationOf e id.
Proof.
  induction edges as [|e tl IH]; simpl; intros publications id p H; [auto|].
  destruct (IH _ _ _ H) as [H' | (e' & He' & Hid & Hp)].
  - rewrite publications_of_edge in H'.
    destruct (mem id (e_publications e)) eqn:E; [|auto].
    right. exists e. apply mem_In in E. inversion H'. auto.
  - right. exists e'. auto.
Qed.

Lemma publications_of_edges_present (edges : list sedge) :
  forall publications id,
    (assoc id publications <> None \/
     exists e, In e edges /\ In id (e_publications e)) ->
    assoc id (fold_left extendSummaryPublications edges publications) <> None.
Proof.
  induction edges as [|e tl IH]; simpl; intros publications id H.
  - destruct H as [H | (e & [] & _)]. exact H.
  - apply IH. rewrite publications_of_edge.
    destruct (mem id (e_publications e)) eqn:E; [left; discriminate|].
    apply mem_not_In in E.
    destruct H as [H | (e' & [<- | He'] & Hid)]; [auto | contradiction | eauto].
Qed.

End WithInterfaces.
End PublicationFacts.

Module InverseFacts.
Import Merge Summarize Results Summary EdgeSpec.
Section WithInterfaces.

Context {BL : Biolink} {EV : Evidence}.
Variable pathToKey : list atom -> string.

Lemma edgeStep_fst (t : tracked) (publications : list (string * publication))
      (K : string) (e : sedge) :
  fst (edgeStep pathToKey (t, publications) (K, e)) =
  let edges1 := aset (inverseKey pathToKey e) (false, inverseOf e) t in
  match assoc K edges1 with
  | Some (true, _) => aset K (true, finished e) edges1
  | _ => edges1
  end.
Proof.
  unfold edgeStep. simpl.
  change (invertedEdgeKey pathToKey (set_snippets None e))
    with (inverseKey pathToKey e).
  fold (inverseOf e). fold (finished e).
  destruct (assoc K (aset (inverseKey pathToKey e) (false, inverseOf e) t))
    as [(flag, x)|]; [destruct flag|]; reflexivity.
Qed.

Lemma step_inverse_installed (t : tracked) (K : string) (e : sedge) :
  assoc (inverseKey pathToKey e)
    (fst (edgeStep pathToKey (t, []) (K, e))) = Some (false, inverseOf e).
Proof.
  rewrite edgeStep_fst. cbv zeta.
  pose proof (assoc_aset_eq (inverseKey pathToKey e) (false, inverseOf e) t) as E.
  destruct (assoc K (aset (inverseKey pathToKey e) (false, inverseOf e) t))
    as [(flag, x)|] eqn:EK; [destruct flag|]; try exact E.
  rewrite assoc_aset_neq; [exact E|].
  intros Heq. rewrite <- Heq in EK. rewrite E in EK. discriminate.
Qed.

Lemma step_keeps_copies (t : tracked) (K : string) (e : sedge)
      (k : string) (x : sedge) :
  assoc k t = Some (false, x) ->
  k <> inverseKey pathToKey e ->
  assoc k (fst (edgeStep pathToKey (t, []) (K, e))) = Some (false, x).
Proof.
  intros Hk Hne. rewrite edgeStep_fst. cbv zeta.
  assert (E : assoc k (aset (inverseKey pathToKey e) (false, inverseOf e) t)
              = Some (false, x)) by (rewrite assoc_aset_neq; assumption).
  destruct (assoc K (aset (inverseKey pathToKey e) (false, inverseOf e) t))
    as [(flag, y)|] eqn:EK; [destruct flag|]; try exact E.
  rewrite assoc_aset_neq; [exact E|].
  intros Heq. rewrite <- Heq in EK. rewrite E in EK. discriminate.
Qed.

Lemma step_publications_irrelevant (t : tracked)
      (p : list (string * publication)) (ke : string * sedge) :
  fst (edgeStep pathToKey (t, p) ke) = fst (edgeStep pathToKey (t, []) ke).
Proof. destruct ke as (K, e). now rewrite !edgeStep_fst. Qed.

Lemma step_installed (done : list (string * sedge)) (t : tracked)
      (K : string) (e : sedge) :
  installed pathToKey done t ->
  installed pathToKey (done ++ [(K, e)])
    (fst (edgeStep pathToKey (t, []) (K, e))).
Proof.
  intros Hi K0 e0 Hin. apply in_app_or in Hin.
  destruct (string_dec (inverseKey pathToKey e0) (inverseKey pathToKey e))
    as [Heq | Hne].
  - exists K, e. split; [apply in_or_app; right; left; reflexivity|].
    split; [now symmetry|]. rewrite Heq. apply step_inverse_installed.
  - destruct Hin as [Hin | [Hin | []]].
    + destruct (Hi _ _ Hin) as (K' & e' & Hin' & Hk & Ha).
      exists K', e'. split; [apply in_or_app; left; exact Hin'|].
      split; [exact Hk|]. now apply step_keeps_copies.
    + inversion Hin; subst. now elim Hne.
Qed.

Lemma step_provenance (origs done : list (string * sedge)) (t : tracked)
      (K : string) (e : sedge) :
  In (K, e) origs ->
  provenance pathToKey origs done t ->
  provenance pathToKey origs (done ++ [(K, e)])
    (fst (edgeStep pathToKey (t, []) (K, e))).
Proof.
  intros Ho Hp. rewrite edgeStep_fst. cbv zeta.
  assert (H1 : provenance pathToKey origs (done ++ [(K, e)])
                 (aset (inverseKey pathToKey e) (false, inverseOf e) t)).
  { intros k flag x Hin. apply in_aset in Hin.
    destruct Hin as [(-> & Hv) | Hin].
    - inversion Hv; subst. left. split; [reflexivity|].
      exists K, e. split; [apply in_or_app; right; left; reflexivity | auto].
    - destruct (Hp _ _ _ Hin) as [(-> & K0 & e0 & Hd & Hk & Hx) | Hr]; [|auto].
      left. split; [reflexivity|]. exists K0, e0.
      split; [apply in_or_app; left; exact Hd | auto]. }
  destruct (assoc K (aset (inverseKey pathToKey e) (false, inverseOf e) t))
    as [(flag, y)|] eqn:EK; [destruct flag|]; try exact H1.
  intros k flag x Hin. apply in_aset in Hin.
  destruct Hin as [(-> & Hv) | Hin]; [|now apply H1].
  inversion Hv; subst. right. split; [reflexivity|]. exists e. auto.
Qed.

Lemma fold_invariants (origs : list (string * sedge)) (rest : list (string * sedge)) :
  forall done t p,
    origs = done ++ rest ->
    installed pathToKey done t ->
    provenance pathToKey origs done t ->
    installed pathToKey origs (fst (fold_left (edgeStep pathToKey) rest (t, p))) /\
    provenance pathToKey origs origs
      (fst (fold_left (edgeStep pathToKey) rest (t, p))).
Proof.
  induction rest as [|(K, e) tl IH]; cbn [fold_left]; intros done t p Ho Hi Hp.
  - rewrite app_nil_r in Ho. subst done. auto.
  - destruct (edgeStep pathToKey (t, p) (K, e)) as (t', p') eqn:Es.
    assert (Et : t' = fst (edgeStep pathToKey (t, []) (K, e))).
    { rewrite <- (step_publications_irrelevant t p (K, e)), Es. reflexivity. }
    apply IH with (done := done ++ [(K, e)]).
    + rewrite <- app_assoc. exact Ho.
    + rewrite Et. now apply step_installed.
    + rewrite Et. apply step_provenance; [|exact Hp].
      rewrite Ho. apply in_or_app. right. left. reflexivity.
Qed.

End WithInterfaces.
End InverseFacts.

Module EdgeTableFacts.
Import Merge Summarize Results Summary EdgeSpec InverseFacts PublicationFacts.
Section WithInterfaces.

Context {BL : Biolink} {EV : Evidence}.
Variable pathToKey : list atom -> string.

Lemma in_untracked (t : tracked) (K : string) (x : sedge) :
  In (K, x) (map (fun ke => (fst ke, snd (snd ke))) t) ->
  exists flag, In (K, (flag, x)) t.
Proof.
  rewrite in_map_iff. intros ((K', (flag, x')) & E & Hin).
  simpl in E. inversion E; subst. eauto.
Qed.

Lemma assoc_untracked (t : tracked) (K : string) :
  assoc K (map (fun ke => (fst ke, snd (snd ke))) t) =
  option_map snd (assoc K t).
Proof.
  induction t as [|(K', (flag, x)) t IH]; simpl; [reflexivity|].
  destruct (String.eqb K K'); [reflexivity | exact IH].
Qed.

Lemma initial_provenance (origs : list (string * sedge)) :
  provenance pathToKey origs [] (map (fun ke => (fst ke, (true, snd ke))) origs).
Proof.
  intros K flag x Hin. apply in_map_iff in Hin.
  destruct Hin as ((K', e) & E & Hin). simpl in E. inversion E; subst.
  right. split; [reflexivity|]. exists x. auto.
Qed.

(** The loop of [edgesToEdgesAndPublications], from its first state to its
    last. *)
Lemma edges_invariants (origs : list (string * sedge)) :
  exists t,
    fst (edgesToEdgesAndPublications pathToKey origs) =
      map (fun ke => (fst ke, snd (snd ke))) t /\
    installed pathToKey origs t /\
    provenance pathToKey origs origs t.
Proof.
  unfold edgesToEdgesAndPublications. simpl.
  eexists. split; [reflexivity|].
  destruct (@fold_invariants _ _ pathToKey (enumerate origs) (enumerate origs) []
              (map (fun ke => (fst ke, (true, snd ke))) origs) [])
    as (Hi & Hp).
  - reflexivity.
  - intros K e [].
  - intros K flag x Hin.
    destruct (initial_provenance origs _ _ _ Hin) as [(_ & _ & _ & [] & _) | Hr].
    right. destruct Hr as (Hf & e & He & Hx). split; [exact Hf|].
    exists e. split; [now apply in_enumerate | exact Hx].
  - split.
    + intros K e Hin. rewrite <- in_enumerate in Hin.
      destruct (Hi _ _ Hin) as (K' & e' & Hin' & Hk & Ht).
      exists K', e'. split; [now apply in_enumerate | auto].
    + intros K flag x Hin.
      destruct (Hp _ _ _ Hin) as [(Hf & K0 & e & Hd & Hk) | (Hf & e & Ho & Hx)].
      * left. split; [exact Hf|]. exists K0, e.
        split; [now apply in_enumerate | exact Hk].
      * right. split; [exact Hf|]. exists e.
        split; [now apply in_enumerate | exact Hx].
Qed.

Lemma edges_publications (origs : list (string * sedge)) :
  snd (edgesToEdgesAndPublications pathToKey origs) =
  fold_left extendSummaryPublications (map snd (enumerate origs)) [].
Proof.
  unfold edgesToEdgesAndPublications. simpl. apply edgeStep_publications.
Qed.

Lemma provenance_publications (origs : list (string * sedge)) (t : tracked)
      (K : string) (flag : bool) (x : sedge) :
  provenance pathToKey origs origs t ->
  In (K, (flag, x)) t ->
  exists K0 e, In (K0, e) origs /\ e_publications x = e_publications e.
Proof.
  intros Hp Hin.
  destruct (Hp _ _ _ Hin) as [(_ & K0 & e & Hd & _ & ->) | (_ & e & Ho & [-> | ->])];
    eauto.
Qed.

Lemma finish_edges (qid : string) (css : list condensedSummary) (m : merged)
      (s : summary) :
  finish pathToKey qid css m = Ret s ->
  s_edges s = fst (edgesToEdgesAndPublications pathToKey (cleanedEdges m)) /\
  s_publications s = snd (edgesToEdgesAndPublications pathToKey (cleanedEdges m)).
Proof.
  unfold finish. intros H. inv_bind H. inversion H; subst. auto.
Qed.

Lemma cleaned_publications_valid (m : merged) (K : string) (e : sedge) (id : string) :
  In (K, e) (cleanedEdges m) -> In id (e_publications e) -> isValidId id = true.
Proof.
  unfold cleanedEdges. intros Hin Hid. apply in_onValues in Hin.
  destruct Hin as (a & _ & ->). simpl in Hid.
  apply filter_In in Hid. tauto.
Qed.

Variable maxHops : nat.

(** C7.  The publications table of the final summary has an entry for an id
    exactly when an edge built from the fragments lists the id among its
    publications (after the filter on valid ids); every id listed by an edge
    of the final summary has an entry; and, the resolver giving a non-empty
    type and url for valid ids, every entry has a non-empty type and url. *)
Theorem publications_iff_listed (qid : string) (answers : list answer) (s : summary) :
  (forall id, isValidId id = true ->
              fst (idToTypeAndUrl id) <> "" /\ snd (idToTypeAndUrl id) <> "") ->
  creativeAnswersToSummary pathToKey maxHops qid answers = Ret s ->
  exists mapping css m,
    Fragment.creativeAnswersToCondensedSummaries
      pathToKey (Canonical.canonical mapping) maxHops answers = Ret css /\
    mergeAll pathToKey (Canonical.canonical mapping) css = Ret m /\
    (forall id,
       (exists p, assoc id (s_publications s) = Some p) <->
       (exists K e, In (K, e) (cleanedEdges m) /\ In id (e_publications e))) /\
    (forall K e id,
       In (K, e) (s_edges s) -> In id (e_publications e) ->
       exists p, assoc id (s_publications s) = Some p) /\
    (forall id p,
       assoc id (s_publications s) = Some p ->
       pub_type p <> "" /\ pub_url p <> "").
Proof.
  intros Hvalid H.
  destruct (SummaryFacts.creativeAnswersToSummary_stages _ _ _ _ H)
    as (mapping & css & m & _ & Hcs & Hm & Hf).
  exists mapping, css, m. split; [exact Hcs | split; [exact Hm|]].
  destruct (finish_edges _ _ _ Hf) as (He & Hp).
  rewrite Hp, He, edges_publications.
  assert (Hpresent : forall id,
             (exists K e, In (K, e) (cleanedEdges m) /\ In id (e_publications e)) ->
             exists p, assoc id (fold_left extendSummaryPublications
                                   (map snd (enumerate (cleanedEdges m))) []) =
                       Some p).
  { intros id (K & e & Hin & Hid).
    destruct (assoc id (fold_left extendSummaryPublications
                          (map snd (enumerate (cleanedEdges m))) []))
      as [p|] eqn:E; [eauto|].
    exfalso. revert E. apply publications_of_edges_present.
    right. exists e. split; [|exact Hid].
    apply in_map_iff. exists (K, e). split; [reflexivity|].
    now apply in_enumerate. }
  assert (Hlisted : forall id p,
             assoc id (fold_left extendSummaryPublications
                         (map snd (enumerate (cleanedEdges m))) []) = Some p ->
             exists K e, In (K, e) (cleanedEdges m) /\ In id (e_publications e) /\
                         p = publicationOf e id).
  { intros id p E. apply publications_of_edges in E.
    destruct E as [E | (e & Hin & Hid & Hpub)]; [discriminate|].
    apply in_map_iff in Hin. destruct Hin as ((K, e') & <- & Hin).
    rewrite in_enumerate in Hin. exists K, e'.
    split; [exact Hin | split; [exact Hid | exact Hpub]]. }
  split; [|split].
  - intros id. split; [|apply Hpresent].
    intros (p & E). destruct (Hlisted _ _ E) as (K & e & Hin & Hid & _). eauto.
  - intros K e id Hin Hid.
    destruct (edges_invariants (cleanedEdges m)) as (t & Et & _ & Hprov).
    rewrite Et in Hin. apply in_untracked in Hin. destruct Hin as (flag & Hin).
    destruct (@provenance_publications _ _ _ _ _ Hprov Hin) as (K0 & e0 & Ho & Epub).
    apply Hpresent. exists K0, e0. split; [exact Ho|]. now rewrite <- Epub.
  - intros id p E. destruct (Hlisted _ _ E) as (K & e & Hin & Hid & ->).
    destruct (Hvalid id (@cleaned_publications_valid _ _ _ _ Hin Hid)) as (Ht & Hu).
    unfold publicationOf.
    destruct (findSnippet id (orEmpty (e_snippets e))); simpl; auto.
Qed.

End WithInterfaces.
End EdgeTableFacts.

Module InverseEdgeFacts.
Import Merge Summarize Results Summary EdgeSpec InverseFacts EdgeTableFacts Stages.
Section WithInterfaces.

Context {BL : Biolink} {EV : Evidence}.
Variable pathToKey : list atom -> string.
Variable maxHops : nat.

Lemma fragmentEdges_stage (qid : string) (answers : list answer) (s : summary) :
  creativeAnswersToSummary pathToKey maxHops qid answers = Ret s ->
  s_edges s =
  fst (edgesToEdgesAndPublications pathToKey
         (fragmentEdges pathToKey maxHops answers)).
Proof.
  intros H.
  destruct (SummaryFacts.creativeAnswersToSummary_stages _ _ _ _ H)
    as (mapping & css & m & Hmap & Hcs & Hm & Hf).
  unfold fragmentEdges, mergedState. rewrite Hmap. simpl. rewrite Hcs. simpl.
  rewrite Hm. now apply finish_edges in Hf.
Qed.

Lemma inverseOf_mirrors (e' e : sedge) :
  inversePath e' = inversePath e -> mirrors (inverseOf e') e.
Proof.
  unfold inversePath, mirrors, inverseOf. intros H. inversion H.
  simpl. auto.
Qed.

Lemma unqualified_inverse (e : sedge) :
  e_qualifiers e = None ->
  edgePredicate e true = invertBiolinkPredicate (e_predicate e).
Proof.
  unfold edgePredicate, Qualified.edgeToQualifiedPredicate. intros ->. reflexivity.
Qed.

(** C1, as amended.  For every edge that the fragments built, the key of the
    path [object, inverse qualified predicate, subject] is present in the
    edges of the final summary, and the entry under it has subject and object
    swapped, the inverse qualified predicate as its predicate (which is
    [invertBiolinkPredicate] of the edge's predicate when the edge has no
    qualifiers) and no qualifiers; and every key of the final edges is a key
    of the fragments or such an inverse key.  Path keys are taken to tell the
    inverse paths of the edges apart. *)
Theorem fragment_edges_have_inverses (qid : string) (answers : list answer)
        (s : summary) :
  creativeAnswersToSummary pathToKey maxHops qid answers = Ret s ->
  (forall K1 e1 K2 e2,
     In (K1, e1) (fragmentEdges pathToKey maxHops answers) ->
     In (K2, e2) (fragmentEdges pathToKey maxHops answers) ->
     inverseKey pathToKey e1 = inverseKey pathToKey e2 ->
     inversePath e1 = inversePath e2) ->
  (forall K e,
     In (K, e) (fragmentEdges pathToKey maxHops answers) ->
     exists inverse,
       assoc (inverseKey pathToKey e) (s_edges s) = Some inverse /\
       mirrors inverse e /\
       (e_qualifiers e = None ->
        e_predicate inverse = invertBiolinkPredicate (e_predicate e))) /\
  (forall K x,
     In (K, x) (s_edges s) ->
     (exists e, In (K, e) (fragmentEdges pathToKey maxHops answers)) \/
     (exists K0 e, In (K0, e) (fragmentEdges pathToKey maxHops answers) /\
                   K = inverseKey pathToKey e /\ mirrors x e)).
Proof.
  intros H Hinj. rewrite (fragmentEdges_stage _ _ H).
  destruct (edges_invariants pathToKey (fragmentEdges pathToKey maxHops answers))
    as (t & Et & Hinst & Hprov).
  rewrite Et. split.
  - intros K e Hin.
    destruct (Hinst _ _ Hin) as (K' & e' & Hin' & Hk & Ha).
    exists (inverseOf e'). rewrite assoc_untracked, Ha. simpl.
    assert (Hm : mirrors (inverseOf e') e)
      by (apply inverseOf_mirrors; eapply Hinj; eauto).
    split; [reflexivity | split; [exact Hm|]].
    intros Hq. destruct Hm as (_ & _ & Hp & _).
    transitivity (edgePredicate e true); [exact Hp | now apply unqualified_inverse].
  - intros K x Hin. apply in_untracked in Hin. destruct Hin as (flag & Hin).
    destruct (Hprov _ _ _ Hin) as [(_ & K0 & e & Hd & -> & ->) | (_ & e & Ho & _)].
    + right. exists K0, e. split; [exact Hd | split; [reflexivity|]].
      now apply inverseOf_mirrors.
    + left. eauto.
Qed.

End WithInterfaces.
End InverseEdgeFacts.

Module InverseEdgeWitness.
Import Merge Summarize Results Summary EdgeSpec Stages Examples.

Lemma directEdges :
  fragmentEdges key 3 directAnswers = [("CHEBI:1|biolink:treats|MONDO:1", directEdge)].
Proof. vm_compute. reflexivity. Qed.

Lemma fragment_edges_have_inverses_witness :
  creativeAnswersToSummary key 3 "Q1" directAnswers = Ret directSummary /\
  (forall K1 e1 K2 e2,
     In (K1, e1) (fragmentEdges key 3 directAnswers) ->
     In (K2, e2) (fragmentEdges key 3 directAnswers) ->
     inverseKey key e1 = inverseKey key e2 ->
     inversePath e1 = inversePath e2) /\
  (forall K e,
     In (K, e) (fragmentEdges key 3 directAnswers) ->
     exists inverse,
       assoc (inverseKey key e) (s_edges directSummary) = Some inverse /\
       mirrors inverse e /\
       (e_qualifiers e = None ->
        e_predicate inverse = invertBiolinkPredicate (e_predicate e))) /\
  (forall K x,
     In (K, x) (s_edges directSummary) ->
     (exists e, In (K, e) (fragmentEdges key 3 directAnswers)) \/
     (exists K0 e, In (K0, e) (fragmentEdges key 3 directAnswers) /\
                   K = inverseKey key e /\ mirrors x e)).
Proof.
  assert (H : creativeAnswersToSummary key 3 "Q1" directAnswers = Ret directSummary)
    by (vm_compute; reflexivity).
  assert (Hinj : forall K1 e1 K2 e2,
             In (K1, e1) (fragmentEdges key 3 directAnswers) ->
             In (K2, e2) (fragmentEdges key 3 directAnswers) ->
             inverseKey key e1 = inverseKey key e2 ->
             inversePath e1 = inversePath e2).
  { rewrite directEdges. intros K1 e1 K2 e2 [E1 | []] [E2 | []] _.
    inversion E1. inversion E2. reflexivity. }
  split; [exact H | split; [exact Hinj|]].
  exact (InverseEdgeFacts.fragment_edges_have_inverses key 3 "Q1" directAnswers H Hinj).
Defined.

(** C1, as stated, fails on the fifth scenario of section 8: the entries of
    the final summary have no qualifiers left, and the key of the inverse
    path of the synthesized entry is not a key of the edges. *)
Lemma synthesized_inverse_has_no_inverse :
  ~ inverseClosed key (s_edges qualifiedSummary).
Proof.
  intros Hc.
  destruct (Hc "NCBIGene:1|increased activity affected by|CHEBI:1"
               {| e_aras := ["ara-a"];
                  e_predicate := AStr "increased activity affected by";
                  e_qualifiers := None;
                  e_subject := AStr "NCBIGene:1";
                  e_object := AStr "CHEBI:1";
                  e_iri_types := [];
                  e_snippets := None;
                  e_publications := [] |})
    as (inverse & Ha & _).
  - vm_compute. auto.
  - vm_compute in Ha. discriminate.
Qed.

End InverseEdgeWitness.

Module PublicationWitness.
Import Merge Summarize Results Summary EdgeSpec Examples.

Lemma publications_iff_listed_witness :
  (forall id, isValidId id = true ->
              fst (idToTypeAndUrl id) <> "" /\ snd (idToTypeAndUrl id) <> "") /\
  creativeAnswersToSummary key 3 "Q1" directAnswers = Ret directSummary /\
  exists mapping css m,
    Fragment.creativeAnswersToCondensedSummaries
      key (Canonical.canonical mapping) 3 directAnswers = Ret css /\
    mergeAll key (Canonical.canonical mapping) css = Ret m /\
    (forall id,
       (exists p, assoc id (s_publications directSummary) = Some p) <->
       (exists K e, In (K, e) (cleanedEdges m) /\ In id (e_publications e))) /\
    (forall K e id,
       In (K, e) (s_edges directSummary) -> In id (e_publications e) ->
       exists p, assoc id (s_publications directSummary) = Some p) /\
    (forall id p,
       assoc id (s_publications directSummary) = Some p ->
       pub_type p <> "" /\ pub_url p <> "").
Proof.
  assert (Hvalid : forall id, isValidId id = true ->
                     fst (idToTypeAndUrl id) <> "" /\ snd (idToTypeAndUrl id) <> "")
    by (intros id _; simpl; split; discriminate).
  assert (H : creativeAnswersToSummary key 3 "Q1" directAnswers = Ret directSummary)
    by (vm_compute; reflexivity).
  split; [exact Hvalid | split; [exact H|]].
  exact (EdgeTableFacts.publications_iff_listed key 3 "Q1" directAnswers Hvalid H).
Defined.

End PublicationWitness.

Module SkipFacts.
Import Merge Summarize Results Summary SkipSpec.
Section WithInterfaces.

Context {BL : Biolink} {EV : Evidence}.
Variable pathToKey : list atom -> string.
Variable canon : string -> atom.
Variable maxHops : nat.

Lemma unbindable_empty (r : trapiResult) (kg : kgraph) :
  unbindable r kg ->
  Fragment.trapiResultToSummaryFragment pathToKey canon maxHops r kg =
  Ret (Fragment.emptyResultFragment).
Proof.
  unfold unbindable, Fragment.trapiResultToSummaryFragment,
    Rgraph.trapiResultToRgraph, Rgraph.makeRgraph.
  intros [Hn | ((edges & He) & Hb)].
  - rewrite Hn. reflexivity.
  - destruct (forallb _ _); [|reflexivity].
    rewrite He. simpl. unfold Rgraph.getBindingId.
    destruct Hb as [(Hs & Ho) | (Ho & Hs)].
    + rewrite Hs. simpl.
      destruct (assoc objectKey (node_bindings r)) as [[|id tl]|]; simpl;
        try reflexivity. now elim Ho.
    + rewrite Ho.
      destruct (assoc subjectKey (node_bindings r)) as [[|id tl]|]; simpl;
        try reflexivity; [now elim Hs|].
      now destruct (nonempty id).
Qed.

Lemma agree_refl (s : list (string * list score)) :
  NoDup (akeys s) -> agree s s.
Proof. unfold agree. auto. Qed.

Lemma merge_sim (acc acc' : summaryFragment) (f : resultFragment) :
  fsim acc acc' ->
  rf_scores f <> [] ->
  fsim (Fragment.mergeSummaryFragments acc f) (Fragment.mergeSummaryFragments acc' f).
Proof.
  intros (Hp & Hn & He & Hd & Hd' & Ha) Hf.
  unfold fsim, Fragment.mergeSummaryFragments; simpl.
  rewrite Hp, Hn, He. repeat split; try reflexivity.
  - now apply akeys_aset_NoDup.
  - now apply akeys_aset_NoDup.
  - intros k Hk. destruct (rf_scores f) as [|(k', v) tl]; [now elim Hf|].
    rewrite !assoc_aset. destruct (String.eqb k k') eqn:E; [|now apply Ha].
    apply String.eqb_eq in E. subst k'. now rewrite (Ha k Hk).
Qed.

Lemma merge_empty_left (acc acc' : summaryFragment) (f : resultFragment) :
  fsim acc acc' ->
  rf_paths f = [] -> rf_nodes f = [] -> rf_edges f = [] -> rf_scores f = [] ->
  fsim (Fragment.mergeSummaryFragments acc f) acc'.
Proof.
  intros (Hp & Hn & He & Hd & Hd' & Ha) E1 E2 E3 E4.
  unfold fsim, Fragment.mergeSummaryFragments; simpl.
  rewrite E1, E2, E3, E4, !app_nil_r. repeat split; try assumption.
  - now apply akeys_aset_NoDup.
  - intros k Hk. rewrite assoc_aset_neq by exact Hk. now apply Ha.
Qed.

Lemma merge_empty_both (acc acc' : summaryFragment) (f : resultFragment) :
  fsim acc acc' ->
  rf_scores f = [] ->
  fsim (Fragment.mergeSummaryFragments acc f) (Fragment.mergeSummaryFragments acc' f).
Proof.
  intros (Hp & Hn & He & Hd & Hd' & Ha) E.
  unfold fsim, Fragment.mergeSummaryFragments; simpl.
  rewrite Hp, Hn, He, E. repeat split; try reflexivity.
  - now apply akeys_aset_NoDup.
  - now apply akeys_aset_NoDup.
  - intros k Hk. rewrite !assoc_aset_neq by exact Hk. now apply Ha.
Qed.

Lemma reduce_sim (kg : kgraph) (rs : list trapiResult) :
  forall acc acc',
    fsim acc acc' ->
    osim fsim (Fragment.reduceResults pathToKey canon maxHops rs kg acc)
              (Fragment.reduceResults pathToKey canon maxHops rs kg acc').
Proof.
  induction rs as [|r tl IH]; simpl; intros acc acc' Hs; [exact Hs|].
  destruct (Fragment.trapiResultToSummaryFragment pathToKey canon maxHops r kg)
    as [|f]; simpl; [exact I|].
  apply IH. destruct (rf_scores f) as [|kv l] eqn:E.
  - now apply merge_empty_both.
  - apply merge_sim; [exact Hs | rewrite E; discriminate].
Qed.

Lemma reduceResults_app (kg : kgraph) (l1 l2 : list trapiResult) :
  forall acc,
    Fragment.reduceResults pathToKey canon maxHops (l1 ++ l2) kg acc =
    bind (Fragment.reduceResults pathToKey canon maxHops l1 kg acc)
         (Fragment.reduceResults pathToKey canon maxHops l2 kg).
Proof.
  induction l1 as [|r tl IH]; simpl; intros acc; [reflexivity|].
  destruct (Fragment.trapiResultToSummaryFragment pathToKey canon maxHops r kg);
    simpl; [reflexivity | apply IH].
Qed.

Lemma reduce_skips (kg : kgraph) (rs1 rs2 : list trapiResult) (r : trapiResult) :
  unbindable r kg ->
  osim fsim
    (Fragment.reduceResults pathToKey canon maxHops (rs1 ++ r :: rs2) kg
       Fragment.emptySummaryFragment)
    (Fragment.reduceResults pathToKey canon maxHops (rs1 ++ rs2) kg
       Fragment.emptySummaryFragment).
Proof.
  intros Hu. rewrite !reduceResults_app.
  destruct (Fragment.reduceResults pathToKey canon maxHops rs1 kg
              Fragment.emptySummaryFragment) as [|f1] eqn:E1; simpl; [exact I|].
  rewrite (unbindable_empty Hu). simpl.
  assert (Hn : NoDup (akeys (sf_scores f1))).
  { eapply ScoreChain.reduceResults_scores; [exact E1 | constructor]. }
  apply reduce_sim. apply merge_empty_left; try reflexivity.
  unfold fsim. repeat split; try reflexivity; assumption.
Qed.

End WithInterfaces.
End SkipFacts.

Module SkipMergeFacts.
Import Merge Summarize Results Summary SkipSpec SkipFacts.
Section WithInterfaces.

Context {BL : Biolink} {EV : Evidence}.
Variable pathToKey : list atom -> string.
Variable canon : string -> atom.
Variable maxHops : nat.

Lemma mapM_rel {A B : Type} (R : B -> B -> Prop) (f : A -> outcome B)
      (l l' : list A) :
  Forall2 (fun x y => osim R (f x) (f y)) l l' ->
  osim (Forall2 R) (Fragment.mapM f l) (Fragment.mapM f l').
Proof.
  induction 1 as [|x y l l' Hxy _ IH]; simpl; [constructor|].
  destruct (f x) as [|b], (f y) as [|b']; simpl in *; try contradiction; [exact I|].
  destruct (Fragment.mapM f l) as [|bs], (Fragment.mapM f l') as [|bs'];
    simpl in *; try contradiction; [exact I|].
  now constructor.
Qed.

Lemma answer_sim_refl (a : answer) :
  osim csim (Fragment.answerToCondensedSummary pathToKey canon maxHops a)
            (Fragment.answerToCondensedSummary pathToKey canon maxHops a).
Proof.
  unfold Fragment.answerToCondensedSummary.
  destruct (Fragment.reduceResults pathToKey canon maxHops (results (message a))
              (knowledge_graph (message a)) Fragment.emptySummaryFragment)
    as [|f] eqn:E; simpl; [exact I|].
  assert (Hn : NoDup (akeys (sf_scores f))).
  { eapply ScoreChain.reduceResults_scores; [exact E | constructor]. }
  unfold csim, fsim, agree. simpl. auto 10.
Qed.

Lemma answer_sim_skips (a : answer) (rs1 rs2 : list trapiResult) (r : trapiResult) :
  results (message a) = rs1 ++ r :: rs2 ->
  unbindable r (knowledge_graph (message a)) ->
  osim csim (Fragment.answerToCondensedSummary pathToKey canon maxHops a)
            (Fragment.answerToCondensedSummary pathToKey canon maxHops
               (withResults a (rs1 ++ rs2))).
Proof.
  intros Hr Hu. unfold Fragment.answerToCondensedSummary. simpl. rewrite Hr.
  pose proof (@reduce_skips _ pathToKey canon maxHops _ rs1 rs2 r Hu) as Hs.
  destruct (Fragment.reduceResults pathToKey canon maxHops (rs1 ++ r :: rs2) _ _)
    as [|f], (Fragment.reduceResults pathToKey canon maxHops (rs1 ++ rs2) _ _)
    as [|f']; simpl in *; try contradiction; [exact I|].
  split; [reflexivity | exact Hs].
Qed.

Lemma answers_sim (pre post : list answer) (a : answer)
      (rs1 rs2 : list trapiResult) (r : trapiResult) :
  results (message a) = rs1 ++ r :: rs2 ->
  unbindable r (knowledge_graph (message a)) ->
  osim (Forall2 csim)
    (Fragment.creativeAnswersToCondensedSummaries pathToKey canon maxHops
       (pre ++ a :: post))
    (Fragment.creativeAnswersToCondensedSummaries pathToKey canon maxHops
       (pre ++ withResults a (rs1 ++ rs2) :: post)).
Proof.
  intros Hr Hu. apply mapM_rel. apply Forall2_app.
  - induction pre; constructor; [apply answer_sim_refl | assumption].
  - constructor; [now apply answer_sim_skips with (r := r)|].
    induction post; constructor; [apply answer_sim_refl | assumption].
Qed.

Lemma extendSummaryScores_assoc (new scores : list (string * list score))
      (k : string) :
  NoDup (akeys new) ->
  assoc k (extendSummaryScores scores new) =
  match assoc k new with
  | Some l => Some (ScoreTrace.scoresOf scores k ++ l)
  | None => assoc k scores
  end.
Proof.
  unfold extendSummaryScores.
  revert scores. induction new as [|(k', l) tl IH]; simpl; intros scores Hn;
    [reflexivity|].
  inversion Hn as [|? ? Hk Htl]; subst. rewrite (IH _ Htl).
  destruct (String.eqb k k') eqn:E.
  - apply String.eqb_eq in E. subst k'.
    rewrite (assoc_not_In _ _ Hk), assoc_aset_eq. reflexivity.
  - apply String.eqb_neq in E.
    rewrite ScoreFacts.scoresOf_aset, assoc_aset_neq by exact E.
    apply String.eqb_neq in E. now rewrite E.
Qed.

Lemma extend_sim (m m' : merged) (cs cs' : condensedSummary) :
  msim m m' -> csim cs cs' ->
  osim msim (extendSummary pathToKey canon m cs)
            (extendSummary pathToKey canon m' cs').
Proof.
  intros (Hr & Hp & Hn & He & Hs) (Ha & Hfp & Hfn & Hfe & Hd & Hd' & Hfs).
  unfold extendSummary. rewrite Hr, Hp, Hn, He, Ha, Hfp, Hfn, Hfe.
  destruct (extendSummaryNodes _ _ _) as [|nodes]; simpl; [exact I|].
  destruct (extendSummaryEdges _ _ _ _) as [|edges]; simpl; [exact I|].
  unfold msim; simpl. repeat split; try reflexivity.
  intros k Hk. rewrite !extendSummaryScores_assoc by assumption.
  rewrite (Hfs k Hk), (Hs k Hk). unfold ScoreTrace.scoresOf.
  now rewrite (Hs k Hk).
Qed.

Lemma mergeAll_sim (css css' : list condensedSummary) :
  Forall2 csim css css' ->
  forall m m', msim m m' ->
    osim msim (foldM (extendSummary pathToKey canon) css m)
              (foldM (extendSummary pathToKey canon) css' m').
Proof.
  induction 1 as [|cs cs' css css' Hc _ IH]; simpl; intros m m' Hm; [exact Hm|].
  pose proof (extend_sim Hm Hc) as Hs.
  destruct (extendSummary pathToKey canon m cs) as [|m1],
    (extendSummary pathToKey canon m' cs') as [|m1'];
    simpl in *; try contradiction; [exact I|].
  now apply IH.
Qed.

Lemma csim_agents (css css' : list condensedSummary) :
  Forall2 csim css css' -> map cs_agent css = map cs_agent css'.
Proof.
  induction 1 as [|cs cs' css css' (Ha & _) _ IH]; simpl; [reflexivity|].
  now rewrite Ha, IH.
Qed.

End WithInterfaces.
End SkipMergeFacts.

Module PathHeadFacts.
Import Merge Summarize Results Summary.
Section WithInterfaces.

Context {BL : Biolink} {EV : Evidence}.
Variable pathToKey : list atom -> string.
Variable canon : string -> atom.
Variable maxHops : nat.

Hypothesis canon_defined : forall n, render (canon n) <> "undefined".

Lemma pop_some {A : Type} (l l' : list A) (x : A) :
  Rgraph.pop l = Some (l', x) -> l = l' ++ [x].
Proof.
  unfold Rgraph.pop. destruct (rev l) as [|y r] eqn:E; [discriminate|].
  intros H. inversion H; subst.
  rewrite <- (rev_involutive l), E. reflexivity.
Qed.

Lemma rgraphFold_all {A B : Type} (P : A -> Prop) (Q : B -> Prop)
      (proc : A -> list A * list B) :
  (forall x, P x -> Forall P (fst (proc x)) /\ Forall Q (snd (proc x))) ->
  forall fuel objLeft res r,
    Forall P objLeft -> Forall Q res ->
    Rgraph.rgraphFold fuel proc objLeft res = Some r -> Forall Q r.
Proof.
  intros Hproc. induction fuel as [|fuel IH]; simpl; intros objLeft res r HP HQ H;
    [discriminate|].
  destruct (Rgraph.pop objLeft) as [(l', top)|] eqn:E.
  - apply pop_some in E. subst objLeft. apply Forall_app in HP.
    destruct HP as (HP & Htop). apply Forall_inv in Htop.
    destruct (Hproc top Htop) as (Hfst & Hsnd).
    eapply IH; [| |exact H]; apply Forall_app; auto.
  - inversion H; subst. exact HQ.
Qed.

Lemma rgraphPaths_nonempty (outEdges : list (string * list Rgraph.outEdge))
      (disease drug : string) (fuel : nat) (ps : list (list string)) :
  Rgraph.rgraphPaths canon outEdges disease maxHops fuel drug = Some ps ->
  Forall (fun p => p <> []) ps.
Proof.
  unfold Rgraph.rgraphPaths.
  apply rgraphFold_all with (P := fun p : list string => p <> []).
  - intros p Hp. unfold Rgraph.extend.
    destruct (Nat.ltb _ _); [simpl; auto|].
    destruct (String.eqb _ _); simpl; [auto|].
    split; [|constructor]. apply Forall_forall. intros c Hc.
    apply in_map_iff in Hc. destruct Hc as (oe & <- & _).
    intros E. apply app_eq_nil in E. destruct E as (_ & E). discriminate.
  - constructor; [discriminate | constructor].
  - constructor.
Qed.

Lemma normalizePath_head (path : list string) (kg : kgraph) (p : list atom) :
  path <> [] ->
  Fragment.normalizePath pathToKey canon path kg = Ret p ->
  pathDrug p <> "undefined".
Proof.
  destruct path as [|n [|e tl]]; simpl; intros Hne H.
  - now elim Hne.
  - inversion H; subst. simpl. apply canon_defined.
  - inv_bind H. inv_bind H. inversion H; subst. simpl. apply canon_defined.
Qed.

Lemma mapM_Forall {A B : Type} (P : A -> Prop) (Q : B -> Prop)
      (f : A -> outcome B) (l : list A) (l' : list B) :
  (forall x y, P x -> f x = Ret y -> Q y) ->
  Forall P l -> Fragment.mapM f l = Ret l' -> Forall Q l'.
Proof.
  intros Hf. revert l'. induction l as [|x tl IH]; simpl; intros l' HP H.
  - inversion H; subst. constructor.
  - inv_bind H. inv_bind H. inversion H; subst; clear H.
    inversion HP; subst. constructor; eauto.
Qed.

Lemma fragment_paths_head (r : trapiResult) (kg : kgraph) (f : resultFragment) :
  Fragment.trapiResultToSummaryFragment pathToKey canon maxHops r kg = Ret f ->
  Forall (fun p => pathDrug p <> "undefined") (rf_paths f).
Proof.
  unfold Fragment.trapiResultToSummaryFragment. intros H.
  repeat (first
    [ inv_bind H
    | match type of H with
      | context [match ?x with _ => _ end] => destruct x eqn:?
      end ]);
    try discriminate; inversion H; subst; clear H; simpl; try constructor.
  match goal with
  | Hn : Fragment.normalizePaths _ _ _ _ = Ret _,
    Hp : Rgraph.rgraphPaths _ _ _ _ _ _ = Some _ |- _ =>
      unfold Fragment.normalizePaths in Hn;
      eapply mapM_Forall; [|eapply rgraphPaths_nonempty; exact Hp | exact Hn]
  end.
  intros x y Hx Hy. simpl in Hx, Hy. exact (@normalizePath_head x kg y Hx Hy).
Qed.

Lemma reduceResults_paths_head (kg : kgraph) (rs : list trapiResult) :
  forall acc f,
    Fragment.reduceResults pathToKey canon maxHops rs kg acc = Ret f ->
    Forall (fun p => pathDrug p <> "undefined") (sf_paths acc) ->
    Forall (fun p => pathDrug p <> "undefined") (sf_paths f).
Proof.
  induction rs as [|r tl IH]; simpl; intros acc f H Hacc.
  - inversion H; subst. exact Hacc.
  - inv_bind H. eapply IH; [exact H|]. simpl.
    apply Forall_app. split; [exact Hacc | eapply fragment_paths_head; eauto].
Qed.

Lemma condensed_paths_head (answers : list answer) (css : list condensedSummary) :
  Fragment.creativeAnswersToCondensedSummaries
    pathToKey canon maxHops answers = Ret css ->
  Forall (fun cs => Forall (fun p => pathDrug p <> "undefined")
                           (sf_paths (cs_fragment cs))) css.
Proof.
  unfold Fragment.creativeAnswersToCondensedSummaries.
  apply mapM_Forall with (P := fun _ => True).
  - intros a cs _ H. unfold Fragment.answerToCondensedSummary in H.
    inv_bind H. inversion H; subst. simpl.
    eapply reduceResults_paths_head; [exact Ha | constructor].
  - apply Forall_forall. auto.
Qed.

Lemma extendSummaryPaths_head (new : list (list atom)) (agent : string) :
  forall paths,
    (forall K p, In (K, p) paths -> pathDrug (subgraph p) <> "undefined") ->
    Forall (fun p => pathDrug p <> "undefined") new ->
    forall K p, In (K, p) (extendSummaryPaths pathToKey paths new agent) ->
                pathDrug (subgraph p) <> "undefined".
Proof.
  unfold extendSummaryPaths.
  induction new as [|x tl IH]; simpl; intros paths Hp Hn K p Hin; [eauto|].
  inversion Hn as [|? ? Hx Htl]; subst.
  eapply IH; [|exact Htl | exact Hin].
  intros K' p' Hin'.
  destruct (assoc (pathToKey x) paths) as [existing|] eqn:E;
    apply in_aset in Hin'; destruct Hin' as [(_ & ->) | Hin']; simpl; eauto.
  apply assoc_In in E. eauto.
Qed.

Lemma mergeAll_paths_head (css : list condensedSummary) :
  forall m0 m,
    foldM (extendSummary pathToKey canon) css m0 = Ret m ->
    Forall (fun cs => Forall (fun p => pathDrug p <> "undefined")
                             (sf_paths (cs_fragment cs))) css ->
    (forall K p, In (K, p) (m_paths m0) -> pathDrug (subgraph p) <> "undefined") ->
    forall K p, In (K, p) (m_paths m) -> pathDrug (subgraph p) <> "undefined".
Proof.
  induction css as [|cs tl IH]; simpl; intros m0 m H Hf H0.
  - inversion H; subst. exact H0.
  - inv_bind H. inversion Hf as [|? ? Hcs Htl]; subst.
    eapply IH; [exact H | exact Htl|].
    unfold extendSummary in Ha. inv_bind Ha. inv_bind Ha.
    inversion Ha; subst; clear Ha. simpl.
    now apply extendSummaryPaths_head.
Qed.

End WithInterfaces.
End PathHeadFacts.

Module RecoveryFacts.
Import Merge Summarize Results Summary SkipSpec SkipFacts SkipMergeFacts
       PathHeadFacts.
Section WithInterfaces.

Context {BL : Biolink} {EV : Evidence}.
Variable pathToKey : list atom -> string.
Variable maxHops : nat.

Lemma mapM_ext {A B : Type} (f g : A -> outcome B) (l : list A) :
  (forall x, f x = g x) -> Fragment.mapM f l = Fragment.mapM g l.
Proof.
  intros H. induction l as [|x tl IH]; simpl; [reflexivity|].
  now rewrite H, IH.
Qed.

Lemma expandResult_scores (paths : list (string * pathEntry))
      (nodes : list (string * snode)) (scores scores' : list (string * list score))
      (ps : list string) :
  (forall K p, In (K, p) paths -> pathDrug (subgraph p) <> "undefined") ->
  (forall k, k <> "undefined" -> assoc k scores = assoc k scores') ->
  expandResult paths nodes scores ps = expandResult paths nodes scores' ps.
Proof.
  intros Hp Hs. unfold expandResult.
  destruct (Fragment.mapM _ ps) as [|resolved] eqn:E; simpl; [reflexivity|].
  destruct resolved as [|(pid, [|drug sub]) tl]; try reflexivity.
  assert (Hd : render drug <> "undefined").
  { destruct ps as [|pid' ps']; simpl in E; [discriminate|].
    inv_bind E. inv_bind E. inversion E; subst; clear E.
    inv_bind Ha. inversion Ha; subst; clear Ha.
    unfold getPathFromPid in Ha1.
    destruct (assoc pid paths) as [p|] eqn:Ep; [|discriminate].
    inversion Ha1 as [Hsub]. apply assoc_In in Ep.
    specialize (Hp _ _ Ep). rewrite Hsub in Hp. exact Hp. }
  now rewrite (Hs _ Hd).
Qed.

Lemma finish_sim (qid : string) (css css' : list condensedSummary) (m m' : merged) :
  msim m m' ->
  (forall K p, In (K, p) (m_paths m) -> pathDrug (subgraph p) <> "undefined") ->
  map cs_agent css = map cs_agent css' ->
  finish pathToKey qid css m = finish pathToKey qid css' m'.
Proof.
  intros (Hr & Hp & Hn & He & Hs) Hhead Ha.
  unfold finish, cleanedEdges, expandResults.
  rewrite <- Hr, <- Hp, <- Hn, <- He, <- Ha.
  rewrite (mapM_ext (expandResult (m_paths m) (onValues cleanNode (m_nodes m))
                       (m_scores m))
                    (expandResult (m_paths m) (onValues cleanNode (m_nodes m))
                       (m_scores m'))); [reflexivity|].
  intros ps. now apply expandResult_scores.
Qed.

Lemma canonical_defined (mapping : list (string * string)) :
  (forall k c, In (k, c) mapping -> c <> "undefined") ->
  forall n, render (Canonical.canonical mapping n) <> "undefined".
Proof.
  intros H n. unfold Canonical.canonical.
  destruct (assoc n mapping) as [c|] eqn:E; [|discriminate].
  destruct (nonempty c); [|discriminate].
  simpl. apply assoc_In in E. eauto.
Qed.

Lemma resultNodes_withResults (pre post : list answer) (a : answer)
      (rs : list trapiResult) :
  resultNodes (pre ++ withResults a rs :: post) = resultNodes (pre ++ a :: post).
Proof. unfold resultNodes. now rewrite !map_app. Qed.

(** X28.  A result that binds a CURIE absent from the nodes of the
    knowledge graph, or whose edge bindings are all in the knowledge graph
    and whose [sn] or [on] binding is missing (the other one not being an
    empty array), gives an empty fragment; and, no canonical node key being
    the string "undefined", the final summary is the one obtained without
    that result. *)
Theorem unbindable_result_is_skipped (qid : string) (pre post : list answer)
        (a : answer) (rs1 rs2 : list trapiResult) (r : trapiResult) :
  results (message a) = rs1 ++ r :: rs2 ->
  unbindable r (knowledge_graph (message a)) ->
  (forall mapping,
     Canonical.makeCanonicalNodeMapping (resultNodes (pre ++ a :: post)) =
       Ret mapping ->
     forall k c, In (k, c) mapping -> c <> "undefined") ->
  (forall canon,
     Fragment.trapiResultToSummaryFragment pathToKey canon maxHops r
       (knowledge_graph (message a)) = Ret Fragment.emptyResultFragment) /\
  creativeAnswersToSummary pathToKey maxHops qid (pre ++ a :: post) =
  creativeAnswersToSummary pathToKey maxHops qid
    (pre ++ withResults a (rs1 ++ rs2) :: post).
Proof.
  intros Hr Hu Hmap. split; [intros canon; now apply unbindable_empty|].
  unfold creativeAnswersToSummary. rewrite resultNodes_withResults.
  destruct (Canonical.makeCanonicalNodeMapping (resultNodes (pre ++ a :: post)))
    as [|mapping] eqn:Em; simpl; [reflexivity|].
  pose proof (@canonical_defined mapping (Hmap mapping eq_refl)) as Hcanon.
  pose proof (@answers_sim _ pathToKey (Canonical.canonical mapping) maxHops
                pre post a rs1 rs2 r Hr Hu) as Hcs.
  destruct (Fragment.creativeAnswersToCondensedSummaries _ _ _ (pre ++ a :: post))
    as [|css] eqn:Ecss,
    (Fragment.creativeAnswersToCondensedSummaries _ _ _
       (pre ++ withResults a (rs1 ++ rs2) :: post)) as [|css'];
    simpl in *; try contradiction; [reflexivity|].
  unfold condensedSummariesToSummary, mergeAll.
  assert (H0 : msim emptyMerged emptyMerged)
    by (unfold msim; repeat split; reflexivity).
  pose proof (@mergeAll_sim _ pathToKey (Canonical.canonical mapping)
                css css' Hcs _ _ H0) as Hm.
  destruct (foldM _ css emptyMerged) as [|m] eqn:Emm,
    (foldM _ css' emptyMerged) as [|m'];
    simpl in *; try contradiction; [reflexivity|].
  apply finish_sim; [exact Hm | | now apply csim_agents].
  eapply mergeAll_paths_head; [exact Emm | | intros K p []].
  eapply condensed_paths_head; [exact Hcanon | exact Ecss].
Qed.

End WithInterfaces.
End RecoveryFacts.

Module RecoveryWitness.
Import Merge Summarize Results Summary SkipSpec Examples.

Lemma unbindable_result_is_skipped_witness :
  results (message absentAnswer) = [directResult] ++ absentResult :: [] /\
  unbindable absentResult (knowledge_graph (message absentAnswer)) /\
  (forall mapping,
     Canonical.makeCanonicalNodeMapping (resultNodes ([] ++ absentAnswer :: [])) =
       Ret mapping ->
     forall k c, In (k, c) mapping -> c <> "undefined") /\
  (forall canon,
     Fragment.trapiResultToSummaryFragment key canon 3 absentResult
       (knowledge_graph (message absentAnswer)) = Ret Fragment.emptyResultFragment) /\
  creativeAnswersToSummary key 3 "Q1" ([] ++ absentAnswer :: []) =
  creativeAnswersToSummary key 3 "Q1"
    ([] ++ withResults absentAnswer ([directResult] ++ []) :: []).
Proof.
  assert (H1 : results (message absentAnswer) = [directResult] ++ absentResult :: [])
    by reflexivity.
  assert (H2 : unbindable absentResult (knowledge_graph (message absentAnswer)))
    by (left; vm_compute; reflexivity).
  assert (H3 : forall mapping,
             Canonical.makeCanonicalNodeMapping
               (resultNodes ([] ++ absentAnswer :: [])) = Ret mapping ->
             forall k c, In (k, c) mapping -> c <> "undefined").
  { intros mapping E. vm_compute in E. inversion E; subst.
    intros k c [H | [H | []]]; inversion H; discriminate. }
  split; [exact H1 | split; [exact H2 | split; [exact H3|]]].
  exact (RecoveryFacts.unbindable_result_is_skipped key 3 "Q1" [] []
           absentAnswer [directResult] [] H1 H2 H3).
Defined.

(** C5.  The summarizer does not recover from every bad result: for a
    result without an [sn] binding that also binds an edge absent from the
    knowledge graph, reading that edge throws before the bindings are looked
    at, and no summary is returned, although the same answer without that
    result has one. *)
Lemma dangling_edge_binding_throws :
  badResult danglingResult (knowledge_graph (message danglingAnswer)) /\
  creativeAnswersToSummary key 3 "Q1" [danglingAnswer] = Threw /\
  creativeAnswersToSummary key 3 "Q1"
    [withResults danglingAnswer [directResult]] = Ret directSummary /\
  ~ recovers key 3.
Proof.
  split; [left; reflexivity|].
  split; [vm_compute; reflexivity|].
  split; [vm_compute; reflexivity|].
  intros H.
  specialize (H "Q1" [] [] danglingAnswer [directResult] [] danglingResult
                eq_refl (or_introl eq_refl)).
  vm_compute in H. discriminate.
Qed.

End RecoveryWitness.

Module KeySetFacts.
Import Merge Summarize Results Summary OrderSpec.
Section WithInterfaces.

Context {BL : Biolink} {EV : Evidence}.
Variable pathToKey : list atom -> string.
Variable canon : string -> atom.



Lemma akeys_onValues {A C : Type} (f : string -> A -> C) (m : list (string * A)) :
  akeys (onValues f m) = akeys m.
Proof.
  unfold akeys, onValues. rewrite map_map. simpl. reflexivity.
Qed.

Lemma results_keys (new : list (list atom)) :
  forall results k,
    In k (akeys (extendSummaryResults pathToKey results new)) <->
    In k (akeys results) \/ exists p, In p new /\ k = pathDrug p.
Proof.
  unfold extendSummaryResults.
  induction new as [|x tl IH]; simpl; intros results k.
  - split; [auto | intros [H | (p & [] & _)]; exact H].
  - rewrite IH, akeys_aset_In. split.
    + intros [[H | H] | (p & Hp & E)]; eauto.
    + intros [H | (p & [<- | Hp] & E)]; eauto.
Qed.

Lemma paths_keys (new : list (list atom)) (agent : string) :
  forall paths k,
    In k (akeys (extendSummaryPaths pathToKey paths new agent)) <->
    In k (akeys paths) \/ exists p, In p new /\ k = pathToKey p.
Proof.
  unfold extendSummaryPaths.
  induction new as [|x tl IH]; simpl; intros paths k.
  - split; [auto | intros [H | (p & [] & _)]; exact H].
  - rewrite IH.
    assert (Hk : forall v, In k (akeys (aset (pathToKey x) v paths)) <->
                           In k (akeys paths) \/ k = pathToKey x)
      by (intros v; apply akeys_aset_In).
    destruct (assoc (pathToKey x) paths) as [existing|]; rewrite Hk; split.
    + intros [[H | H] | (p & Hp & E)]; eauto.
    + intros [H | (p & [<- | Hp] & E)]; eauto.
    + intros [[H | H] | (p & Hp & E)]; eauto.
    + intros [H | (p & [<- | Hp] & E)]; eauto.
Qed.

Lemma obj_keys {O U : Type} (empty : O) (key : U -> string)
      (transforms : U -> list (O -> outcome O)) (push : string -> O -> O)
      (agent : string) (updates : list U) :
  forall objs objs',
    extendSummaryObj empty key transforms push objs updates agent = Ret objs' ->
    forall k, In k (akeys objs') <->
              In k (akeys objs) \/ exists u, In u updates /\ k = key u.
Proof.
  unfold extendSummaryObj.
  induction updates as [|u tl IH]; simpl; intros objs objs' H k.
  - inversion H; subst. split; [auto | intros [H' | (u & [] & _)]; exact H'].
  - inv_bind H. inv_bind Ha. inversion Ha; subst; clear Ha.
    rewrite (IH _ _ H), akeys_aset_In. split.
    + intros [[H' | H'] | (u' & Hu & E)]; eauto.
    + intros [H' | (u' & [<- | Hu] & E)]; eauto.
Qed.

Lemma mergeAll_keys (css : list condensedSummary) :
  forall m0 m,
    foldM (extendSummary pathToKey canon) css m0 = Ret m ->
    (forall k, In k (akeys (m_results m)) <->
               In k (akeys (m_results m0)) \/
               exists p, In p (pathsOf css) /\ k = pathDrug p) /\
    (forall k, In k (akeys (m_paths m)) <->
               In k (akeys (m_paths m0)) \/
               exists p, In p (pathsOf css) /\ k = pathToKey p) /\
    (forall k, In k (akeys (m_edges m)) <->
               In k (akeys (m_edges m0)) \/
               exists u, In u (edgesOf css) /\ k = eu_key u).
Proof.
  induction css as [|cs tl IH]; simpl; intros m0 m H.
  - inversion H; subst.
    repeat split; auto; intros [H' | (x & [] & _)]; exact H'.
  - inv_bind H. destruct (IH _ _ H) as (Hr & Hp & He). clear IH H.
    unfold extendSummary in Ha. inv_bind Ha. inv_bind Ha.
    inversion Ha; subst; clear Ha. simpl in *.
    unfold extendSummaryEdges in Ha1.
    pose proof (obj_keys _ _ _ _ _ _ _ Ha1) as Hobj.
    split; [|split]; intros k.
    + rewrite Hr, results_keys. unfold pathsOf. simpl.
      split.
      * intros [[H | (p & Hin & E)] | (p & Hin & E)]; eauto.
        -- right. exists p. split; [apply in_or_app; auto | exact E].
        -- right. exists p. split; [apply in_or_app; auto | exact E].
      * intros [H | (p & Hin & E)]; [auto|].
        apply in_app_or in Hin. destruct Hin; eauto.
    + rewrite Hp, paths_keys. unfold pathsOf. simpl.
      split.
      * intros [[H | (p & Hin & E)] | (p & Hin & E)]; eauto.
        -- right. exists p. split; [apply in_or_app; auto | exact E].
        -- right. exists p. split; [apply in_or_app; auto | exact E].
      * intros [H | (p & Hin & E)]; [auto|].
        apply in_app_or in Hin. destruct Hin; eauto.
    + rewrite He, Hobj. unfold edgesOf. simpl.
      split.
      * intros [[H | (u & Hin & E)] | (u & Hin & E)]; eauto.
        -- right. exists u. split; [apply in_or_app; auto | exact E].
        -- right. exists u. split; [apply in_or_app; auto | exact E].
      * intros [H | (u & Hin & E)]; [auto|].
        apply in_app_or in Hin. destruct Hin; eauto.
Qed.

End WithInterfaces.
End KeySetFacts.

Module BucketFacts.
Import Merge Summarize Results Summary OrderSpec.
Section WithInterfaces.

Context {BL : Biolink} {EV : Evidence}.
Variable pathToKey : list atom -> string.
Variable canon : string -> atom.

(** The paths that the entries and the buckets may come from. *)
Variable S : list atom -> Prop.

Lemma paths_inv (new : list (list atom)) (agent : string) :
  forall paths,
    (forall K pe, In (K, pe) paths ->
                  S (subgraph pe) /\ pathToKey (subgraph pe) = K) ->
    (forall p, In p new -> S p) ->
    forall K pe, In (K, pe) (extendSummaryPaths pathToKey paths new agent) ->
                 S (subgraph pe) /\ pathToKey (subgraph pe) = K.
Proof.
  unfold extendSummaryPaths.
  induction new as [|x tl IH]; simpl; intros paths Hp Hn K pe Hin; [eauto|].
  eapply IH; [| |exact Hin]; [|auto].
  intros K' pe' Hin'.
  destruct (assoc (pathToKey x) paths) as [existing|] eqn:E;
    apply in_aset in Hin'; destruct Hin' as [(-> & ->) | Hin']; simpl; eauto.
  apply assoc_In in E. eauto.
Qed.

Lemma results_inv (new : list (list atom)) :
  forall results,
    (forall k pids, In (k, pids) results ->
       forall pid, In pid pids ->
         exists p, S p /\ pid = pathToKey p /\ pathDrug p = k) ->
    (forall p, In p new -> S p) ->
    forall k pids, In (k, pids) (extendSummaryResults pathToKey results new) ->
      forall pid, In pid pids ->
        exists p, S p /\ pid = pathToKey p /\ pathDrug p = k.
Proof.
  unfold extendSummaryResults.
  induction new as [|x tl IH]; simpl; intros results Hr Hn k pids Hin; [eauto|].
  eapply IH; [| |exact Hin]; [|auto].
  intros k' pids' Hin' pid Hpid.
  apply in_aset in Hin'. destruct Hin' as [(-> & ->) | Hin']; [|eauto].
  apply in_app_or in Hpid. destruct Hpid as [Hpid | [<- | []]].
  - destruct (assoc (pathDrug x) results) as [l|] eqn:E; [|destruct Hpid].
    apply assoc_In in E. eauto.
  - exists x. auto.
Qed.

Lemma mergeAll_inv (css : list condensedSummary) :
  forall m0 m,
    foldM (extendSummary pathToKey canon) css m0 = Ret m ->
    (forall cs, In cs css -> forall p, In p (sf_paths (cs_fragment cs)) -> S p) ->
    (forall K pe, In (K, pe) (m_paths m0) ->
                  S (subgraph pe) /\ pathToKey (subgraph pe) = K) ->
    (forall k pids, In (k, pids) (m_results m0) ->
       forall pid, In pid pids ->
         exists p, S p /\ pid = pathToKey p /\ pathDrug p = k) ->
    (forall K pe, In (K, pe) (m_paths m) ->
                  S (subgraph pe) /\ pathToKey (subgraph pe) = K) /\
    (forall k pids, In (k, pids) (m_results m) ->
       forall pid, In pid pids ->
         exists p, S p /\ pid = pathToKey p /\ pathDrug p = k).
Proof.
  induction css as [|cs tl IH]; simpl; intros m0 m H Hs Hp Hr.
  - inversion H; subst. auto.
  - inv_bind H.
    assert (Hcs : forall p, In p (sf_paths (cs_fragment cs)) -> S p)
      by (intros p Hin; eapply Hs; [left; reflexivity | exact Hin]).
    assert (Htl : forall cs', In cs' tl ->
                    forall p, In p (sf_paths (cs_fragment cs')) -> S p)
      by (intros cs' Hin; apply Hs; right; exact Hin).
    unfold extendSummary in Ha. inv_bind Ha. inv_bind Ha.
    inversion Ha; subst; clear Ha.
    apply (IH _ _ H Htl); simpl.
    + now apply paths_inv.
    + now apply results_inv.
Qed.

Hypothesis keys_tell_apart :
  forall p q, S p -> S q -> pathToKey p = pathToKey q -> p = q.

Lemma expandResult_subject (paths : list (string * pathEntry))
      (nodes : list (string * snode)) (scores : list (string * list score))
      (k : string) (pids : list string) (r : result) :
  (forall K pe, In (K, pe) paths ->
                S (subgraph pe) /\ pathToKey (subgraph pe) = K) ->
  (forall pid, In pid pids ->
     exists p, S p /\ pid = pathToKey p /\ pathDrug p = k) ->
  expandResult paths nodes scores (dedup pids) = Ret r ->
  render (r_subject r) = k.
Proof.
  intros Hp Hb H. unfold expandResult in H. inv_bind H.
  destruct a as [|(pid, [|drug sub]) tl]; try discriminate.
  inv_bind H. inv_bind H. inv_bind H. inversion H; subst; clear H. simpl.
  destruct pids as [|pid0 rest]; simpl in Ha; [discriminate|].
  inv_bind Ha. inv_bind Ha. inversion Ha; subst; clear Ha.
  inv_bind Ha3. inversion Ha3; subst; clear Ha3.
  unfold getPathFromPid in Ha.
  destruct (assoc pid paths) as [pe|] eqn:E; [|discriminate].
  inversion Ha as [Hsub]. apply assoc_In in E.
  destruct (Hp _ _ E) as (HS & HK).
  destruct (Hb pid (or_introl eq_refl)) as (p & HSp & Hpid & Hd).
  assert (Heq : subgraph pe = p).
  { apply keys_tell_apart; try assumption. now rewrite HK. }
  rewrite <- Hd, <- Heq, Hsub. reflexivity.
Qed.

End WithInterfaces.
End BucketFacts.

Module OrderFacts.
Import Merge Summarize Results Summary OrderSpec Stages KeySetFacts BucketFacts.
Section WithInterfaces.

Context {BL : Biolink} {EV : Evidence}.
Variable pathToKey : list atom -> string.
Variable maxHops : nat.

Lemma stage_definitions (qid : string) (answers : list answer) (s : summary) :
  creativeAnswersToSummary pathToKey maxHops qid answers = Ret s ->
  exists mapping css m,
    Canonical.makeCanonicalNodeMapping (resultNodes answers) = Ret mapping /\
    Fragment.creativeAnswersToCondensedSummaries
      pathToKey (Canonical.canonical mapping) maxHops answers = Ret css /\
    mergeAll pathToKey (Canonical.canonical mapping) css = Ret m /\
    finish pathToKey qid css m = Ret s /\
    fragmentPaths pathToKey maxHops answers = pathsOf css /\
    fragmentEdges pathToKey maxHops answers = cleanedEdges m.
Proof.
  intros H.
  destruct (SummaryFacts.creativeAnswersToSummary_stages _ _ _ _ H)
    as (mapping & css & m & Hmap & Hcs & Hm & Hf).
  exists mapping, css, m. repeat split; try assumption.
  - unfold fragmentPaths, condensed. rewrite Hmap. simpl. now rewrite Hcs.
  - unfold fragmentEdges, mergedState. rewrite Hmap. simpl. rewrite Hcs. simpl.
    now rewrite Hm.
Qed.





End WithInterfaces.
End OrderFacts.

Module CanonicalUseFacts.
Import Merge Summarize Results Summary.
Section WithInterfaces.

Context {BL : Biolink}.
Variable pathToKey : list atom -> string.
Variable maxHops : nat.

(** Two resolvers that give the same canonical node to every CURIE. *)
Variables canon canon' : string -> atom.
Hypothesis same_canonical : forall c, canon c = canon' c.









End WithInterfaces.
End CanonicalUseFacts.

Module OrderTheorem.
Import Merge Summarize Results Summary OrderSpec Stages KeySetFacts BucketFacts
       OrderFacts.
Section WithInterfaces.

Context {BL : Biolink} {EV : Evidence}.
Variable pathToKey : list atom -> string.
Variable maxHops : nat.





End WithInterfaces.
End OrderTheorem.

Module OrderWitness.
Import Merge Summarize Results Summary OrderSpec Stages Examples.






End OrderWitness.

(* ================================================================== *)
(** * Further properties *)
(* ================================================================== *)

(** ** Lists without duplicates *)

Lemma in_dedup (x : string) (l : list string) : In x (dedup l) <-> In x l.
Proof.
  induction l as [|y tl IH]; simpl; [tauto|].
  rewrite filter_In, IH. split.
  - intros [H | [H _]]; auto.
  - intros [H | H]; [auto|].
    destruct (String.eqb_spec x y) as [->|Hne]; [auto|].
    right. split; [exact H|]. destruct (String.eqb_spec x y); [contradiction | reflexivity].
Qed.

Lemma NoDup_dedup (l : list string) : NoDup (dedup l).
Proof.
  induction l as [|y tl IH]; simpl; constructor.
  - rewrite filter_In. intros [_ H]. now rewrite String.eqb_refl in H.
  - now apply NoDup_filter.
Qed.

Module CanonicalFacts.
Import Canonical CanonicalSpec.

Lemma mergeStep_unfold (bags : list (list string)) (curie : option string) :
  mergeStep bags curie =
  match filter (has curie) bags with
  | [] => filter (fun s => negb (has curie s)) bags
  | m => filter (fun s => negb (has curie s)) bags ++ [setUnion m]
  end.
Proof.
  unfold mergeStep, has. cbv beta zeta.
  destruct (filter _ bags); reflexivity.
Qed.

Lemma mem_setUnion (x : string) (sets : list (list string)) :
  mem x (setUnion sets) = existsb (mem x) sets.
Proof.
  unfold setUnion. apply eq_true_iff_eq.
  rewrite mem_In, in_dedup, in_concat, existsb_exists.
  split; intros (b & H1 & H2); exists b; (split; [assumption|]); now apply mem_In.
Qed.

Lemma existsb_holding (x : string) (bags : list (list string)) :
  existsb (mem x) bags = negb (Nat.eqb (List.length (holding x bags)) 0).
Proof.
  unfold holding. induction bags as [|b tl IH]; simpl; [reflexivity|].
  destruct (mem x b); simpl; [reflexivity | exact IH].
Qed.

Lemma holding_app (x : string) (l1 l2 : list (list string)) :
  holding x (l1 ++ l2) = holding x l1 ++ holding x l2.
Proof. unfold holding. apply filter_app. Qed.

Lemma filter_partition_length {A : Type} (f g : A -> bool) (l : list A) :
  List.length (filter g l) =
  List.length (filter g (filter f l)) +
  List.length (filter g (filter (fun a => negb (f a)) l)).
Proof.
  induction l as [|a tl IH]; simpl; [reflexivity|].
  destruct (f a); simpl; destruct (g a); simpl; lia.
Qed.

Lemma filter_none {A : Type} (f : A -> bool) (l : list A) :
  filter f l = [] -> filter (fun a => negb (f a)) l = l.
Proof.
  induction l as [|a tl IH]; simpl; [reflexivity|].
  destruct (f a); simpl; [discriminate|]. intros H. now rewrite IH.
Qed.

(** One step of the reduction never raises the number of bags that hold a
    CURIE, and keeps one when there was one. *)
Lemma mergeStep_holding (bags : list (list string)) (curie : option string)
      (x : string) :
  List.length (holding x (mergeStep bags curie)) <= List.length (holding x bags) /\
  (0 < List.length (holding x bags) ->
   0 < List.length (holding x (mergeStep bags curie))).
Proof.
  rewrite mergeStep_unfold.
  pose proof (filter_partition_length (has curie) (mem x) bags) as Hp.
  fold (holding x bags) in Hp.
  destruct (filter (has curie) bags) as [|b0 rest] eqn:Em.
  - rewrite (filter_none (has curie) bags Em). split; [lia | auto].
  - fold (holding x (b0 :: rest)) in Hp.
    fold (holding x (filter (fun a => negb (has curie a)) bags)) in Hp.
    rewrite holding_app, length_app.
    assert (Hs : List.length (holding x [setUnion (b0 :: rest)]) =
                 if Nat.eqb (List.length (holding x (b0 :: rest))) 0 then 0 else 1).
    { unfold holding at 1. cbn [filter].
      rewrite mem_setUnion, existsb_holding.
      destruct (Nat.eqb _ 0); reflexivity. }
    rewrite Hs.
    destruct (Nat.eqb_spec (List.length (holding x (b0 :: rest))) 0); lia.
Qed.

(** After the step of a CURIE, at most one bag holds it. *)
Lemma mergeStep_single (bags : list (list string)) (c : string) :
  List.length (holding c (mergeStep bags (Some c))) <= 1.
Proof.
  rewrite mergeStep_unfold.
  assert (H0 : holding c (filter (fun s => negb (has (Some c) s)) bags) = []).
  { unfold holding. simpl has.
    induction bags as [|b tl IH]; simpl; [reflexivity|].
    destruct (mem c b) eqn:E; simpl; [exact IH|]. now rewrite E. }
  destruct (filter (has (Some c)) bags); [rewrite H0; simpl; lia|].
  rewrite holding_app, H0. unfold holding. cbn [filter app].
  destruct (mem c _); simpl; lia.
Qed.

Lemma fold_holding (curies : list (option string)) (x : string) :
  forall bags,
    List.length (holding x (fold_left mergeStep curies bags))
      <= List.length (holding x bags) /\
    (0 < List.length (holding x bags) ->
     0 < List.length (holding x (fold_left mergeStep curies bags))).
Proof.
  induction curies as [|c tl IH]; simpl; intros bags; [split; [lia | auto]|].
  destruct (IH (mergeStep bags c)) as (H1 & H2).
  destruct (mergeStep_holding bags c x) as (H3 & H4).
  split; [lia | auto].
Qed.

(** After the reduction, exactly one bag holds a CURIE that was reduced over
    and that some bag held. *)
Lemma fold_single (curies : list (option string)) (c : string) :
  forall bags,
    In (Some c) curies ->
    0 < List.length (holding c bags) ->
    List.length (holding c (fold_left mergeStep curies bags)) = 1.
Proof.
  intros bags Hin Hne.
  assert (Hle : List.length (holding c (fold_left mergeStep curies bags)) <= 1).
  { revert bags Hne. induction curies as [|c' tl IH]; [destruct Hin|].
    intros bags Hne. simpl. destruct Hin as [-> | Hin].
    - pose proof (proj1 (fold_holding tl c (mergeStep bags (Some c)))).
      pose proof (mergeStep_single bags c). lia.
    - apply IH; [exact Hin|]. now apply mergeStep_holding. }
  pose proof (proj2 (fold_holding curies c bags) Hne) as H. lia.
Qed.

Lemma setUnion_head (h : string) (t : list string) (rest : list (list string)) :
  exists t', setUnion ((h :: t) :: rest) = h :: t'.
Proof. unfold setUnion. simpl. eauto. Qed.

Lemma mergeStep_headed (keys : list string) (bags : list (list string))
      (curie : option string) :
  headed keys bags -> headed keys (mergeStep bags curie).
Proof.
  rewrite mergeStep_unfold. unfold headed. intros H.
  destruct (filter (has curie) bags) as [|b0 rest] eqn:Em; intros b Hin.
  - apply filter_In in Hin. now apply H.
  - apply in_app_or in Hin. destruct Hin as [Hin | [<- | []]].
    + apply filter_In in Hin. now apply H.
    + assert (Hb0 : In b0 bags).
      { assert (Hi : In b0 (filter (has curie) bags)) by (rewrite Em; now left).
        now apply filter_In in Hi. }
      destruct (H _ Hb0) as (h & t & -> & Hk).
      destruct (setUnion_head h t rest) as (t' & ->). eauto.
Qed.

Lemma fold_headed (keys : list string) (curies : list (option string)) :
  forall bags, headed keys bags -> headed keys (fold_left mergeStep curies bags).
Proof.
  induction curies as [|c tl IH]; simpl; intros bags H; [exact H|].
  apply IH. now apply mergeStep_headed.
Qed.

Lemma mergeStep_together (bags : list (list string)) (curie : option string)
      (x y : string) :
  together x y bags -> together x y (mergeStep bags curie).
Proof.
  rewrite mergeStep_unfold. unfold together. intros (b & Hb & Hx & Hy).
  destruct (has curie b) eqn:E.
  - assert (Hm : In b (filter (has curie) bags)) by (apply filter_In; auto).
    destruct (filter (has curie) bags) as [|b0 rest] eqn:Em; [destruct Hm|].
    exists (setUnion (b0 :: rest)). split; [apply in_or_app; right; now left|].
    unfold setUnion. rewrite !in_dedup, !in_concat. split; exists b; auto.
  - assert (Hu : In b (filter (fun s => negb (has curie s)) bags))
      by (apply filter_In; rewrite E; auto).
    exists b. split; [|auto].
    destruct (filter (has curie) bags); [exact Hu | apply in_or_app; now left].
Qed.

Lemma fold_together (curies : list (option string)) (x y : string) :
  forall bags, together x y bags -> together x y (fold_left mergeStep curies bags).
Proof.
  induction curies as [|c tl IH]; simpl; intros bags H; [exact H|].
  apply IH. now apply mergeStep_together.
Qed.

(** ** The assignment of canonical nodes *)

Lemma assignBag_assoc (m : list (string * string)) (b : list string) (x : string) :
  assoc x (assignBag m b) =
  if mem x b then Some (hd "" b) else assoc x m.
Proof.
  unfold assignBag. destruct b as [|h t]; [reflexivity|].
  change (hd "" (h :: t)) with h.
  generalize (h :: t) as l. intros l. revert m.
  induction l as [|y tl IH]; intros m; [reflexivity|].
  cbn [fold_left]. rewrite IH. simpl mem.
  destruct (mem x tl) eqn:E.
  - now rewrite orb_true_r.
  - rewrite orb_false_r. now rewrite assoc_aset.
Qed.

Lemma assign_absent (x : string) (bags : list (list string)) :
  forall m, holding x bags = [] ->
            assoc x (fold_left assignBag bags m) = assoc x m.
Proof.
  induction bags as [|b tl IH]; intros m H; [reflexivity|].
  unfold holding in H. simpl in H. destruct (mem x b) eqn:E; [discriminate|].
  cbn [fold_left]. rewrite (IH _ H), assignBag_assoc, E. reflexivity.
Qed.

(** A CURIE that exactly one bag holds is assigned the head of that bag. *)
Lemma assign_single (x : string) (bags : list (list string)) (b : list string) :
  forall m,
    List.length (holding x bags) <= 1 ->
    In b bags -> In x b ->
    assoc x (fold_left assignBag bags m) = Some (hd "" b).
Proof.
  intros m Hle Hin Hx.
  destruct (in_split _ _ Hin) as (l1 & l2 & ->).
  rewrite holding_app in Hle. rewrite length_app in Hle.
  assert (Hb : mem x b = true) by now apply mem_In.
  unfold holding at 2 in Hle. simpl in Hle. rewrite Hb in Hle. simpl in Hle.
  fold (holding x l2) in Hle.
  assert (H2 : holding x l2 = []) by (destruct (holding x l2); [reflexivity | simpl in Hle; lia]).
  rewrite fold_left_app. cbn [fold_left].
  rewrite (@assign_absent x l2 _ H2), assignBag_assoc, Hb. reflexivity.
Qed.

(** What is assigned is the head of a bag. *)
Lemma assign_head (x f : string) (bags : list (list string)) :
  forall m,
    assoc x (fold_left assignBag bags m) = Some f ->
    assoc x m = Some f \/ exists t, In (f :: t) bags.
Proof.
  induction bags as [|b tl IH]; intros m H; [now left|].
  cbn [fold_left] in H. destruct (IH _ H) as [H1 | (t & Ht)].
  - rewrite assignBag_assoc in H1. destruct (mem x b) eqn:E; [|now left].
    destruct b as [|h t]; [discriminate|]. simpl in H1. inversion H1; subst.
    right. exists t. now left.
  - right. exists t. now right.
Qed.

End CanonicalFacts.

Module CanonicalTheorems.
Import Canonical CanonicalSpec NodeKeySpec CanonicalFacts.

Lemma aliasesOf_grows (attributes : list attribute) :
  forall aliases l,
    aliasesOf attributes aliases = Ret l -> exists rest, l = aliases ++ rest.
Proof.
  induction attributes as [|attr tl IH]; simpl; intros aliases l H.
  - inversion H; subst. exists []. now rewrite app_nil_r.
  - destruct (isCurieAlias attr).
    + inv_bind H. destruct (IH _ _ H) as (rest & ->).
      exists (a ++ rest). now rewrite app_assoc.
    + eauto.
Qed.

Lemma aliasesOf_has (attributes : list attribute) (attr : attribute)
      (vs : list string) (x : string) :
  forall aliases l,
    aliasesOf attributes aliases = Ret l ->
    In attr attributes -> isCurieAlias attr = true ->
    spread (value attr) = Ret vs -> In x vs -> In x l.
Proof.
  induction attributes as [|a0 tl IH]; simpl; intros aliases l H Hin Ha Hs Hx;
    [destruct Hin|].
  destruct Hin as [-> | Hin].
  - rewrite Ha in H. rewrite Hs in H. simpl in H.
    destruct (aliasesOf_grows _ _ H) as (rest & ->).
    apply in_or_app. left. apply in_or_app. now right.
  - destruct (isCurieAlias a0); [inv_bind H|]; eauto.
Qed.

Lemma nodeBag_head (c : string) (n : knode) (b : list string) :
  nodeBag c n = Ret b -> exists t, b = c :: t.
Proof.
  unfold nodeBag. intros H. inv_bind H. inversion H; subst.
  destruct (aliasesOf_grows _ _ Ha) as (rest & ->). simpl. eauto.
Qed.

Lemma nodeBags_In (nodes : list (string * knode)) (bags : list (list string)) :
  nodeBags nodes = Ret bags ->
  (forall c n, In (c, n) nodes -> exists b, nodeBag c n = Ret b /\ In b bags) /\
  (forall b, In b bags -> exists c n, In (c, n) nodes /\ nodeBag c n = Ret b).
Proof.
  revert bags. induction nodes as [|(c0, n0) tl IH]; simpl; intros bags H.
  - inversion H; subst. split; [intros c n [] | intros b []].
  - inv_bind H. inv_bind H. inversion H; subst; clear H.
    destruct (IH _ Ha0) as (H1 & H2). split.
    + intros c n [E | Hin].
      * inversion E; subst. exists a. split; [exact Ha | now left].
      * destruct (H1 _ _ Hin) as (b & Hb & Hi). exists b. split; [exact Hb | now right].
    + intros b [<- | Hin].
      * exists c0, n0. split; [now left | exact Ha].
      * destruct (H2 _ Hin) as (c & n & Hi & Hb). exists c, n. split; [now right | exact Hb].
Qed.

Lemma allBags_In (allNodes : list (list (string * knode)))
      (bags : list (list string)) :
  allBags allNodes = Ret bags ->
  (forall nodes c n, In nodes allNodes -> In (c, n) nodes ->
                     exists b, nodeBag c n = Ret b /\ In b bags) /\
  (forall b, In b bags ->
             exists nodes c n, In nodes allNodes /\ In (c, n) nodes /\
                               nodeBag c n = Ret b).
Proof.
  revert bags. induction allNodes as [|nodes0 tl IH]; simpl; intros bags H.
  - inversion H; subst. split; [intros nodes c n [] | intros b []].
  - inv_bind H. inv_bind H. inversion H; subst; clear H.
    destruct (IH _ Ha0) as (H1 & H2).
    destruct (nodeBags_In _ Ha) as (H3 & H4). split.
    + intros nodes c n [<- | Hin] Hc.
      * destruct (H3 _ _ Hc) as (b & Hb & Hi). exists b.
        split; [exact Hb | apply in_or_app; now left].
      * destruct (H1 _ _ _ Hin Hc) as (b & Hb & Hi). exists b.
        split; [exact Hb | apply in_or_app; now right].
    + intros b Hin. apply in_app_or in Hin. destruct Hin as [Hin | Hin].
      * destruct (H4 _ Hin) as (c & n & Hi & Hb).
        exists nodes0, c, n. repeat split; [now left | exact Hi | exact Hb].
      * destruct (H2 _ Hin) as (nodes & c & n & Hn & Hi & Hb).
        exists nodes, c, n. repeat split; [now right | exact Hi | exact Hb].
Qed.

Lemma in_nodeKeys (allNodes : list (list (string * knode))) (c : string) :
  In c (nodeKeys allNodes) <->
  exists nodes n, In nodes allNodes /\ In (c, n) nodes.
Proof.
  unfold nodeKeys, akeys. rewrite in_concat. split.
  - intros (l & Hl & Hc). apply in_map_iff in Hl. destruct Hl as (nodes & <- & Hn).
    apply in_map_iff in Hc. destruct Hc as ((c', n) & <- & Hi). eauto.
  - intros (nodes & n & Hn & Hi). exists (map fst nodes). split.
    + now apply in_map.
    + apply in_map_iff. exists (c, n). auto.
Qed.

(** The bags before the reduction: each starts with the key of its node, and
    the key of every node is in a bag. *)
Lemma allBags_initial (allNodes : list (list (string * knode)))
      (bags : list (list string)) :
  allBags allNodes = Ret bags ->
  headed (nodeKeys allNodes) bags /\
  (forall c, In c (nodeKeys allNodes) -> 0 < List.length (holding c bags)).
Proof.
  intros H. destruct (allBags_In _ H) as (H1 & H2). split.
  - intros b Hb. destruct (H2 _ Hb) as (nodes & c & n & Hn & Hi & Hbag).
    destruct (nodeBag_head _ _ Hbag) as (t & ->).
    exists c, t. split; [reflexivity|]. apply in_nodeKeys. eauto.
  - intros c Hc. apply in_nodeKeys in Hc. destruct Hc as (nodes & n & Hn & Hi).
    destruct (H1 _ _ _ Hn Hi) as (b & Hbag & Hb).
    destruct (nodeBag_head _ _ Hbag) as (t & ->).
    assert (Hh : In (c :: t) (holding c bags)).
    { unfold holding. apply filter_In. split; [exact Hb|].
      apply mem_In. now left. }
    destruct (holding c bags); [destruct Hh | simpl; lia].
Qed.

(** The stages of [makeCanonicalNodeMapping], when it returns. *)
Lemma mapping_stages (allNodes : list (list (string * knode)))
      (m : list (string * string)) :
  makeCanonicalNodeMapping allNodes = Ret m ->
  exists bags,
    allBags allNodes = Ret bags /\
    m = fold_left assignBag
          (fold_left mergeStep (map Some (nodeKeys allNodes) ++ [None]) bags) [].
Proof.
  unfold makeCanonicalNodeMapping. intros H. inv_bind H. inversion H; subst.
  exists a. split; [exact Ha | reflexivity].
Qed.

(** A node key is assigned the head of the one bag that holds it after the
    reduction. *)
Lemma key_assigned (allNodes : list (list (string * knode)))
      (bags : list (list string)) (c : string) :
  allBags allNodes = Ret bags ->
  In c (nodeKeys allNodes) ->
  let merged := fold_left mergeStep (map Some (nodeKeys allNodes) ++ [None]) bags in
  List.length (holding c merged) = 1 /\
  forall b, In b merged -> In c b ->
            assoc c (fold_left assignBag merged []) = Some (hd "" b).
Proof.
  intros Hb Hc merged.
  destruct (allBags_initial _ Hb) as (_ & Hh).
  assert (H1 : List.length (holding c merged) = 1).
  { apply fold_single; [|now apply Hh].
    apply in_or_app. left. now apply in_map. }
  split; [exact H1|]. intros b Hin Hx.
  apply assign_single; [lia | exact Hin | exact Hx].
Qed.

(** X1.  The canonical node of a CURIE is the key of a node of some agent,
    and it is its own canonical node. *)
Theorem canonical_is_fixed_node_key (allNodes : list (list (string * knode)))
        (m : list (string * string)) (c f : string) :
  makeCanonicalNodeMapping allNodes = Ret m ->
  canonical m c = AStr f ->
  In f (nodeKeys allNodes) /\ canonical m f = AStr f.
Proof.
  intros Hm Hc. destruct (mapping_stages _ Hm) as (bags & Hb & ->).
  unfold canonical in Hc.
  destruct (assoc c _) as [f'|] eqn:E; [|discriminate].
  destruct (nonempty f') eqn:Hne; [|discriminate].
  inversion Hc; subst f'; clear Hc.
  destruct (assign_head _ _ _ E) as [H0 | (t & Ht)]; [discriminate|].
  destruct (allBags_initial _ Hb) as (Hhead & _).
  pose proof (fold_headed (map Some (nodeKeys allNodes) ++ [None]) Hhead) as Hh.
  destruct (Hh _ Ht) as (h & t' & Heq & Hk). inversion Heq; subst h t'.
  split; [exact Hk|].
  destruct (@key_assigned _ _ f Hb Hk) as (_ & Ha).
  unfold canonical. rewrite (Ha _ Ht (or_introl eq_refl)). simpl.
  now rewrite Hne.
Qed.

(** X2.  When no node key is the empty string, the key of every node of
    every agent has a canonical node. *)
Theorem node_keys_resolve (allNodes : list (list (string * knode)))
        (m : list (string * string)) (c : string) :
  makeCanonicalNodeMapping allNodes = Ret m ->
  (forall k, In k (nodeKeys allNodes) -> k <> "") ->
  In c (nodeKeys allNodes) ->
  exists f, canonical m c = AStr f.
Proof.
  intros Hm Hne Hc. destruct (mapping_stages _ Hm) as (bags & Hb & ->).
  destruct (@key_assigned _ _ c Hb Hc) as (H1 & Ha).
  set (merged := fold_left mergeStep (map Some (nodeKeys allNodes) ++ [None]) bags) in *.
  destruct (holding c merged) as [|b rest] eqn:E; [discriminate|].
  assert (Hin : In b (holding c merged)) by (rewrite E; now left).
  unfold holding in Hin. apply filter_In in Hin. destruct Hin as (Hin & Hmem).
  apply mem_In in Hmem.
  destruct (allBags_initial _ Hb) as (Hhead & _).
  pose proof (fold_headed (map Some (nodeKeys allNodes) ++ [None]) Hhead) as Hh.
  destruct (Hh _ Hin) as (h & t & -> & Hk).
  exists h. unfold canonical. rewrite (Ha _ Hin Hmem). simpl.
  apply Hne in Hk. apply String.eqb_neq in Hk. unfold nonempty. now rewrite Hk.
Qed.

(** X3.  A node and an alias that it lists in a [same_as] or [xref]
    attribute have the same canonical node, when the alias is itself the key
    of a node of some agent. *)
Theorem aliases_share_canonical (allNodes : list (list (string * knode)))
        (m : list (string * string)) (nodes : list (string * knode))
        (c a : string) (n : knode) (attr : attribute) (vs : list string) :
  makeCanonicalNodeMapping allNodes = Ret m ->
  In nodes allNodes -> In (c, n) nodes ->
  In attr (attributesOf n) -> isCurieAlias attr = true ->
  spread (value attr) = Ret vs -> In a vs ->
  In a (nodeKeys allNodes) ->
  canonical m c = canonical m a.
Proof.
  intros Hm Hn Hc Hattr Halias Hs Ha Hk.
  destruct (mapping_stages _ Hm) as (bags & Hb & ->).
  destruct (allBags_In _ Hb) as (H1 & _).
  destruct (H1 _ _ _ Hn Hc) as (b & Hbag & Hin).
  assert (Ht : together c a bags).
  { exists b. split; [exact Hin|]. split.
    - destruct (nodeBag_head _ _ Hbag) as (t & ->). now left.
    - unfold nodeBag in Hbag. inv_bind Hbag. inversion Hbag; subst.
      apply in_dedup. eapply aliasesOf_has; eauto. }
  apply (fold_together (map Some (nodeKeys allNodes) ++ [None])) in Ht.
  destruct Ht as (B & HB & Hc' & Ha').
  assert (Hck : In c (nodeKeys allNodes)) by (apply in_nodeKeys; eauto).
  destruct (@key_assigned _ _ c Hb Hck) as (_ & Hac).
  destruct (@key_assigned _ _ a Hb Hk) as (_ & Haa).
  unfold canonical. now rewrite (Hac _ HB Hc'), (Haa _ HB Ha').
Qed.

Lemma mergeStep_ownKey (keys : list string) (bags : list (list string))
      (curie : option string) :
  (forall c, curie = Some c -> In c keys) ->
  headed keys bags ->
  ownKey keys bags -> ownKey keys (mergeStep bags curie).
Proof.
  rewrite mergeStep_unfold. unfold ownKey. intros Hc Hh H.
  destruct (filter (has curie) bags) as [|b0 rest] eqn:Em; intros b x Hin Hx Hk.
  - apply filter_In in Hin. destruct Hin. eauto.
  - apply in_app_or in Hin. destruct Hin as [Hin | [<- | []]].
    + apply filter_In in Hin. destruct Hin. eauto.
    + assert (Hall : forall b', In b' (b0 :: rest) ->
                       In b' bags /\ has curie b' = true).
      { intros b' Hb'. rewrite <- Em in Hb'. now apply filter_In in Hb'. }
      destruct curie as [c|].
      2:{ destruct (Hall b0 (or_introl eq_refl)) as (_ & Hf). discriminate. }
      assert (Hheads : forall b', In b' (b0 :: rest) -> hd "" b' = c).
      { intros b' Hb'. destruct (Hall _ Hb') as (Hi & Hm). simpl in Hm.
        apply mem_In in Hm. apply (H _ _ Hi Hm). now apply Hc. }
      destruct (Hall b0 (or_introl eq_refl)) as (Hi0 & _).
      destruct (Hh _ Hi0) as (h & t & -> & _).
      destruct (setUnion_head h t rest) as (t' & Heq). rewrite Heq. simpl.
      pose proof (Hheads _ (or_introl eq_refl)) as Hhc. simpl in Hhc. subst h.
      unfold setUnion in Hx. rewrite in_dedup, in_concat in Hx.
      destruct Hx as (b' & Hb' & Hxb).
      destruct (Hall _ Hb') as (Hi & _).
      rewrite <- (Hheads _ Hb'). now apply (H _ _ Hi Hxb).
Qed.

Lemma fold_ownKey (keys : list string) (curies : list (option string)) :
  (forall c, In (Some c) curies -> In c keys) ->
  forall bags, headed keys bags -> ownKey keys bags ->
               ownKey keys (fold_left mergeStep curies bags).
Proof.
  induction curies as [|c tl IH]; simpl; intros Hc bags Hh H; [exact H|].
  apply IH.
  - intros c' Hin. apply Hc. now right.
  - now apply mergeStep_headed.
  - apply mergeStep_ownKey; [|exact Hh | exact H].
    intros c' ->. apply Hc. now left.
Qed.

(** X4.  When no alias of a node is the key of another node, no two nodes
    are merged: every node key is its own canonical node, also for nodes
    that list a common alias. *)
Theorem keys_without_key_aliases_stay_apart
        (allNodes : list (list (string * knode)))
        (m : list (string * string)) (c : string) :
  makeCanonicalNodeMapping allNodes = Ret m ->
  aliasesAreNoKeys allNodes ->
  In c (nodeKeys allNodes) -> c <> "" ->
  canonical m c = AStr c.
Proof.
  intros Hm Hfree Hc Hne. destruct (mapping_stages _ Hm) as (bags & Hb & ->).
  destruct (@key_assigned _ _ c Hb Hc) as (H1 & Ha).
  set (curies := map Some (nodeKeys allNodes) ++ [None]) in *.
  set (merged := fold_left mergeStep curies bags) in *.
  destruct (allBags_initial _ Hb) as (Hhead & _).
  assert (Hown : ownKey (nodeKeys allNodes) merged).
  { apply fold_ownKey; [| exact Hhead |].
    - intros c' Hin. unfold curies in Hin. apply in_app_or in Hin.
      destruct Hin as [Hin | [Hin | []]]; [|discriminate].
      apply in_map_iff in Hin. destruct Hin as (k & E & Hk). now inversion E; subst.
    - intros b x Hin Hx Hk.
      destruct (allBags_In _ Hb) as (_ & H2).
      destruct (H2 _ Hin) as (nodes & c0 & n & Hn & Hi & Hbag).
      destruct (nodeBag_head _ _ Hbag) as (t & Heq).
      rewrite Heq. simpl. symmetry. eapply Hfree; eauto. }
  destruct (holding c merged) as [|b rest] eqn:E; [discriminate|].
  assert (Hin : In b (holding c merged)) by (rewrite E; now left).
  unfold holding in Hin. apply filter_In in Hin. destruct Hin as (Hin & Hmem).
  apply mem_In in Hmem.
  unfold canonical. rewrite (Ha _ Hin Hmem), (Hown _ _ Hin Hmem Hc).
  apply String.eqb_neq in Hne. unfold nonempty. now rewrite Hne.
Qed.

End CanonicalTheorems.

Module CanonicalWitness.
Import Canonical CanonicalSpec NodeKeySpec CanonicalTheorems Examples Scenarios.

Lemma canonical_is_fixed_node_key_witness :
  In "UMLS:1" (nodeKeys (Summary.resultNodes firstOrder)) /\
  canonical firstMapping "UMLS:1" = AStr "UMLS:1".
Proof.
  apply (@canonical_is_fixed_node_key
           (Summary.resultNodes firstOrder) firstMapping "UMLS:2" "UMLS:1");
    reflexivity.
Defined.

Lemma node_keys_resolve_witness :
  exists f, canonical firstMapping "MONDO:1" = AStr f.
Proof.
  apply (@node_keys_resolve (Summary.resultNodes firstOrder) firstMapping "MONDO:1").
  - reflexivity.
  - intros k Hk. vm_compute in Hk.
    repeat (destruct Hk as [<- | Hk]; [discriminate|]). destruct Hk.
  - vm_compute. auto.
Defined.

Lemma aliases_share_canonical_witness :
  canonical firstMapping "UMLS:1" = canonical firstMapping "UMLS:2".
Proof.
  apply (@aliases_share_canonical
           (Summary.resultNodes firstOrder) firstMapping
           (kg_nodes (knowledge_graph (message (aliasOf "UMLS:1" "UMLS:2"))))
           "UMLS:1" "UMLS:2"
           (node "UMLS:1" [{| attribute_type_id := "biolink:same_as";
                              value := VArr ["UMLS:2"] |}])
           {| attribute_type_id := "biolink:same_as"; value := VArr ["UMLS:2"] |}
           ["UMLS:2"]);
    try reflexivity; vm_compute; auto.
Defined.

Lemma keys_without_key_aliases_stay_apart_witness :
  canonical sharedAliasMapping "CHEBI:2" = AStr "CHEBI:2".
Proof.
  apply (@keys_without_key_aliases_stay_apart sharedAliasNodes).
  - reflexivity.
  - intros nodes c n b x [<- | []] [E | [E | []]] Hb Hx Hk;
      inversion E; subst; vm_compute in Hb; inversion Hb; subst;
      vm_compute in Hk; simpl in Hx;
      repeat (destruct Hx as [<- | Hx]; [|]); try reflexivity;
      try (destruct Hx); repeat (destruct Hk as [Hk | Hk]; try discriminate);
      try (destruct Hk).
  - vm_compute. auto.
  - discriminate.
Defined.

End CanonicalWitness.

Lemma assoc_onValues {A B : Type} (f : string -> A -> B) (m : list (string * A))
      (k : string) :
  assoc k (Summary.onValues f m) = option_map (f k) (assoc k m).
Proof.
  unfold Summary.onValues. induction m as [|(k', v) m IH]; simpl; [reflexivity|].
  destruct (String.eqb_spec k k') as [->|]; [reflexivity | exact IH].
Qed.

Lemma in_insert {A : Type} (cmp : A -> A -> Z) (x y : A) (l : list A) :
  In y (Results.insert cmp x l) <-> y = x \/ In y l.
Proof.
  induction l as [|z tl IH]; simpl; [intuition congruence|].
  destruct (Z.leb (cmp x z) 0); simpl; [intuition congruence|].
  rewrite IH. intuition congruence.
Qed.

Lemma in_sort {A : Type} (cmp : A -> A -> Z) (y : A) (l : list A) :
  In y (Results.sort cmp l) <-> In y l.
Proof.
  unfold Results.sort. induction l as [|x tl IH]; simpl; [tauto|].
  rewrite in_insert, IH. intuition congruence.
Qed.

Lemma sort_nil {A : Type} (cmp : A -> A -> Z) (l : list A) :
  Results.sort cmp l = [] -> l = [].
Proof.
  destruct l as [|x tl]; [reflexivity|]. intros H.
  assert (Hin : In x (Results.sort cmp (x :: tl))) by (apply in_sort; now left).
  rewrite H in Hin. destruct Hin.
Qed.

Module MetaFacts.
Import Merge Summarize Results Summary.
Section WithInterfaces.

Context {BL : Biolink} {EV : Evidence}.
Variable pathToKey : list atom -> string.
Variable maxHops : nat.

Lemma condensed_agents (canon : string -> atom) (answers : list answer) :
  forall css,
    Fragment.creativeAnswersToCondensedSummaries pathToKey canon maxHops answers
      = Ret css ->
    map cs_agent css = map agent answers.
Proof.
  unfold Fragment.creativeAnswersToCondensedSummaries.
  induction answers as [|a tl IH]; simpl; intros css H.
  - inversion H; subst. reflexivity.
  - inv_bind H. inv_bind H. inversion H; subst; clear H. simpl.
    rewrite (IH _ Ha0). unfold Fragment.answerToCondensedSummary in Ha.
    inv_bind Ha. inversion Ha; subst. reflexivity.
Qed.

(** X5.  The metadata of the summary carries the query id and lists the
    agent of every answer, in the order of the answers: also an agent without
    results, and twice an agent that answered twice. *)
Theorem meta_lists_agents_in_order (qid : string) (answers : list answer)
        (s : summary) :
  creativeAnswersToSummary pathToKey maxHops qid answers = Ret s ->
  meta_qid (s_meta s) = qid /\ meta_aras (s_meta s) = map agent answers.
Proof.
  intros H.
  destruct (SummaryFacts.creativeAnswersToSummary_stages _ _ _ _ H)
    as (mapping & css & m & _ & Hcs & _ & Hf).
  unfold finish in Hf. inv_bind Hf. inversion Hf; subst; clear Hf. simpl.
  split; [reflexivity|]. eapply condensed_agents; eauto.
Qed.

(** X6.  Every result of the summary has at least one path; each of its
    path keys is a key of the paths of the summary, and its subject is a key
    of the nodes of the summary. *)
Theorem results_refer_to_paths_and_nodes (qid : string) (answers : list answer)
        (s : summary) :
  creativeAnswersToSummary pathToKey maxHops qid answers = Ret s ->
  forall r, In r (s_results s) ->
    r_paths r <> [] /\
    (forall pid, In pid (r_paths r) ->
                 exists p, assoc pid (s_paths s) = Some p) /\
    (exists n, assoc (render (r_subject r)) (s_nodes s) = Some n).
Proof.
  intros H r Hr.
  destruct (SummaryFacts.creativeAnswersToSummary_stages _ _ _ _ H)
    as (mapping & css & m & _ & _ & _ & Hf).
  pose proof (ResultScoreFacts.finish_results _ _ _ _ Hf) as Hres.
  unfold finish in Hf. inv_bind Hf. inversion Hf; subst; clear Hf. simpl in *.
  unfold expandResults in Hres.
  destruct (mapM_In _ _ Hres _ Hr) as (ps & _ & E). clear Hres Hr Ha.
  unfold expandResult in E.
  apply bind_ret in E. destruct E as (resolved & Hresolved & E).
  destruct resolved as [|(pid0, [|drug sub]) tl]; try discriminate.
  apply bind_ret in E. destruct E as (node & Hnode & E).
  apply bind_ret in E. destruct E as (drugScores & _ & E).
  apply bind_ret in E. destruct E as (mean & _ & E).
  inversion E; subst r; clear E. cbn [r_paths r_subject].
  split; [|split].
  - intros Hnil. apply map_eq_nil in Hnil.
    pose proof (@sort_nil _ (fun a b : string * list atom =>
                               isPathLessThan (snd a) (snd b))
                  ((pid0, drug :: sub) :: tl) Hnil) as Hl.
    discriminate.
  - intros pid Hpid. apply in_map_iff in Hpid.
    destruct Hpid as ((pid', sg) & Heq & Hin). simpl in Heq. subst pid'.
    apply (proj1 (@in_sort _ (fun a b : string * list atom =>
                                isPathLessThan (snd a) (snd b))
                    (pid, sg) ((pid0, drug :: sub) :: tl))) in Hin.
    destruct (mapM_In _ _ Hresolved _ Hin) as (pid1 & _ & E1).
    apply bind_ret in E1. destruct E1 as (sg1 & Hget & E1).
    inversion E1; subst; clear E1.
    unfold getPathFromPid in Hget.
    rewrite assoc_onValues.
    destruct (assoc pid (m_paths m)) as [p|]; [simpl; eauto | discriminate].
  - unfold fromOption in Hnode.
    destruct (assoc (render drug) (onValues cleanNode (m_nodes m))) as [n|];
      [eauto | discriminate].
Qed.

End WithInterfaces.
End MetaFacts.

Module FinalEdgeFacts.
Import Merge Summarize Results Summary EdgeSpec SettledSpec InverseFacts EdgeTableFacts.
Section WithInterfaces.

Context {BL : Biolink} {EV : Evidence}.
Variable pathToKey : list atom -> string.
Variable maxHops : nat.

Lemma step_settled (origs done : list (string * sedge)) (t : tracked)
      (K : string) (e : sedge) :
  In (K, e) origs ->
  settled origs done t ->
  settled origs (done ++ [(K, e)]) (fst (edgeStep pathToKey (t, []) (K, e))).
Proof.
  intros Ho Hs K0 x. rewrite edgeStep_fst. cbv zeta.
  unfold akeys. rewrite map_app, in_app_iff. simpl.
  set (edges1 := aset (inverseKey pathToKey e) (false, inverseOf e) t).
  assert (H1 : forall k y, assoc k edges1 = Some (true, y) ->
                           assoc k t = Some (true, y)).
  { intros k y. unfold edges1. rewrite assoc_aset.
    destruct (String.eqb k (inverseKey pathToKey e)); [discriminate | auto]. }
  destruct (assoc K edges1) as [(flag, y)|] eqn:EK; [destruct flag|].
  - rewrite assoc_aset. destruct (String.eqb_spec K0 K) as [->|Hne].
    + intros Hx _. inversion Hx; subst. eauto.
    + intros Hx [Hd | [Hk | []]]; [|congruence].
      apply Hs; [now apply H1 | exact Hd].
  - intros Hx [Hd | [Hk | []]].
    + apply Hs; [now apply H1 | exact Hd].
    + subst K0. rewrite EK in Hx. discriminate.
  - intros Hx [Hd | [Hk | []]].
    + apply Hs; [now apply H1 | exact Hd].
    + subst K0. rewrite EK in Hx. discriminate.
Qed.

Lemma fold_settled (origs : list (string * sedge)) (rest : list (string * sedge)) :
  forall done t p,
    origs = done ++ rest ->
    settled origs done t ->
    settled origs origs (fst (fold_left (edgeStep pathToKey) rest (t, p))).
Proof.
  induction rest as [|(K, e) tl IH]; cbn [fold_left]; intros done t p Ho Hs.
  - rewrite app_nil_r in Ho. subst done. exact Hs.
  - destruct (edgeStep pathToKey (t, p) (K, e)) as (t', p') eqn:Es.
    assert (Et : t' = fst (edgeStep pathToKey (t, []) (K, e))).
    { rewrite <- (@step_publications_irrelevant _ _ pathToKey t p (K, e)), Es.
      reflexivity. }
    apply IH with (done := done ++ [(K, e)]).
    + rewrite <- app_assoc. exact Ho.
    + rewrite Et. apply step_settled; [|exact Hs].
      rewrite Ho. apply in_or_app. right. left. reflexivity.
Qed.

(** The objects of the edges after the loop of
    [edgesToEdgesAndPublications]. *)
Lemma final_edge (origs : list (string * sedge)) (K : string) (x : sedge) :
  assoc K (fst (edgesToEdgesAndPublications pathToKey origs)) = Some x ->
  exists K0 e, In (K0, e) origs /\ (x = inverseOf e \/ x = finished e).
Proof.
  unfold edgesToEdgesAndPublications. simpl.
  set (st := fold_left (edgeStep pathToKey) (enumerate origs)
               (map (fun ke => (fst ke, (true, snd ke))) origs, [])).
  assert (Hs : settled (enumerate origs) (enumerate origs) (fst st)).
  { apply fold_settled with (done := []); [reflexivity|].
    intros K0 y _ []. }
  assert (Hp : provenance pathToKey (enumerate origs) (enumerate origs) (fst st)).
  { apply (@fold_invariants _ _ pathToKey (enumerate origs) (enumerate origs))
      with (done := []).
    - reflexivity.
    - intros K0 e [].
    - intros K0 flag y Hin.
      destruct (initial_provenance pathToKey origs _ _ _ Hin)
        as [(_ & _ & _ & [] & _) | (Hf & e & He & Hx)].
      right. split; [exact Hf|]. exists e.
      split; [now apply in_enumerate | exact Hx]. }
  rewrite assoc_untracked.
  destruct (assoc K (fst st)) as [(flag, y)|] eqn:E; [|discriminate].
  simpl. intros H. inversion H; subst y; clear H.
  pose proof (assoc_In _ _ E) as Hin.
  destruct (Hp _ _ _ Hin) as [(-> & K0 & e & Hd & _ & ->) | (-> & e & Ho & _)].
  - rewrite in_enumerate in Hd. eauto.
  - destruct (Hs _ _ E) as (e' & He' & ->).
    + unfold akeys. apply in_map_iff. exists (K, e). auto.
    + rewrite in_enumerate in He'. eauto.
Qed.

(** X7.  Every edge of the summary is without snippets and without
    qualifiers: the edges of the fragments have lost them in their turn, and
    the inverse edges are copies made after the snippets were deleted, with
    the qualifiers deleted from the copy. *)
Theorem edges_carry_no_snippets_nor_qualifiers (qid : string)
        (answers : list answer) (s : summary) :
  creativeAnswersToSummary pathToKey maxHops qid answers = Ret s ->
  forall K e, assoc K (s_edges s) = Some e ->
              e_snippets e = None /\ e_qualifiers e = None.
Proof.
  intros H K e He.
  destruct (SummaryFacts.creativeAnswersToSummary_stages _ _ _ _ H)
    as (mapping & css & m & _ & _ & _ & Hf).
  destruct (finish_edges _ _ _ _ Hf) as (Heq & _). rewrite Heq in He.
  destruct (final_edge _ _ He) as (K0 & e0 & _ & [-> | ->]); split; reflexivity.
Qed.

(** X8.  The publications that an edge of the summary lists are valid ids,
    each listed once. *)
Theorem edge_publications_are_valid_and_distinct (qid : string)
        (answers : list answer) (s : summary) :
  creativeAnswersToSummary pathToKey maxHops qid answers = Ret s ->
  forall K e, In (K, e) (s_edges s) ->
              NoDup (e_publications e) /\
              forall id, In id (e_publications e) -> isValidId id = true.
Proof.
  intros H K e He.
  destruct (SummaryFacts.creativeAnswersToSummary_stages _ _ _ _ H)
    as (mapping & css & m & _ & _ & _ & Hf).
  destruct (finish_edges _ _ _ _ Hf) as (Heq & _). rewrite Heq in He.
  destruct (@edges_invariants _ _ pathToKey (cleanedEdges m)) as (t & Et & _ & Hp).
  rewrite Et in He. apply in_untracked in He. destruct He as (flag & Hin).
  eapply provenance_publications in Hin; [|exact Hp].
  destruct Hin as (K0 & e0 & Ho & Epub).
  rewrite Epub. unfold cleanedEdges in Ho. apply in_onValues in Ho.
  destruct Ho as (e1 & _ & ->). simpl. split.
  - apply NoDup_filter. apply NoDup_dedup.
  - intros id Hid. apply filter_In in Hid. tauto.
Qed.

End WithInterfaces.
End FinalEdgeFacts.

Module AgentFacts.
Import Merge Summarize Results Summary AgentSpec EdgeSpec.
Section WithInterfaces.

Context {BL : Biolink} {EV : Evidence}.
Variable pathToKey : list atom -> string.
Variable canon : string -> atom.
Variable agents : list string.

Lemma reported_credited (aras : list string) :
  reported agents aras -> credited agents (dedup aras).
Proof.
  intros (Hne & Hin). split; [|split].
  - intros H. now apply dedup_nil in H.
  - apply NoDup_dedup.
  - intros a Ha. rewrite in_dedup in Ha. auto.
Qed.

Lemma reported_app (aras more : list string) (agent : string) :
  In agent agents ->
  (reported agents aras \/ aras = []) ->
  (forall a, In a more -> a = agent) -> more <> [] ->
  reported agents (aras ++ more).
Proof.
  intros Ha Hr Hm Hne. split.
  - intros H. apply app_eq_nil in H. tauto.
  - intros a Hin. apply in_app_or in Hin. destruct Hin as [Hin | Hin].
    + destruct Hr as [(_ & Hr) | ->]; [auto | destruct Hin].
    + now rewrite (Hm _ Hin).
Qed.

(** An invariant of the objects that every update keeps, or sets up on a
    new object. *)
Lemma obj_Forall {O U : Type} (empty : O) (key : U -> string)
      (transforms : U -> list (O -> outcome O)) (push : string -> O -> O)
      (agent : string) (P : O -> Prop) (updates : list U) :
  (forall u o o',
     (P o \/ o = empty) ->
     foldM (fun o transform => o' <- transform o ;; Ret (push agent o'))
       (transforms u) o = Ret o' ->
     P o') ->
  forall objs objs',
    extendSummaryObj empty key transforms push objs updates agent = Ret objs' ->
    (forall k o, In (k, o) objs -> P o) ->
    forall k o, In (k, o) objs' -> P o.
Proof.
  intros Hstep. unfold extendSummaryObj.
  induction updates as [|u tl IH]; simpl; intros objs objs' H Hobjs k o Hin.
  - inversion H; subst. eauto.
  - inv_bind H. inv_bind Ha. inversion Ha; subst; clear Ha.
    eapply IH; [exact H | | exact Hin].
    intros k' o' Hin'. apply in_aset in Hin'.
    destruct Hin' as [(-> & ->) | Hin']; [|eauto].
    eapply Hstep; [|exact Ha0].
    destruct (assoc (key u) objs) as [o0|] eqn:E; [|now right].
    left. apply assoc_In in E. eauto.
Qed.

Lemma nodes_reported (agent : string) (updates : list nodeUpdate) :
  In agent agents ->
  forall nodes nodes',
    extendSummaryNodes nodes updates agent = Ret nodes' ->
    (forall k n, In (k, n) nodes -> reported agents (n_aras n)) ->
    forall k n, In (k, n) nodes' -> reported agents (n_aras n).
Proof.
  intros Ha nodes nodes' H. unfold extendSummaryNodes in H.
  eapply (@obj_Forall _ _ _ _ _ _ agent (fun n => reported agents (n_aras n)) updates);
    [|exact H].
  intros u o o' Ho Hf. simpl in Hf. inversion Hf; subst; clear Hf. simpl.
  rewrite <- !app_assoc.
  apply reported_app with (agent := agent); try assumption.
  - destruct Ho as [Ho | ->]; [now left | now right].
  - simpl. intros a Hin. intuition.
  - discriminate.
Qed.

Lemma edges_reported (agent : string) (updates : list edgeUpdate) :
  In agent agents ->
  forall edges edges',
    extendSummaryEdges canon edges updates agent = Ret edges' ->
    (forall k e, In (k, e) edges -> reported agents (e_aras e)) ->
    forall k e, In (k, e) edges' -> reported agents (e_aras e).
Proof.
  intros Ha edges edges' H. unfold extendSummaryEdges in H.
  eapply (@obj_Forall _ _ _ _ _ _ agent (fun e => reported agents (e_aras e)) updates);
    [|exact H].
  intros u o o' Ho Hf. simpl in Hf.
  repeat match goal with
         | H : bind _ _ = Ret _ |- _ => inv_bind H
         end.
  repeat match goal with
         | H : Ret _ = Ret _ |- _ => inversion H; clear H
         end.
  subst. simpl.
  rewrite <- !app_assoc.
  apply reported_app with (agent := agent); try assumption.
  - destruct Ho as [Ho | ->]; [now left | now right].
  - simpl. intros a Hin. intuition.
  - discriminate.
Qed.

Lemma paths_reported (agent : string) (new : list (list atom)) :
  In agent agents ->
  forall paths,
    (forall k p, In (k, p) paths -> reported agents (p_aras p)) ->
    forall k p, In (k, p) (extendSummaryPaths pathToKey paths new agent) ->
                reported agents (p_aras p).
Proof.
  intros Ha. unfold extendSummaryPaths.
  induction new as [|x tl IH]; simpl; intros paths Hp k p Hin; [eauto|].
  eapply IH; [|exact Hin].
  intros k' p' Hin'.
  destruct (assoc (pathToKey x) paths) as [existing|] eqn:E;
    apply in_aset in Hin'; destruct Hin' as [(-> & ->) | Hin']; simpl; eauto.
  - apply assoc_In in E.
    apply reported_app with (agent := agent); try assumption.
    + left. eauto.
    + simpl. intros a Hin0. intuition.
    + discriminate.
  - split; [discriminate|]. intros a [<- | []]. exact Ha.
Qed.

Lemma mergeAll_reported (css : list condensedSummary) :
  forall m0 m,
    foldM (extendSummary pathToKey canon) css m0 = Ret m ->
    (forall cs, In cs css -> In (cs_agent cs) agents) ->
    ((forall k n, In (k, n) (m_nodes m0) -> reported agents (n_aras n)) /\
     (forall k e, In (k, e) (m_edges m0) -> reported agents (e_aras e)) /\
     (forall k p, In (k, p) (m_paths m0) -> reported agents (p_aras p))) ->
    (forall k n, In (k, n) (m_nodes m) -> reported agents (n_aras n)) /\
    (forall k e, In (k, e) (m_edges m) -> reported agents (e_aras e)) /\
    (forall k p, In (k, p) (m_paths m) -> reported agents (p_aras p)).
Proof.
  induction css as [|cs tl IH]; simpl; intros m0 m H Hag (Hn & He & Hp).
  - inversion H; subst. auto.
  - inv_bind H. unfold extendSummary in Ha. inv_bind Ha. inv_bind Ha.
    inversion Ha; subst; clear Ha.
    assert (Hcs : In (cs_agent cs) agents) by (apply Hag; now left).
    apply (IH _ _ H); [intros cs' Hin; apply Hag; now right|]. simpl.
    split; [|split].
    + eapply nodes_reported; eauto.
    + eapply edges_reported; eauto.
    + now apply paths_reported.
Qed.

End WithInterfaces.

Section Summary.

Context {BL : Biolink} {EV : Evidence}.
Variable pathToKey : list atom -> string.
Variable maxHops : nat.

Lemma finish_path_entries (qid : string) (css : list condensedSummary)
      (m : merged) (s : summary) :
  finish pathToKey qid css m = Ret s ->
  s_paths s = onValues (fun _ p => pathRemoveDuplicates p) (m_paths m).
Proof.
  unfold finish. intros H. inv_bind H. inversion H; subst. reflexivity.
Qed.

(** X9.  In the summary, the agents listed for a node, for an edge and for
    a path are at least one, each listed once, and all of them agents of the
    answers. *)
Theorem entries_list_answering_agents (qid : string) (answers : list answer)
        (s : summary) :
  creativeAnswersToSummary pathToKey maxHops qid answers = Ret s ->
  (forall k n, In (k, n) (s_nodes s) -> credited (map agent answers) (n_aras n)) /\
  (forall k e, In (k, e) (s_edges s) -> credited (map agent answers) (e_aras e)) /\
  (forall k p, In (k, p) (s_paths s) -> credited (map agent answers) (p_aras p)).
Proof.
  intros H.
  destruct (SummaryFacts.creativeAnswersToSummary_stages _ _ _ _ H)
    as (mapping & css & m & _ & Hcs & Hm & Hf).
  pose proof (MetaFacts.condensed_agents _ _ _ _ Hcs) as Hag.
  unfold mergeAll in Hm.
  assert (Hrep :
    (forall k n, In (k, n) (m_nodes m) -> reported (map agent answers) (n_aras n)) /\
    (forall k e, In (k, e) (m_edges m) -> reported (map agent answers) (e_aras e)) /\
    (forall k p, In (k, p) (m_paths m) -> reported (map agent answers) (p_aras p))).
  { eapply mergeAll_reported; [exact Hm | |].
    - intros cs Hin. rewrite <- Hag. now apply in_map.
    - simpl. split; [|split]; intros ? ? []. }
  destruct Hrep as (Hn & He & Hp).
  destruct (EdgeTableFacts.finish_edges _ _ _ _ Hf) as (Heq & _).
  rewrite Heq, (SummaryFacts.finish_nodes _ _ _ _ Hf),
    (finish_path_entries _ _ _ Hf).
  split; [|split].
  - intros k n Hin. apply in_onValues in Hin. destruct Hin as (n0 & Hin & ->).
    simpl. apply reported_credited. eauto.
  - intros k e Hin.
    destruct (@EdgeTableFacts.edges_invariants _ _ pathToKey (cleanedEdges m))
      as (t & Et & _ & Hprov).
    rewrite Et in Hin. apply EdgeTableFacts.in_untracked in Hin.
    destruct Hin as (flag & Hin).
    assert (Har : exists K0 e0, In (K0, e0) (cleanedEdges m) /\
                                e_aras e = e_aras e0).
    { destruct (Hprov _ _ _ Hin)
        as [(_ & K0 & e0 & Hd & _ & ->) | (_ & e0 & Ho & [-> | ->])]; eauto. }
    destruct Har as (K0 & e0 & Ho & ->).
    unfold cleanedEdges in Ho. apply in_onValues in Ho.
    destruct Ho as (e1 & Ho & ->). simpl. apply reported_credited. eauto.
  - intros k p Hin. apply in_onValues in Hin. destruct Hin as (p0 & Hin & ->).
    simpl. apply reported_credited. eauto.
Qed.

End Summary.
End AgentFacts.

Module ReplayFacts.
Import Merge Summarize Results Summary ReplaySpec.

Lemma foldM_app {A B : Type} (f : A -> B -> outcome A) (l1 l2 : list B) (a : A) :
  foldM f (l1 ++ l2) a = (a' <- foldM f l1 a ;; foldM f l2 a').
Proof.
  revert a. induction l1 as [|x tl IH]; simpl; intros a; [reflexivity|].
  destruct (f a x); simpl; [reflexivity | apply IH].
Qed.

Section Generic.

Variables O U : Type.
Variable empty : O.
Variable key : U -> string.
Variable transforms : U -> list (O -> outcome O).
Variable push : string -> O -> O.

(** The object of a key after [extendSummaryObj] is the object it had
    before, after the updates of the key in order: the updates of the other
    keys do not touch it. *)
Lemma obj_replay (agent : string) (updates : list U) (k : string) :
  forall objs objs',
    extendSummaryObj empty key transforms push objs updates agent = Ret objs' ->
    replay empty transforms push
      (forKey key k (map (pair agent) updates)) (assoc k objs) =
    Ret (assoc k objs').
Proof.
  unfold extendSummaryObj, replay, forKey.
  induction updates as [|u tl IH]; simpl; intros objs objs' H.
  - now inversion H.
  - inv_bind H. inv_bind Ha. inversion Ha; subst; clear Ha.
    specialize (IH _ _ H). rewrite assoc_aset in IH.
    destruct (String.eqb_spec (key u) k) as [<-|Hne].
    + rewrite String.eqb_refl in IH. simpl. unfold applyUpdate at 1. simpl.
      rewrite Ha0. simpl. exact IH.
    + destruct (String.eqb_spec k (key u)); [congruence | exact IH].
Qed.

End Generic.

Lemma forKey_app {U : Type} (key : U -> string) (k : string)
      (l1 l2 : list (string * U)) :
  forKey key k (l1 ++ l2) = forKey key k l1 ++ forKey key k l2.
Proof. unfold forKey. apply filter_app. Qed.

Lemma lastOf_snoc {A : Type} (l : list A) (x : A) : lastOf (l ++ [x]) = Some x.
Proof. unfold lastOf. now rewrite rev_app_distr. Qed.

Section WithInterfaces.

Context {BL : Biolink} {EV : Evidence}.
Variable pathToKey : list atom -> string.
Variable canon : string -> atom.

(** The node of a key after the loop over the condensed summaries is the
    node it had before, after the node updates of the key. *)
Lemma mergeAll_nodes_replay (k : string) (css : list condensedSummary) :
  forall m0 m,
    foldM (extendSummary pathToKey canon) css m0 = Ret m ->
    replayNodes (forKey nodeKey k (nodeUpdatesOf css)) (assoc k (m_nodes m0)) =
    Ret (assoc k (m_nodes m)).
Proof.
  induction css as [|cs tl IH]; simpl; intros m0 m H.
  - now inversion H.
  - inv_bind H. unfold extendSummary in Ha. inv_bind Ha. inv_bind Ha.
    inversion Ha; subst; clear Ha.
    specialize (IH _ _ H). simpl in IH.
    rewrite forKey_app. unfold replayNodes, replay. rewrite foldM_app.
    unfold extendSummaryNodes in Ha0.
    pose proof (@obj_replay _ _ _ _ _ _ _ _ k _ _ Ha0) as Hr.
    unfold replay, nodeKey in *. rewrite Hr. simpl. exact IH.
Qed.

Lemma replay_step (l : list (string * nodeUpdate)) (au : string * nodeUpdate)
      (o : option snode) (o' : option snode) :
  replayNodes (l ++ [au]) o = Ret o' ->
  exists o1 n,
    replayNodes l o = Ret o1 /\ o' = Some n /\
    n_names n = field n_names o1 ++ truthyName (kn_name (nu_knode (snd au))) /\
    n_fda_info n = fdaInfo (kn_attributes (nu_knode (snd au))).
Proof.
  unfold replayNodes, replay. rewrite foldM_app. intros H.
  inv_bind H. exists a. simpl in H. inversion H; subst; clear H.
  eexists. split; [exact Ha | split; [reflexivity|]].
  simpl. destruct a; split; reflexivity.
Qed.

(** The names of a node are the names that its updates gave it, in order. *)
Lemma replay_names (l : list (string * nodeUpdate)) :
  forall o o',
    replayNodes l o = Ret o' ->
    field n_names o' =
    field n_names o ++
    flat_map (fun au => truthyName (kn_name (nu_knode (snd au)))) l.
Proof.
  induction l as [|au tl IH] using rev_ind; intros o o' H.
  - inversion H; subst. simpl. now rewrite app_nil_r.
  - destruct (replay_step _ _ _ H) as (o1 & n & H1 & -> & Hn & _).
    simpl. rewrite Hn, (IH _ _ H1), flat_map_app. simpl.
    now rewrite app_nil_r, app_assoc.
Qed.

(** The approval status of a node is the one of its last update. *)
Lemma replay_fda (l : list (string * nodeUpdate)) (o : option snode) (n : snode) :
  replayNodes l o = Ret (Some n) ->
  (l = [] /\ o = Some n) \/
  exists au, lastOf l = Some au /\
             n_fda_info n = fdaInfo (kn_attributes (nu_knode (snd au))).
Proof.
  destruct l as [|au tl] using rev_ind; intros H.
  - inversion H; subst. now left.
  - right. destruct (replay_step _ _ _ H) as (o1 & n' & _ & E & _ & Hf).
    inversion E; subst n'. exists au. split; [apply lastOf_snoc | exact Hf].
Qed.

End WithInterfaces.

Section Summary.

Context {BL : Biolink} {EV : Evidence}.
Variable pathToKey : list atom -> string.
Variable maxHops : nat.

Lemma summary_node (qid : string) (answers : list answer) (s : summary) :
  creativeAnswersToSummary pathToKey maxHops qid answers = Ret s ->
  exists css,
    OrderSpec.condensed pathToKey maxHops answers = Ret css /\
    forall k n, assoc k (s_nodes s) = Some n ->
      exists n0,
        replayNodes (forKey nodeKey k (nodeUpdatesOf css)) None = Ret (Some n0) /\
        n = cleanNode k n0.
Proof.
  intros H.
  destruct (SummaryFacts.creativeAnswersToSummary_stages _ _ _ _ H)
    as (mapping & css & m & Hmap & Hcs & Hm & Hf).
  exists css. split.
  - unfold OrderSpec.condensed. rewrite Hmap. simpl. exact Hcs.
  - intros k n Hn. rewrite (SummaryFacts.finish_nodes _ _ _ _ Hf) in Hn.
    rewrite assoc_onValues in Hn.
    destruct (assoc k (m_nodes m)) as [n0|] eqn:E; [|discriminate].
    simpl in Hn. inversion Hn; subst n; clear Hn.
    exists n0. split; [|reflexivity].
    unfold mergeAll in Hm.
    pose proof (@mergeAll_nodes_replay _ _ _ k _ _ _ Hm) as Hr.
    simpl in Hr. now rewrite E in Hr.
Qed.

(** X10.  The names of a node of the summary are the non-empty names that
    the nodes of the agents give to its key, in the order of the agents and
    of their results, each name once; or the key alone, when they give
    none. *)
Theorem node_names_are_the_names_given (qid : string) (answers : list answer)
        (s : summary) :
  creativeAnswersToSummary pathToKey maxHops qid answers = Ret s ->
  exists css,
    OrderSpec.condensed pathToKey maxHops answers = Ret css /\
    forall k n, assoc k (s_nodes s) = Some n ->
      n_names n = pushIfEmpty (dedup (namesGiven k css)) k.
Proof.
  intros H. destruct (summary_node _ _ H) as (css & Hcs & Hn).
  exists css. split; [exact Hcs|]. intros k n Hk.
  destruct (Hn _ _ Hk) as (n0 & Hr & ->).
  apply replay_names in Hr. simpl in Hr. unfold namesGiven. rewrite <- Hr.
  reflexivity.
Qed.

(** X11.  The approval status of a node of the summary is the one of the
    last node that the agents have for its key: a later node without the
    attribute erases the status that an earlier one gave. *)
Theorem node_fda_info_is_the_last_given (qid : string) (answers : list answer)
        (s : summary) :
  creativeAnswersToSummary pathToKey maxHops qid answers = Ret s ->
  exists css,
    OrderSpec.condensed pathToKey maxHops answers = Ret css /\
    forall k n, assoc k (s_nodes s) = Some n ->
      exists last,
        lastNode k css = Some last /\
        n_fda_info n = fdaInfo (kn_attributes last).
Proof.
  intros H. destruct (summary_node _ _ H) as (css & Hcs & Hn).
  exists css. split; [exact Hcs|]. intros k n Hk.
  destruct (Hn _ _ Hk) as (n0 & Hr & ->).
  apply replay_fda in Hr. destruct Hr as [(_ & E) | (au & Hl & Hf)]; [discriminate|].
  exists (nu_knode (snd au)). unfold lastNode. rewrite Hl. simpl.
  split; [reflexivity | exact Hf].
Qed.

End Summary.
End ReplayFacts.

Module PathEntryFacts.
Import Merge Summarize Results Summary OrderSpec.
Section WithInterfaces.

Context {BL : Biolink} {EV : Evidence}.
Variable pathToKey : list atom -> string.
Variable canon : string -> atom.

(** An agent that is listed for a path stays listed. *)
Lemma paths_keep_credit (new : list (list atom)) (agent a : string) (K : string) :
  forall paths p,
    assoc K paths = Some p -> In a (p_aras p) ->
    exists p', assoc K (extendSummaryPaths pathToKey paths new agent) = Some p' /\
               In a (p_aras p').
Proof.
  unfold extendSummaryPaths.
  induction new as [|x tl IH]; simpl; intros paths p Hp Ha; [eauto|].
  destruct (String.eqb_spec K (pathToKey x)) as [->|Hne].
  - rewrite Hp. eapply IH.
    + apply assoc_aset_eq.
    + simpl. apply in_or_app. now left.
  - destruct (assoc (pathToKey x) paths) as [existing|];
      (eapply IH; [rewrite assoc_aset_neq by exact Hne; exact Hp | exact Ha]).
Qed.

(** The agent of a new path is listed for it. *)
Lemma paths_credit (new : list (list atom)) (agent : string) (x : list atom) :
  forall paths,
    In x new ->
    exists p, assoc (pathToKey x) (extendSummaryPaths pathToKey paths new agent)
              = Some p /\ In agent (p_aras p).
Proof.
  induction new as [|y tl IH]; intros paths Hin; [destruct Hin|].
  destruct Hin as [-> | Hin]; [|unfold extendSummaryPaths in *; simpl; apply IH, Hin].
  unfold extendSummaryPaths. simpl.
  destruct (assoc (pathToKey x) paths) as [existing|].
  - eapply paths_keep_credit.
    + apply assoc_aset_eq.
    + simpl. apply in_or_app. right. now left.
  - eapply paths_keep_credit.
    + apply assoc_aset_eq.
    + simpl. now left.
Qed.

Lemma mergeAll_keeps_credit (css : list condensedSummary) (a K : string) :
  forall m0 m p,
    foldM (extendSummary pathToKey canon) css m0 = Ret m ->
    assoc K (m_paths m0) = Some p -> In a (p_aras p) ->
    exists p', assoc K (m_paths m) = Some p' /\ In a (p_aras p').
Proof.
  induction css as [|cs tl IH]; simpl; intros m0 m p H Hp Ha.
  - inversion H; subst. eauto.
  - inv_bind H. unfold extendSummary in Ha0. inv_bind Ha0. inv_bind Ha0.
    inversion Ha0; subst; clear Ha0.
    destruct (@paths_keep_credit (sf_paths (cs_fragment cs)) (cs_agent cs) a K
                _ _ Hp Ha) as (p1 & Hp1 & Ha1').
    eapply IH; [exact H | exact Hp1 | exact Ha1'].
Qed.

Lemma mergeAll_credit (css : list condensedSummary) :
  forall m0 m,
    foldM (extendSummary pathToKey canon) css m0 = Ret m ->
    forall cs x, In cs css -> In x (sf_paths (cs_fragment cs)) ->
      exists p, assoc (pathToKey x) (m_paths m) = Some p /\
                In (cs_agent cs) (p_aras p).
Proof.
  induction css as [|cs0 tl IH]; simpl; intros m0 m H cs x Hcs Hx; [destruct Hcs|].
  inv_bind H. destruct Hcs as [-> | Hcs]; [|eapply IH; eauto].
  unfold extendSummary in Ha. inv_bind Ha. inv_bind Ha.
  inversion Ha; subst; clear Ha.
  destruct (@paths_credit (sf_paths (cs_fragment cs)) (cs_agent cs) x
              (m_paths m0) Hx) as (p & Hp & Hag).
  eapply mergeAll_keeps_credit; [exact H | exact Hp | exact Hag].
Qed.

End WithInterfaces.

Section Summary.

Context {BL : Biolink} {EV : Evidence}.
Variable pathToKey : list atom -> string.
Variable maxHops : nat.

(** X12.  A path that the fragment of an agent holds has an entry in the
    paths of the summary, under its key, and the entry lists the agent; and
    the subgraph of every entry is a path of a fragment with the key of the
    entry, without its repeated elements. *)
Theorem paths_credit_their_agents (qid : string) (answers : list answer)
        (s : summary) :
  creativeAnswersToSummary pathToKey maxHops qid answers = Ret s ->
  exists css,
    condensed pathToKey maxHops answers = Ret css /\
    (forall cs path,
       In cs css -> In path (sf_paths (cs_fragment cs)) ->
       exists p, assoc (pathToKey path) (s_paths s) = Some p /\
                 In (cs_agent cs) (p_aras p)) /\
    (forall K p,
       In (K, p) (s_paths s) ->
       exists path, In path (pathsOf css) /\ pathToKey path = K /\
                    subgraph p = dedupBy atom_eqb path).
Proof.
  intros H.
  destruct (SummaryFacts.creativeAnswersToSummary_stages _ _ _ _ H)
    as (mapping & css & m & Hmap & Hcs & Hm & Hf).
  exists css. split; [|split].
  - unfold condensed. rewrite Hmap. simpl. exact Hcs.
  - intros cs path Hin Hp. unfold mergeAll in Hm.
    assert (Hc : exists p, assoc (pathToKey path) (m_paths m) = Some p /\
                           In (cs_agent cs) (p_aras p))
      by (eapply mergeAll_credit; eauto).
    destruct Hc as (p & Hp' & Ha).
    rewrite (AgentFacts.finish_path_entries _ _ _ _ Hf), assoc_onValues, Hp'.
    simpl. eexists. split; [reflexivity|]. simpl. now apply in_dedup.
  - intros K p Hin.
    rewrite (AgentFacts.finish_path_entries _ _ _ _ Hf) in Hin.
    apply in_onValues in Hin. destruct Hin as (p0 & Hin & ->).
    unfold mergeAll in Hm.
    assert (Hp : forall K pe, In (K, pe) (m_paths m) ->
                   In (subgraph pe) (pathsOf css) /\ pathToKey (subgraph pe) = K).
    { eapply BucketFacts.mergeAll_inv with (S := fun path => In path (pathsOf css));
        [exact Hm | | intros ? ? [] | intros ? ? []].
      intros cs Hcs' path Hpath. unfold pathsOf. apply in_flat_map. eauto. }
    destruct (Hp _ _ Hin) as (HS & HK). exists (subgraph p0). auto.
Qed.

End Summary.
End PathEntryFacts.

Module PathBoundFacts.
Import Merge Summarize Results Summary OrderSpec BoundSpec.
Section WithInterfaces.

Context {BL : Biolink} {EV : Evidence}.
Variable pathToKey : list atom -> string.
Variable canon : string -> atom.
Variable maxHops : nat.

(** The path finder yields paths within the hop limit. *)
Lemma rgraphPaths_within (outEdges : list (string * list Rgraph.outEdge))
      (disease drug : string) (fuel : nat) (ps : list (list string)) :
  Rgraph.rgraphPaths canon outEdges disease maxHops fuel drug = Some ps ->
  Forall (withinHops maxHops (A := string)) ps.
Proof.
  unfold Rgraph.rgraphPaths.
  apply PathHeadFacts.rgraphFold_all
    with (P := fun p : list string => Nat.odd (List.length p) = true).
  - intros p Hp. unfold Rgraph.extend.
    destruct (Nat.ltb _ _) eqn:El; [simpl; auto|].
    apply Nat.ltb_ge in El. unfold Rgraph.maxPathLength in El.
    destruct (String.eqb _ _); simpl.
    + split; [constructor|]. constructor; [|constructor]. split; assumption.
    + split; [|constructor]. apply Forall_forall. intros c Hc.
      apply in_map_iff in Hc. destruct Hc as (oe & <- & _).
      rewrite length_app. simpl. rewrite Nat.add_comm. simpl.
      now rewrite Nat.odd_succ, Nat.even_succ.
  - constructor; [reflexivity | constructor].
  - constructor.
Qed.

(** Normalizing a path of odd length keeps its length. *)
Lemma normalizePath_length (kg : kgraph) (n : nat) :
  forall path p,
    List.length path <= n ->
    Nat.odd (List.length path) = true ->
    Fragment.normalizePath pathToKey canon path kg = Ret p ->
    List.length p = List.length path.
Proof.
  induction n as [|n IH]; intros path p Hn Ho H.
  - destruct path; [discriminate | simpl in Hn; lia].
  - destruct path as [|x [|e tl]]; [discriminate | |].
    + simpl in H. inversion H; subst. reflexivity.
    + simpl in H. inv_bind H. inv_bind H. inversion H; subst; clear H.
      destruct tl as [|y tl']; [discriminate|].
      assert (E : List.length a0 = List.length (y :: tl')).
      { apply IH; [simpl in *; lia | | exact Ha0].
        change (List.length (x :: e :: y :: tl'))
          with (S (S (List.length (y :: tl')))) in Ho.
        now rewrite Nat.odd_succ_succ in Ho. }
      simpl in *. lia.
Qed.

Lemma fragment_paths_within (r : trapiResult) (kg : kgraph) (f : resultFragment) :
  Fragment.trapiResultToSummaryFragment pathToKey canon maxHops r kg = Ret f ->
  Forall (withinHops maxHops (A := atom)) (rf_paths f).
Proof.
  unfold Fragment.trapiResultToSummaryFragment. intros H.
  repeat (first
    [ inv_bind H
    | match type of H with
      | context [match ?x with _ => _ end] => destruct x eqn:?
      end ]);
    try discriminate; inversion H; subst; clear H; simpl; try constructor.
  match goal with
  | Hn : Fragment.normalizePaths _ _ _ _ = Ret _,
    Hp : Rgraph.rgraphPaths _ _ _ _ _ _ = Some _ |- _ =>
      unfold Fragment.normalizePaths in Hn;
      eapply PathHeadFacts.mapM_Forall;
        [|eapply rgraphPaths_within; exact Hp | exact Hn]
  end.
  intros x y (Ho & Hl) Hy. simpl in Hy.
  pose proof (@normalizePath_length kg (List.length x) x y (le_n _) Ho Hy) as E.
  unfold withinHops. now rewrite E.
Qed.

Lemma reduceResults_within (kg : kgraph) (rs : list trapiResult) :
  forall acc f,
    Fragment.reduceResults pathToKey canon maxHops rs kg acc = Ret f ->
    Forall (withinHops maxHops (A := atom)) (sf_paths acc) ->
    Forall (withinHops maxHops (A := atom)) (sf_paths f).
Proof.
  induction rs as [|r tl IH]; simpl; intros acc f H Hacc.
  - inversion H; subst. exact Hacc.
  - inv_bind H. eapply IH; [exact H|]. simpl.
    apply Forall_app. split; [exact Hacc | eapply fragment_paths_within; eauto].
Qed.

Lemma condensed_within (answers : list answer) (css : list condensedSummary) :
  Fragment.creativeAnswersToCondensedSummaries
    pathToKey canon maxHops answers = Ret css ->
  Forall (withinHops maxHops (A := atom)) (pathsOf css).
Proof.
  unfold Fragment.creativeAnswersToCondensedSummaries. intros H.
  apply Forall_forall. intros p Hp. unfold pathsOf in Hp.
  apply in_flat_map in Hp. destruct Hp as (cs & Hcs & Hp).
  destruct (mapM_In _ _ H _ Hcs) as (a & _ & Ha).
  unfold Fragment.answerToCondensedSummary in Ha. inv_bind Ha.
  inversion Ha; subst; clear Ha. simpl in Hp.
  pose proof (reduceResults_within _ _ _ Ha0 (Forall_nil _)) as Hf.
  rewrite Forall_forall in Hf. auto.
Qed.

End WithInterfaces.

Lemma dedupBy_length {A : Type} (eqb : A -> A -> bool) (l : list A) :
  List.length (dedupBy eqb l) <= List.length l.
Proof.
  induction l as [|x tl IH]; simpl; [lia|].
  pose proof (filter_length_le (fun y => negb (eqb y x)) (dedupBy eqb tl)). lia.
Qed.

Section Summary.

Context {BL : Biolink} {EV : Evidence}.
Variable pathToKey : list atom -> string.
Variable maxHops : nat.

(** X13.  Every path of the summary is within the hop limit: its subgraph
    has at least one and at most [2 * maxHops + 1] elements, and it is what
    is left, once the repeated elements are removed, of a path of a fragment of
    odd length at most [2 * maxHops + 1]. *)
Theorem paths_are_within_the_hop_limit (qid : string) (answers : list answer)
        (s : summary) :
  creativeAnswersToSummary pathToKey maxHops qid answers = Ret s ->
  forall K p, In (K, p) (s_paths s) ->
    1 <= List.length (subgraph p) <= 2 * maxHops + 1 /\
    exists path, withinHops maxHops path /\ pathToKey path = K /\
                 subgraph p = dedupBy atom_eqb path.
Proof.
  intros H K p Hin.
  destruct (SummaryFacts.creativeAnswersToSummary_stages _ _ _ _ H)
    as (mapping & css & m & Hmap & Hcs & Hm & Hf).
  rewrite (AgentFacts.finish_path_entries _ _ _ _ Hf) in Hin.
  apply in_onValues in Hin. destruct Hin as (p0 & Hin & ->).
  pose proof (condensed_within _ _ _ _ Hcs) as Hw. rewrite Forall_forall in Hw.
  unfold mergeAll in Hm.
  assert (Hp : forall K pe, In (K, pe) (m_paths m) ->
                 withinHops maxHops (subgraph pe) /\ pathToKey (subgraph pe) = K).
  { eapply BucketFacts.mergeAll_inv with (S := withinHops maxHops (A := atom));
      [exact Hm | | intros ? ? [] | intros ? ? []].
    intros cs Hcs' path Hpath. apply Hw. unfold pathsOf. apply in_flat_map. eauto. }
  destruct (Hp _ _ Hin) as ((Ho & Hl) & HK). simpl. split.
  - pose proof (dedupBy_length atom_eqb (subgraph p0)).
    destruct (subgraph p0) as [|x tl]; [discriminate|]. simpl in *. lia.
  - exists (subgraph p0). repeat split; assumption.
Qed.

End Summary.
End PathBoundFacts.

Module AdjacencyFacts.
Import Rgraph OutEdgeFacts.
Section WithBiolink.

Context {BL : Biolink}.

(** X14.  The adjacency that [makeRnodeToOutEdges] builds is that of an
    undirected graph: a node has an out edge to a target along an edge
    exactly when the target has an out edge to the node along the same edge;
    and the out edges of a node are the edges of the reduced graph that have
    the node as subject or as object, each leading to the other end. *)
Theorem out_edges_are_symmetric (rg : rgraph) (kg : kgraph)
        (m : list (string * list outEdge)) :
  makeRnodeToOutEdges rg kg = Ret m ->
  forall redge a b,
    (In {| oe_redge := redge; oe_target := b |} (rnodeToOutEdges m a) <->
     In {| oe_redge := redge; oe_target := a |} (rnodeToOutEdges m b)) /\
    (In {| oe_redge := redge; oe_target := b |} (rnodeToOutEdges m a) <->
     In redge (rg_edges rg) /\
     exists e, assoc redge (kg_edges kg) = Some e /\
               ((ke_subject e = a /\ ke_object e = b) \/
                (ke_object e = a /\ ke_subject e = b))).
Proof.
  unfold makeRnodeToOutEdges. intros H redge a b.
  assert (Hc : forall x y,
             In {| oe_redge := redge; oe_target := y |} (rnodeToOutEdges m x) <->
             In redge (rg_edges rg) /\
             exists e, assoc redge (kg_edges kg) = Some e /\
                       ((ke_subject e = x /\ ke_object e = y) \/
                        (ke_object e = x /\ ke_subject e = y))).
  { intros x y. rewrite (outEdgesOf_In _ _ _ H). simpl.
    split; [intros [[] | Hr]; exact Hr | auto]. }
  split; [|apply Hc].
  rewrite !Hc. split; intros (Hin & e & He & Hd); (split; [exact Hin|]);
    exists e; (split; [exact He|]); tauto.
Qed.

End WithBiolink.
End AdjacencyFacts.

Module ComparatorFacts.
Import Results.

Lemma ltb_asym (s t : string) : String.ltb s t = true -> String.ltb t s = false.
Proof.
  unfold String.ltb. rewrite (String.compare_antisym t s).
  destruct (String.compare s t); simpl; congruence.
Qed.

Lemma jsLt_asym (a b : atom) : jsLt a b = true -> jsLt b a = false.
Proof.
  destruct a, b; simpl; try discriminate; try reflexivity. apply ltb_asym.
Qed.

Lemma compareEven_opp (n : nat) :
  forall p q, List.length p <= n ->
              compareEven p q = Z.opp (compareEven q p).
Proof.
  induction n as [|n IH]; intros p q Hn.
  - destruct p; [|simpl in Hn; lia]. destruct q; reflexivity.
  - destruct p as [|a r1]; [destruct q; reflexivity|].
    destruct q as [|b r2]; [reflexivity|]. simpl.
    destruct (jsLt a b) eqn:Eab.
    + now rewrite (jsLt_asym _ _ Eab).
    + destruct (jsLt b a); [reflexivity|].
      destruct r1 as [|e1 t1]; [destruct r2; reflexivity|].
      destruct r2 as [|e2 t2]; [reflexivity|].
      apply IH. simpl in Hn. lia.
Qed.

(** X15.  The comparator of the paths of a result is antisymmetric: the
    comparison of two paths in one order is the opposite of their comparison
    in the other order, and a path compares equal to itself. *)
Theorem isPathLessThan_is_antisymmetric (path1 path2 : list atom) :
  isPathLessThan path1 path2 = Z.opp (isPathLessThan path2 path1) /\
  isPathLessThan path1 path1 = 0%Z.
Proof.
  assert (H : forall p q, isPathLessThan p q = Z.opp (isPathLessThan q p)).
  { intros p q. unfold isPathLessThan. rewrite (Nat.eqb_sym (List.length q)).
    destruct (Nat.eqb_spec (List.length p) (List.length q)) as [E|E].
    - apply (@compareEven_opp (List.length p) p q (le_n _)).
    - destruct (Nat.ltb_spec (List.length p) (List.length q)),
               (Nat.ltb_spec (List.length q) (List.length p));
        try reflexivity; lia. }
  split; [apply H|]. specialize (H path1 path1). lia.
Qed.

End ComparatorFacts.

Module PublicationOrderFacts.
Import Merge Summarize Results Summary EdgeSpec Stages PublicationFacts EdgeTableFacts.
Section WithInterfaces.

Context {BL : Biolink} {EV : Evidence}.
Variable pathToKey : list atom -> string.
Variable maxHops : nat.

Lemma last_listing (edges : list (string * sedge)) (id : string) (p : publication) :
  assoc id (fold_left extendSummaryPublications (map snd edges) []) = Some p ->
  exists l1 K e l2,
    edges = l1 ++ (K, e) :: l2 /\
    In id (e_publications e) /\
    (forall K' e', In (K', e') l2 -> ~ In id (e_publications e')) /\
    p = publicationOf e id.
Proof.
  induction edges as [|(K, e) l IH] using rev_ind; [discriminate|].
  rewrite map_app, fold_left_app. simpl. rewrite publications_of_edge.
  destruct (mem id (e_publications e)) eqn:E.
  - intros H. inversion H; subst. apply mem_In in E.
    exists l, K, e, []. split; [reflexivity | split; [exact E | split]];
      [intros ? ? [] | reflexivity].
  - intros H. destruct (IH H) as (l1 & K0 & e0 & l2 & -> & Hin & Hno & ->).
    exists l1, K0, e0, (l2 ++ [(K, e)]).
    split; [|split; [exact Hin | split; [|reflexivity]]].
    + now rewrite <- app_assoc.
    + intros K' e' Hin'. apply in_app_or in Hin'.
      destruct Hin' as [Hin' | [Heq | []]]; [eauto|].
      inversion Heq; subst. now apply mem_not_In.
Qed.

(** X16.  The entry of a publication in the summary is made from the last
    of the edges built from the fragments that lists the publication, in the
    order in which [Object.values] lists the edges (the keys that are array
    indices first, in ascending order, then the others as the fragments
    brought them): its snippet and its date are those of the first snippet of
    that edge that has the publication, and they are [null] when that edge
    has none, whatever the edges before it had. *)
Theorem publication_is_of_the_last_listing_edge (qid : string)
        (answers : list answer) (s : summary) :
  creativeAnswersToSummary pathToKey maxHops qid answers = Ret s ->
  forall id p, assoc id (s_publications s) = Some p ->
    exists l1 K e l2,
      enumerate (fragmentEdges pathToKey maxHops answers) = l1 ++ (K, e) :: l2 /\
      In id (e_publications e) /\
      (forall K' e', In (K', e') l2 -> ~ In id (e_publications e')) /\
      p = publicationOf e id.
Proof.
  intros H id p Hp.
  destruct (OrderFacts.stage_definitions _ _ _ _ H)
    as (mapping & css & m & _ & _ & _ & Hf & _ & He).
  destruct (finish_edges _ _ _ _ Hf) as (_ & Hpub).
  rewrite Hpub, edges_publications in Hp. rewrite He.
  now apply last_listing.
Qed.

End WithInterfaces.
End PublicationOrderFacts.

Module ResultDrugFacts.
Import Merge Summarize Results Summary OrderSpec Stages KeySetFacts BucketFacts
       OrderFacts.
Section WithInterfaces.

Context {BL : Biolink} {EV : Evidence}.
Variable pathToKey : list atom -> string.
Variable maxHops : nat.

Lemma results_NoDup (new : list (list atom)) :
  forall results,
    NoDup (akeys results) ->
    NoDup (akeys (extendSummaryResults pathToKey results new)).
Proof.
  unfold extendSummaryResults.
  induction new as [|x tl IH]; simpl; intros results Hn; [exact Hn|].
  apply IH. now apply akeys_aset_NoDup.
Qed.

Lemma mergeAll_results_NoDup (canon : string -> atom) (css : list condensedSummary) :
  forall m0 m,
    foldM (extendSummary pathToKey canon) css m0 = Ret m ->
    NoDup (akeys (m_results m0)) -> NoDup (akeys (m_results m)).
Proof.
  induction css as [|cs tl IH]; simpl; intros m0 m H Hn.
  - now inversion H; subst.
  - inv_bind H. unfold extendSummary in Ha. inv_bind Ha. inv_bind Ha.
    inversion Ha; subst; clear Ha.
    apply (IH _ _ H). simpl. now apply results_NoDup.
Qed.

Lemma mapM_map_eq {A B C D : Type} (f : B -> outcome C) (g : A -> B)
      (h : C -> D) (k : A -> D) (l : list A) :
  forall l',
    Fragment.mapM f (map g l) = Ret l' ->
    (forall x y, In x l -> f (g x) = Ret y -> h y = k x) ->
    map h l' = map k l.
Proof.
  induction l as [|x tl IH]; simpl; intros l' H Hf.
  - now inversion H; subst.
  - inv_bind H. inv_bind H. inversion H; subst; clear H. simpl.
    f_equal; [apply Hf; auto | apply IH; auto].
Qed.

(** X17.  When the keys of the paths tell the paths of the fragments
    apart, the summary has one result for each drug: the subjects of its
    results are distinct, and they are the first elements of the paths of the
    fragments. *)
Theorem one_result_for_each_drug (qid : string) (answers : list answer)
        (s : summary) :
  creativeAnswersToSummary pathToKey maxHops qid answers = Ret s ->
  (forall p q,
     In p (fragmentPaths pathToKey maxHops answers) ->
     In q (fragmentPaths pathToKey maxHops answers) ->
     pathToKey p = pathToKey q -> p = q) ->
  NoDup (resultDrugs s) /\
  forall drug,
    In drug (resultDrugs s) <->
    exists p, In p (fragmentPaths pathToKey maxHops answers) /\ pathDrug p = drug.
Proof.
  intros H Hinj.
  destruct (stage_definitions _ _ _ _ H)
    as (mapping & css & m & Hmap & Hcs & Hm & Hf & Efp & Efe).
  rewrite Efp in *. unfold mergeAll in Hm.
  destruct (mergeAll_keys _ _ _ _ Hm) as (Kr & _ & _).
  assert (Hinv :
    (forall K pe, In (K, pe) (m_paths m) ->
                  In (subgraph pe) (pathsOf css) /\ pathToKey (subgraph pe) = K) /\
    (forall k pids, In (k, pids) (m_results m) ->
       forall pid, In pid pids ->
         exists p, In p (pathsOf css) /\ pid = pathToKey p /\ pathDrug p = k)).
  { eapply mergeAll_inv with (S := fun p => In p (pathsOf css));
      [exact Hm | | intros ? ? [] | intros ? ? []].
    intros cs Hin p Hp. unfold pathsOf. apply in_flat_map. eauto. }
  destruct Hinv as (Pm & Bm).
  assert (Ekeys : resultDrugs s = akeys (m_results m)).
  { pose proof (ResultScoreFacts.finish_results _ _ _ _ Hf) as Hres.
    unfold expandResults, avalues in Hres. rewrite map_map in Hres.
    unfold resultDrugs, akeys.
    eapply mapM_map_eq; [exact Hres|].
    intros (k, pids) r Hin Hr. simpl in *.
    eapply expandResult_subject with (S := fun p => In p (pathsOf css));
      [exact Hinj | exact Pm | | exact Hr].
    intros pid Hpid. eapply Bm; eauto. }
  rewrite Ekeys. split.
  - eapply mergeAll_results_NoDup; [exact Hm | constructor].
  - intros drug. rewrite Kr. simpl. split.
    + intros [[] | (p & Hp & ->)]. eauto.
    + intros (p & Hp & <-). right. eauto.
Qed.

End WithInterfaces.
End ResultDrugFacts.

Module BindingFacts.
Import Merge Summarize Results Summary OrderSpec Stages KeySetFacts BindingSpec.
Section WithInterfaces.

Context {BL : Biolink} {EV : Evidence}.
Variable pathToKey : list atom -> string.
Variable canon : string -> atom.
Variable maxHops : nat.

Lemma filterEdges_In (kg : kgraph) (redges : list string) :
  forall edges,
    Rgraph.filterEdges redges kg = Ret edges ->
    forall redge, In redge edges ->
      In redge redges /\
      exists e, assoc redge (kg_edges kg) = Some e /\
                isBiolinkPredicate (ke_predicate e) = true.
Proof.
  induction redges as [|r tl IH]; simpl; intros edges H redge Hin.
  - inversion H; subst. destruct Hin.
  - inv_bind H. inv_bind H. inversion H; subst; clear H.
    unfold Rgraph.redgeToTrapiKedge in Ha.
    destruct (assoc r (kg_edges kg)) as [e|] eqn:Er; [|discriminate].
    inversion Ha; subst a; clear Ha.
    destruct (isBiolinkPredicate (ke_predicate e)) eqn:Eb.
    + destruct Hin as [<- | Hin]; [split; [now left | eauto]|].
      destruct (IH _ Ha0 _ Hin). split; [now right | assumption].
    + destruct (IH _ Ha0 _ Hin). split; [now right | assumption].
Qed.

(** The updates of the fragment of a result are those of its bound nodes
    and of its bound edges with a biolink predicate. *)
Lemma fragment_updates (r : trapiResult) (kg : kgraph) (f : resultFragment) :
  Fragment.trapiResultToSummaryFragment pathToKey canon maxHops r kg = Ret f ->
  (forall u, In u (rf_nodes f) ->
     exists curie, In curie (Rgraph.flattenBindings (node_bindings r)) /\
                   nu_key u = canon curie) /\
  (forall u, In u (rf_edges f) ->
     exists redge e,
       In redge (Rgraph.flattenBindings (edge_bindings r)) /\
       assoc redge (kg_edges kg) = Some e /\
       isBiolinkPredicate (ke_predicate e) = true /\
       eu_key u = Fragment.kedgeToKey pathToKey canon e false).
Proof.
  unfold Fragment.trapiResultToSummaryFragment. intros H.
  apply bind_ret in H. destruct H as (org & Hrg & H).
  destruct org as [rg|]; [|inversion H; subst; simpl; split; intros ? []].
  apply bind_ret in H. destruct H as (drug & _ & H).
  apply bind_ret in H. destruct H as (disease & _ & H).
  destruct (Fragment.bound drug);
    [|inversion H; subst; simpl; split; intros ? []].
  destruct (Fragment.bound disease);
    [|inversion H; subst; simpl; split; intros ? []].
  apply bind_ret in H. destruct H as (out & _ & H).
  destruct (Rgraph.rgraphPaths _ _ _ _ _ _); [|discriminate].
  apply bind_ret in H. destruct H as (paths & _ & H).
  apply bind_ret in H. destruct H as (nodes & Hnodes & H).
  apply bind_ret in H. destruct H as (edges & Hedges & H).
  inversion H; subst f; clear H. simpl.
  unfold Rgraph.trapiResultToRgraph in Hrg.
  apply FinderFacts.makeRgraph_edges in Hrg. destruct Hrg as (Hf & Hn).
  split.
  - intros u Hu. destruct (mapM_In _ _ Hnodes _ Hu) as (rnode & Hin & E).
    unfold Fragment.summarizeRnode in E.
    destruct (assoc rnode (kg_nodes kg)); [|discriminate].
    inversion E; subst u. simpl. exists rnode. rewrite <- Hn. auto.
  - intros u Hu. destruct (mapM_In _ _ Hedges _ Hu) as (redge & Hin & E).
    unfold Fragment.summarizeRedge in E. inv_bind E. inversion E; subst u.
    simpl. destruct (filterEdges_In _ _ Hf _ Hin) as (Hb & e & He & Hp).
    unfold Rgraph.redgeToTrapiKedge in Ha. rewrite He in Ha. inversion Ha; subst a.
    exists redge, e. auto.
Qed.

Lemma reduceResults_updates (kg : kgraph) (rs : list trapiResult) :
  forall acc f,
    Fragment.reduceResults pathToKey canon maxHops rs kg acc = Ret f ->
    (forall u, In u (sf_nodes f) ->
       In u (sf_nodes acc) \/
       exists r fr, In r rs /\
         Fragment.trapiResultToSummaryFragment pathToKey canon maxHops r kg = Ret fr /\
         In u (rf_nodes fr)) /\
    (forall u, In u (sf_edges f) ->
       In u (sf_edges acc) \/
       exists r fr, In r rs /\
         Fragment.trapiResultToSummaryFragment pathToKey canon maxHops r kg = Ret fr /\
         In u (rf_edges fr)).
Proof.
  induction rs as [|r tl IH]; simpl; intros acc f H.
  - inversion H; subst. auto.
  - inv_bind H. destruct (IH _ _ H) as (Hn & He). simpl in Hn, He. split.
    + intros u Hu. destruct (Hn _ Hu) as [Hin | (r' & fr & Hr & Hfr & Hin)].
      * apply in_app_or in Hin. destruct Hin as [Hin | Hin]; [auto|].
        right. exists r, a. auto.
      * right. exists r', fr. auto.
    + intros u Hu. destruct (He _ Hu) as [Hin | (r' & fr & Hr & Hfr & Hin)].
      * apply in_app_or in Hin. destruct Hin as [Hin | Hin]; [auto|].
        right. exists r, a. auto.
      * right. exists r', fr. auto.
Qed.

Lemma condensed_updates (answers : list answer) (css : list condensedSummary) :
  Fragment.creativeAnswersToCondensedSummaries
    pathToKey canon maxHops answers = Ret css ->
  (forall cs u, In cs css -> In u (sf_nodes (cs_fragment cs)) ->
                boundNodeKey canon answers (render (nu_key u))) /\
  (forall cs u, In cs css -> In u (sf_edges (cs_fragment cs)) ->
                boundEdgeKey pathToKey canon answers (eu_key u)).
Proof.
  unfold Fragment.creativeAnswersToCondensedSummaries. intros H.
  split; intros cs u Hcs Hu;
    destruct (mapM_In _ _ H _ Hcs) as (a & Ha & E);
    unfold Fragment.answerToCondensedSummary in E;
    apply bind_ret in E; destruct E as (f & Hred & E);
    inversion E; subst cs; clear E; simpl in Hu;
    destruct (reduceResults_updates _ _ _ Hred) as (Hn & He).
  - destruct (Hn _ Hu) as [[] | (r & fr & Hr & Hfr & Hin)].
    destruct (fragment_updates _ _ Hfr) as (Hfn & _).
    destruct (Hfn _ Hin) as (curie & Hc & Hk).
    exists a, r, curie. rewrite Hk. auto.
  - destruct (He _ Hu) as [[] | (r & fr & Hr & Hfr & Hin)].
    destruct (fragment_updates _ _ Hfr) as (_ & Hfe).
    destruct (Hfe _ Hin) as (redge & e & Hb & Hke & Hp & Hk).
    exists a, r, redge, e. rewrite Hk. auto 7.
Qed.

Lemma mergeAll_node_keys (css : list condensedSummary) :
  forall m0 m,
    foldM (extendSummary pathToKey canon) css m0 = Ret m ->
    forall k, In k (akeys (m_nodes m)) ->
              In k (akeys (m_nodes m0)) \/
              exists cs u, In cs css /\ In u (sf_nodes (cs_fragment cs)) /\
                           k = render (nu_key u).
Proof.
  induction css as [|cs tl IH]; simpl; intros m0 m H k Hk.
  - inversion H; subst. auto.
  - inv_bind H. destruct (IH _ _ H _ Hk) as [Hin | (cs' & u & Hcs & Hu & E)].
    + unfold extendSummary in Ha. inv_bind Ha. inv_bind Ha.
      inversion Ha; subst; clear Ha. simpl in Hin.
      unfold extendSummaryNodes in Ha0.
      apply (obj_keys _ _ _ _ _ _ _ Ha0) in Hin.
      destruct Hin as [Hin | (u & Hu & E)]; [auto|].
      right. exists cs, u. auto.
    + right. exists cs', u. auto.
Qed.

End WithInterfaces.

Section Summary.

Context {BL : Biolink} {EV : Evidence}.
Variable pathToKey : list atom -> string.
Variable maxHops : nat.

(** X18.  The nodes of the summary are nodes that the results bind: the
    key of every node is the canonical node of a CURIE in the node bindings
    of a result.  Likewise the key of every edge built from the fragments is
    the key of an edge in the edge bindings of a result, an edge with a
    biolink predicate. *)
Theorem entries_come_from_bindings (qid : string) (answers : list answer)
        (s : summary) :
  creativeAnswersToSummary pathToKey maxHops qid answers = Ret s ->
  exists mapping,
    Canonical.makeCanonicalNodeMapping (resultNodes answers) = Ret mapping /\
    (forall k, In k (akeys (s_nodes s)) ->
               boundNodeKey (Canonical.canonical mapping) answers k) /\
    (forall k, In k (akeys (fragmentEdges pathToKey maxHops answers)) ->
               boundEdgeKey pathToKey (Canonical.canonical mapping) answers k).
Proof.
  intros H.
  destruct (OrderFacts.stage_definitions _ _ _ _ H)
    as (mapping & css & m & Hmap & Hcs & Hm & Hf & _ & Efe).
  exists mapping. split; [exact Hmap|].
  destruct (condensed_updates _ _ _ _ Hcs) as (Hn & He).
  unfold mergeAll in Hm. split.
  - intros k Hk. rewrite (SummaryFacts.finish_nodes _ _ _ _ Hf) in Hk.
    rewrite akeys_onValues in Hk.
    eapply mergeAll_node_keys in Hk; [|exact Hm].
    destruct Hk as [[] | (cs & u & Hcs' & Hu & ->)]. eauto.
  - intros k Hk. rewrite Efe in Hk. unfold cleanedEdges in Hk.
    rewrite akeys_onValues in Hk.
    destruct (mergeAll_keys _ _ _ _ Hm) as (_ & _ & Ke).
    apply Ke in Hk. destruct Hk as [[] | (u & Hu & ->)].
    unfold edgesOf in Hu. apply in_flat_map in Hu.
    destruct Hu as (cs & Hcs' & Hu). eauto.
Qed.

End Summary.
End BindingFacts.

Module QueryFacts.
Import Query.
Section WithCommon.

Variable isObj : json -> bool.
Variable jsonHasKey : json -> string -> bool.

(** A key that [cmn.jsonHasKey] finds is a key of the query, so the reads
    that follow the tests find a value. *)
Hypothesis jsonHasKey_found :
  forall query key, jsonHasKey query key = true ->
                    exists v, prop query key = Ret (Some v).

Lemma stored (query : json) (key : string) (v : json) :
  jsonHasKey query key = true ->
  Cmn.jsonGet query key JNull = Ret v ->
  prop query key = Ret (Some v).
Proof.
  intros Hk H. destruct (jsonHasKey_found Hk) as (w & Hw).
  unfold Cmn.jsonGet in H. rewrite Hw in H. simpl in H. congruence.
Qed.

Lemma read_stored (query : json) (key : string) (v : json) :
  prop query key = Ret (Some v) -> Cmn.jsonGet query key JNull = Ret v.
Proof. intros H. unfold Cmn.jsonGet. rewrite H. reflexivity. Qed.

Lemma has_keys (query : json) :
  forallb (jsonHasKey query) validKeys = true ->
  jsonHasKey query "type" = true /\ jsonHasKey query "curie" = true /\
  jsonHasKey query "direction" = true.
Proof.
  rewrite forallb_forall. intros H.
  repeat split; apply H; simpl; auto.
Qed.

Lemma read_returns (query : json) (key key' : string) (v : json) :
  Cmn.jsonGet query key JNull = Ret v ->
  exists v', Cmn.jsonGet query key' JNull = Ret v'.
Proof.
  unfold Cmn.jsonGet. destruct query; simpl; try discriminate; eauto.
Qed.

Lemma read_ok (query : json) (key : string) (k : json -> completion json)
      (r : json) :
  read query key k = Ok r ->
  exists v, Cmn.jsonGet query key JNull = Ret v /\ k v = Ok r.
Proof.
  unfold read. destruct (Cmn.jsonGet query key JNull); [discriminate | eauto].
Qed.

(** What a request that is accepted was made from. *)
Lemma accepted (query r : json) :
  queryToCreativeQuery isObj jsonHasKey query = Ok r ->
  isObj query = true /\
  forallb (jsonHasKey query) validKeys = true /\
  exists t curie,
    Cmn.jsonGet query "type" JNull = Ret (JStr t) /\
    Cmn.jsonGet query "curie" JNull = Ret curie /\
    ((t = "drug" /\
      r = JObj [("message", JObj [("query_graph", diseaseToTrapiQgraph curie)])]) \/
     (exists direction,
        Cmn.jsonGet query "direction" JNull = Ret direction /\
        ((t = "gene" /\
          r = JObj [("message",
                     JObj [("query_graph",
                            chemicalToTrapiQgraph curie direction)])]) \/
         (t = "chemical" /\
          r = JObj [("message",
                     JObj [("query_graph",
                            geneToTrapiQgraph curie direction)])])))).
Proof.
  unfold queryToCreativeQuery.
  destruct (isObj query); cbn [negb]; [|intros; discriminate].
  destruct (forallb (jsonHasKey query) validKeys); cbn [negb];
    [|intros; discriminate].
  intros H. apply read_ok in H. destruct H as (ty & Hty & H).
  split; [reflexivity | split; [reflexivity|]].
  destruct ty as [| | |t| |]; try discriminate. cbv zeta in H.
  revert H. destruct (String.eqb_spec t "drug") as [->|Hd]; intros H.
  { apply read_ok in H. destruct H as (c & Hc & H). inversion H; subst.
    exists "drug", c. auto. }
  revert H. destruct (String.eqb_spec t "gene") as [->|Hg]; intros H.
  { apply read_ok in H. destruct H as (c & Hc & H).
    apply read_ok in H. destruct H as (d & Hdir & H). inversion H; subst.
    exists "gene", c. split; [exact Hty | split; [exact Hc|]].
    right. exists d. auto. }
  revert H. destruct (String.eqb_spec t "chemical") as [->|Hc']; intros H;
    [|discriminate].
  apply read_ok in H. destruct H as (c & Hc & H).
  apply read_ok in H. destruct H as (d & Hdir & H). inversion H; subst.
  exists "chemical", c. split; [exact Hty | split; [exact Hc|]].
  right. exists d. auto.
Qed.

(** X19.  [queryToCreativeQuery] returns a request exactly for a query that
    passes the tests on the object and on its three keys, [direction]
    included also when the type is [drug], and whose type is one of [drug],
    [gene] and [chemical]. *)
Theorem creative_query_is_accepted_iff (query : json) :
  (exists r, queryToCreativeQuery isObj jsonHasKey query = Ok r) <->
  isObj query = true /\
  (forall key, In key ["type"; "curie"; "direction"] ->
               jsonHasKey query key = true) /\
  exists t, prop query "type" = Ret (Some (JStr t)) /\
            In t ["drug"; "gene"; "chemical"].
Proof.
  split.
  - intros (r & H). destruct (accepted _ H) as (Ho & Hk & t & c & Ht & _ & Hr).
    split; [exact Ho | split].
    + rewrite forallb_forall in Hk. exact Hk.
    + exists t. split; [apply stored; [apply has_keys; exact Hk | exact Ht]|].
      destruct Hr as [(-> & _) | (d & _ & [(-> & _) | (-> & _)])]; simpl; auto.
  - intros (Ho & Hk & t & Ht & Hin). apply read_stored in Ht.
    unfold queryToCreativeQuery. rewrite Ho. cbn [negb].
    assert (Hf : forallb (jsonHasKey query) validKeys = true)
      by (apply forallb_forall; exact Hk).
    rewrite Hf. cbn [negb]. unfold read at 1. rewrite Ht.
    destruct (@read_returns query "type" "curie" _ Ht) as (c & Hc).
    destruct (@read_returns query "type" "direction" _ Ht) as (d & Hd).
    unfold read. rewrite Hc, Hd.
    destruct Hin as [<- | [<- | [<- | []]]]; simpl; eauto.
Qed.

(** X20.  A request that [queryToCreativeQuery] returns holds one query
    graph with the two nodes [sn] and [on] and the one edge [t_edge], an
    inferred edge from [sn] to [on]; the node [sn] is a chemical entity; and
    the CURIE of the query is the id of the node [sn] for the type [gene], of
    the node [on] for the other types, the other node having no id. *)
Theorem creative_query_has_one_inferred_edge (query r : json) :
  queryToCreativeQuery isObj jsonHasKey query = Ok r ->
  exists qg e t curie,
    queryGraph r = Some qg /\ edgeOf qg = Some e /\
    assoc "subject" e = Some (JStr subjectKey) /\
    assoc "object" e = Some (JStr objectKey) /\
    assoc "knowledge_type" e = Some (JStr "inferred") /\
    prop query "type" = Ret (Some (JStr t)) /\
    prop query "curie" = Ret (Some curie) /\
    nodeOf qg subjectKey =
      Some (nodeToQgNode
              {| category := "ChemicalEntity";
                 id := if String.eqb t "gene" then Some curie else None |}) /\
    nodeOf qg objectKey =
      Some (nodeToQgNode
              {| category := if String.eqb t "drug" then "Disease" else "Gene";
                 id := if String.eqb t "gene" then None else Some curie |}).
Proof.
  intros H. destruct (accepted _ H) as (_ & Hk & t & c & Ht & Hc & Hr).
  apply has_keys in Hk. destruct Hk as (Hkt & Hkc & _).
  apply stored in Ht; [|exact Hkt]. apply stored in Hc; [|exact Hkc].
  destruct Hr as [(-> & ->) | (d & _ & [(-> & ->) | (-> & ->)])];
    eexists; eexists; eexists; exists c;
    (split; [reflexivity|]); (split; [reflexivity|]);
    repeat (split; [first [reflexivity | eassumption]|]); reflexivity.
Qed.

(** X21.  The edge of the request has qualifier constraints exactly when
    the type of the query is not [drug] and its direction is truthy; the
    direction of a query of type [drug] is not used. *)
Theorem creative_query_direction (query r : json) :
  queryToCreativeQuery isObj jsonHasKey query = Ok r ->
  exists qg e t direction,
    queryGraph r = Some qg /\ edgeOf qg = Some e /\
    prop query "type" = Ret (Some (JStr t)) /\
    prop query "direction" = Ret (Some direction) /\
    (assoc "qualifier_constraints" e <> None <->
     t <> "drug" /\ truthy direction = true).
Proof.
  intros H. destruct (accepted _ H) as (_ & Hk & t & c & Ht & Hc & Hr).
  apply has_keys in Hk. destruct Hk as (Hkt & _ & Hkd).
  destruct (@read_returns query "type" "direction" _ Ht) as (d0 & Hd0).
  apply stored in Ht; [|exact Hkt].
  destruct Hr as [(-> & ->) | (d & Hd & [(-> & ->) | (-> & ->)])].
  - apply stored in Hd0; [|exact Hkd].
    eexists; eexists; exists "drug", d0.
    repeat (split; [first [reflexivity | eassumption]|]).
    simpl. split; [intros Hn; now elim Hn | intros (Hn & _); now elim Hn].
  - apply stored in Hd; [|exact Hkd].
    eexists; eexists; exists "gene", d.
    repeat (split; [first [reflexivity | eassumption]|]).
    simpl. destruct (truthy d); simpl;
      (split; [intros Hn | intros (_ & Hn)]); try discriminate;
      try (now elim Hn); split; [discriminate | reflexivity].
  - apply stored in Hd; [|exact Hkd].
    eexists; eexists; exists "chemical", d.
    repeat (split; [first [reflexivity | eassumption]|]).
    simpl. destruct (truthy d); simpl;
      (split; [intros Hn | intros (_ & Hn)]); try discriminate;
      try (now elim Hn); split; [discriminate | reflexivity].
Qed.

End WithCommon.
End QueryFacts.

Module HandlerFacts.
Import Annotation AnnotationSpec.

Lemma before_bracket_spec (s : string) :
  contains "["%char (before_bracket s) = false /\
  exists rest, s = (before_bracket s ++ rest)%string /\
               (rest = "" \/ exists tl, rest = String "["%char tl).
Proof.
  induction s as [|c tl (IH1 & rest & IH2 & IH3)]; simpl.
  - split; [reflexivity|]. exists "". auto.
  - destruct (Ascii.eqb_spec c "["%char) as [->|Hne]; simpl.
    + split; [reflexivity|]. exists (String "["%char tl). split; [reflexivity|].
      right. eauto.
    + split.
      * rewrite IH1. destruct (Ascii.eqb_spec c "["%char); [contradiction | reflexivity].
      * exists rest. split; [now rewrite <- IH2 | exact IH3].
Qed.

(** X22.  The description of a disease is the definition of its ontology
    up to its first opening bracket: it has no opening bracket, and the
    definition continues it with nothing or with an opening bracket. *)
Theorem disease_description_stops_at_bracket (a : json) (d : string) :
  getDiseaseDescription a = Ret (JStr d) ->
  contains "["%char d = false /\
  exists def rest,
    Cmn.jsonGetFromKpath a ["disease_ontology"; "def"] JNull = Ret (JStr def) /\
    def = (d ++ rest)%string /\
    (rest = "" \/ exists tl, rest = String "["%char tl).
Proof.
  unfold getDiseaseDescription. intros H. inv_bind H.
  destruct a0 as [| | |s| |]; try discriminate. inversion H; subst d; clear H.
  destruct (before_bracket_spec s) as (H1 & rest & H2 & H3).
  split; [exact H1|]. exists s, rest. auto.
Qed.





Section Handlers.

Variable getHighLevelRole : json -> option json.
Variable getName : json -> json.

(** X24.  The class of an annotation is decided in the order disease,
    chemical, gene: for an annotation that has [disease_ontology], the
    getters of a chemical and of a gene return [null], whatever else it has;
    and for one without [disease_ontology] that has [chebi], [chembl] or
    [ndc], the getters of a disease and of a gene return [null]. *)
Theorem classes_are_tried_in_order (fields : list (string * json))
        (rest : list json) :
  (assoc "disease_ontology" fields <> None ->
   Forall (fun getter => getter (JObj fields :: rest) = Ret JNull)
     [getNames; getFdaApproval; getChebiRoles getHighLevelRole getName;
      getDrugIndications; getOtc; getSpecies]) /\
  (assoc "disease_ontology" fields = None ->
   (assoc "chebi" fields <> None \/ assoc "chembl" fields <> None \/
    assoc "ndc" fields <> None) ->
   Forall (fun getter => getter (JObj fields :: rest) = Ret JNull)
     [getCuries; getSpecies]).
Proof.
  split.
  - intros Hd.
    assert (E : forall c g, parseAnnotation (JObj fields :: rest) noHandler c g
                            = Ret JNull).
    { intros c g. unfold parseAnnotation, isDisease. simpl.
      destruct (assoc "disease_ontology" fields); [reflexivity | now elim Hd]. }
    repeat constructor; apply E.
  - intros Hd Hc.
    assert (E : forall d g, parseAnnotation (JObj fields :: rest) d noHandler g
                            = Ret JNull).
    { intros d g. unfold parseAnnotation, isDisease, isChemical. simpl.
      rewrite Hd. simpl.
      destruct (assoc "chebi" fields); [reflexivity|]. simpl.
      destruct (assoc "chembl" fields); [reflexivity|]. simpl.
      destruct (assoc "ndc" fields); [reflexivity|].
      destruct Hc as [Hc | [Hc | Hc]]; now elim Hc. }
    repeat constructor; apply E.
Qed.

End Handlers.
End HandlerFacts.

Module ResultEntryFacts.
Import Merge Summarize Results Summary OrderSpec Stages KeySetFacts BucketFacts
       OrderFacts.
Section WithInterfaces.

Context {BL : Biolink} {EV : Evidence}.
Variable pathToKey : list atom -> string.
Variable maxHops : nat.

(** X25.  The drug name of a result is the first name of the node of its
    subject: the names of a node of the summary are never empty, so that the
    subject itself is never taken for the name. *)
Theorem drug_name_is_first_name_of_node (qid : string) (answers : list answer)
        (s : summary) :
  creativeAnswersToSummary pathToKey maxHops qid answers = Ret s ->
  forall r, In r (s_results s) ->
    exists n name rest,
      assoc (render (r_subject r)) (s_nodes s) = Some n /\
      n_names n = name :: rest /\
      r_drug_name r = AStr name.
Proof.
  intros H r Hr.
  destruct (SummaryFacts.creativeAnswersToSummary_stages _ _ _ _ H)
    as (mapping & css & m & _ & _ & _ & Hf).
  pose proof (ResultScoreFacts.finish_results _ _ _ _ Hf) as Hres.
  rewrite (SummaryFacts.finish_nodes _ _ _ _ Hf).
  unfold expandResults in Hres.
  destruct (mapM_In _ _ Hres _ Hr) as (ps & _ & E). clear Hres Hr.
  unfold expandResult in E.
  apply bind_ret in E. destruct E as (resolved & _ & E).
  destruct resolved as [|(pid0, [|drug sub]) tl]; try discriminate.
  apply bind_ret in E. destruct E as (node & Hnode & E).
  apply bind_ret in E. destruct E as (drugScores & _ & E).
  apply bind_ret in E. destruct E as (mean & _ & E).
  inversion E; subst r; clear E. cbn [r_subject r_drug_name].
  unfold fromOption in Hnode.
  destruct (assoc (render drug) (onValues cleanNode (m_nodes m))) as [n|] eqn:En;
    [|discriminate].
  inversion Hnode; subst node; clear Hnode.
  rewrite assoc_onValues in En.
  destruct (assoc (render drug) (m_nodes m)) as [n0|]; [|discriminate].
  simpl in En. inversion En; subst n; clear En.
  assert (Hne : n_names (cleanNode (render drug) n0) <> [])
    by (simpl; apply pushIfEmpty_nonempty).
  destruct (n_names (cleanNode (render drug) n0)) as [|name rest] eqn:Enames;
    [now elim Hne|].
  exists (cleanNode (render drug) n0), name, rest.
  split; [reflexivity | split; [exact Enames | reflexivity]].
Qed.

(** The key of a path is in the bucket of its drug. *)
Lemma results_keep (new : list (list atom)) (k pid : string) :
  forall results pids,
    assoc k results = Some pids -> In pid pids ->
    exists pids', assoc k (extendSummaryResults pathToKey results new) = Some pids' /\
                  In pid pids'.
Proof.
  unfold extendSummaryResults.
  induction new as [|x tl IH]; simpl; intros results pids Hk Hin; [eauto|].
  destruct (String.eqb_spec k (pathDrug x)) as [->|Hne].
  - rewrite Hk. eapply IH; [apply assoc_aset_eq | apply in_or_app; now left].
  - eapply IH; [rewrite assoc_aset_neq by exact Hne; exact Hk | exact Hin].
Qed.

Lemma results_have (new : list (list atom)) (x : list atom) :
  forall results,
    In x new ->
    exists pids,
      assoc (pathDrug x) (extendSummaryResults pathToKey results new) = Some pids /\
      In (pathToKey x) pids.
Proof.
  induction new as [|y tl IH]; intros results Hin; [destruct Hin|].
  destruct Hin as [-> | Hin];
    [|unfold extendSummaryResults in *; simpl; apply IH, Hin].
  unfold extendSummaryResults. simpl.
  eapply results_keep; [apply assoc_aset_eq|].
  apply in_or_app. right. now left.
Qed.

Lemma mergeAll_results_keep (canon : string -> atom) (css : list condensedSummary)
      (k pid : string) :
  forall m0 m pids,
    foldM (extendSummary pathToKey canon) css m0 = Ret m ->
    assoc k (m_results m0) = Some pids -> In pid pids ->
    exists pids', assoc k (m_results m) = Some pids' /\ In pid pids'.
Proof.
  induction css as [|cs tl IH]; simpl; intros m0 m pids H Hk Hin.
  - inversion H; subst. eauto.
  - inv_bind H. unfold extendSummary in Ha. inv_bind Ha. inv_bind Ha.
    inversion Ha; subst; clear Ha.
    destruct (@results_keep (sf_paths (cs_fragment cs)) k pid _ _ Hk Hin)
      as (pids1 & Hk1 & Hin1).
    eapply IH; [exact H | exact Hk1 | exact Hin1].
Qed.

Lemma mergeAll_results_have (canon : string -> atom) (css : list condensedSummary) :
  forall m0 m,
    foldM (extendSummary pathToKey canon) css m0 = Ret m ->
    forall p, In p (pathsOf css) ->
      exists pids, assoc (pathDrug p) (m_results m) = Some pids /\
                   In (pathToKey p) pids.
Proof.
  induction css as [|cs tl IH]; simpl; intros m0 m H p Hp; [destruct Hp|].
  inv_bind H. unfold pathsOf in Hp. simpl in Hp. apply in_app_or in Hp.
  destruct Hp as [Hp | Hp]; [|eapply IH; eauto].
  unfold extendSummary in Ha. inv_bind Ha. inv_bind Ha.
  inversion Ha; subst; clear Ha.
  destruct (@results_have (sf_paths (cs_fragment cs)) p (m_results m0) Hp)
    as (pids & Hk & Hin).
  eapply mergeAll_results_keep; [exact H | exact Hk | exact Hin].
Qed.

Lemma NoDup_In_assoc {A : Type} (m : list (string * A)) (k : string) (v : A) :
  NoDup (akeys m) -> In (k, v) m -> assoc k m = Some v.
Proof.
  induction m as [|(k', v') tl IH]; simpl; intros Hn Hin; [destruct Hin|].
  inversion Hn as [|? ? Hk Htl]; subst.
  destruct Hin as [E | Hin].
  - inversion E; subst. now rewrite String.eqb_refl.
  - destruct (String.eqb_spec k k') as [->|Hne]; [|auto].
    elim Hk. unfold akeys. apply in_map_iff. exists (k', v). auto.
Qed.

Lemma expandResult_paths (paths : list (string * pathEntry))
      (nodes : list (string * snode)) (scores : list (string * list score))
      (ps : list string) (r : result) :
  expandResult paths nodes scores ps = Ret r ->
  forall pid, In pid (r_paths r) <-> In pid ps.
Proof.
  unfold expandResult. intros E.
  apply bind_ret in E. destruct E as (resolved & Hresolved & E).
  assert (Hfst : map fst resolved = ps).
  { clear E. revert resolved Hresolved.
    induction ps as [|x tl IH]; simpl; intros resolved H.
    - now inversion H; subst.
    - inv_bind H. inv_bind H. inversion H; subst; clear H.
      inv_bind Ha. inversion Ha; subst; clear Ha. simpl. f_equal. auto. }
  destruct resolved as [|(pid0, [|drug sub]) tl]; try discriminate.
  apply bind_ret in E. destruct E as (node & _ & E).
  apply bind_ret in E. destruct E as (drugScores & _ & E).
  apply bind_ret in E. destruct E as (mean & _ & E).
  inversion E; subst r; clear E. cbn [r_paths]. intros pid.
  rewrite <- Hfst, !in_map_iff.
  split; intros (x & Ex & Hin); exists x; (split; [exact Ex|]).
  - apply (proj1 (@in_sort _ (fun a b : string * list atom =>
                                isPathLessThan (snd a) (snd b))
                    x ((pid0, drug :: sub) :: tl))) in Hin. exact Hin.
  - apply (proj2 (@in_sort _ (fun a b : string * list atom =>
                                isPathLessThan (snd a) (snd b))
                    x ((pid0, drug :: sub) :: tl))). exact Hin.
Qed.

(** X26.  When the keys of the paths tell the paths of the fragments
    apart, the paths of a result are the paths of its drug: a key is among
    the paths of a result exactly when it is the key of a path of a fragment
    that starts with the subject of the result. *)
Theorem result_paths_are_the_paths_of_its_drug (qid : string)
        (answers : list answer) (s : summary) :
  creativeAnswersToSummary pathToKey maxHops qid answers = Ret s ->
  (forall p q,
     In p (fragmentPaths pathToKey maxHops answers) ->
     In q (fragmentPaths pathToKey maxHops answers) ->
     pathToKey p = pathToKey q -> p = q) ->
  forall r, In r (s_results s) ->
    forall pid,
      In pid (r_paths r) <->
      exists p, In p (fragmentPaths pathToKey maxHops answers) /\
                pathToKey p = pid /\ pathDrug p = render (r_subject r).
Proof.
  intros H Hinj r Hr pid.
  destruct (stage_definitions _ _ _ _ H)
    as (mapping & css & m & Hmap & Hcs & Hm & Hf & Efp & Efe).
  rewrite Efp in *. unfold mergeAll in Hm.
  assert (Hinv :
    (forall K pe, In (K, pe) (m_paths m) ->
                  In (subgraph pe) (pathsOf css) /\ pathToKey (subgraph pe) = K) /\
    (forall k pids, In (k, pids) (m_results m) ->
       forall pid, In pid pids ->
         exists p, In p (pathsOf css) /\ pid = pathToKey p /\ pathDrug p = k)).
  { eapply mergeAll_inv with (S := fun p => In p (pathsOf css));
      [exact Hm | | intros ? ? [] | intros ? ? []].
    intros cs Hin p Hp. unfold pathsOf. apply in_flat_map. eauto. }
  destruct Hinv as (Pm & Bm).
  pose proof (ResultScoreFacts.finish_results _ _ _ _ Hf) as Hres.
  unfold expandResults in Hres.
  destruct (mapM_In _ _ Hres _ Hr) as (ps & Hps & E).
  apply in_map_iff in Hps. destruct Hps as (pids & <- & Hpids).
  unfold avalues in Hpids. apply in_map_iff in Hpids.
  destruct Hpids as ((k, pids') & Heq & Hin). simpl in Heq. subst pids'.
  assert (Hk : render (r_subject r) = k).
  { eapply expandResult_subject with (S := fun p => In p (pathsOf css));
      [exact Hinj | exact Pm | | exact E].
    intros pid' Hpid'. eapply Bm; eauto. }
  rewrite (expandResult_paths _ _ _ _ E), in_dedup, Hk. split.
  - intros Hpid. destruct (Bm _ _ Hin _ Hpid) as (p & Hp & -> & Hd). eauto.
  - intros (p & Hp & <- & Hd).
    assert (Hh : exists pids0, assoc (pathDrug p) (m_results m) = Some pids0 /\
                               In (pathToKey p) pids0)
      by (eapply mergeAll_results_have; eauto).
    destruct Hh as (pids0 & Ha & Hin0).
    assert (Hn : NoDup (akeys (m_results m)))
      by (eapply ResultDrugFacts.mergeAll_results_NoDup; [exact Hm | constructor]).
    rewrite Hd in Ha. rewrite (NoDup_In_assoc _ _ _ Hn Hin) in Ha.
    inversion Ha; subst. exact Hin0.
Qed.

End WithInterfaces.
End ResultEntryFacts.

Module NodeCreditFacts.
Import Merge Summarize Results Summary OrderSpec ReplaySpec ReplayFacts.
Section WithInterfaces.

Context {BL : Biolink} {EV : Evidence}.
Variable pathToKey : list atom -> string.
Variable maxHops : nat.

(** The agents of a node are the agents of its updates, in order. *)
Lemma replay_aras (l : list (string * nodeUpdate)) :
  forall o o',
    replayNodes l o = Ret o' ->
    forall agent,
      In agent (field n_aras o') <->
      In agent (field n_aras o) \/ In agent (map fst l).
Proof.
  induction l as [|au tl IH] using rev_ind; intros o o' H agent.
  - inversion H; subst. simpl. tauto.
  - unfold replayNodes, replay in H. rewrite foldM_app in H.
    apply bind_ret in H. destruct H as (o1 & H1 & H).
    simpl in H. inversion H; subst o'; clear H.
    specialize (IH _ _ H1 agent). rewrite map_app.
    destruct o1 as [n1|]; simpl in *; rewrite ?in_app_iff; simpl; tauto.
Qed.

(** X27.  An agent is listed for a node of the summary exactly when the
    fragment of an answer of the agent has a node update for the key of the
    node. *)
Theorem node_agents_are_its_contributors (qid : string) (answers : list answer)
        (s : summary) :
  creativeAnswersToSummary pathToKey maxHops qid answers = Ret s ->
  exists css,
    condensed pathToKey maxHops answers = Ret css /\
    forall k n, assoc k (s_nodes s) = Some n ->
      forall agent,
        In agent (n_aras n) <->
        exists cs u, In cs css /\ cs_agent cs = agent /\
                     In u (sf_nodes (cs_fragment cs)) /\ nodeKey u = k.
Proof.
  intros H.
  destruct (@summary_node _ _ pathToKey maxHops qid answers s H)
    as (css & Hcs & Hn).
  exists css. split; [exact Hcs|]. intros k n Hk agent.
  destruct (Hn _ _ Hk) as (n0 & Hr & ->).
  apply replay_aras with (agent := agent) in Hr. simpl in Hr.
  change (n_aras (cleanNode k n0)) with (dedup (n_aras n0)).
  rewrite in_dedup, Hr. unfold forKey, nodeUpdatesOf.
  rewrite in_map_iff. split.
  - intros [[] | ((a, u) & <- & Hin)]. apply filter_In in Hin.
    destruct Hin as (Hin & Hkey). apply String.eqb_eq in Hkey. simpl in Hkey.
    apply in_flat_map in Hin. destruct Hin as (cs & Hcs' & Hin).
    apply in_map_iff in Hin. destruct Hin as (u' & E & Hu).
    inversion E; subst. exists cs, u. auto.
  - intros (cs & u & Hcs' & <- & Hu & Hkey). right.
    exists (cs_agent cs, u). split; [reflexivity|].
    apply filter_In. split.
    + apply in_flat_map. exists cs. split; [exact Hcs'|].
      apply in_map_iff. exists u. auto.
    + simpl. now apply String.eqb_eq.
Qed.

End WithInterfaces.
End NodeCreditFacts.

Module SummaryScenarios.
Import Merge Summarize Results Summary OrderSpec Stages EdgeSpec AgentSpec
       ReplaySpec BoundSpec BindingSpec Examples Scenarios.

Lemma twoAgents_returned :
  creativeAnswersToSummary key 3 "Q1" twoAgents = Ret twoAgentsSummary.
Proof. vm_compute. reflexivity. Qed.

Lemma direct_returned :
  creativeAnswersToSummary key 3 "Q1" directAnswers = Ret directSummary.
Proof. vm_compute. reflexivity. Qed.

Lemma approval_returned :
  creativeAnswersToSummary key 3 "Q1" approvalAnswers = Ret approvalSummary.
Proof. vm_compute. reflexivity. Qed.

Lemma direct_paths :
  fragmentPaths key 3 directAnswers = [directPath].
Proof. vm_compute. reflexivity. Qed.

Lemma two_paths :
  fragmentPaths key 3 twoAgents = [directPath; directPath].
Proof. vm_compute. reflexivity. Qed.

Lemma meta_lists_agents_in_order_witness :
  creativeAnswersToSummary key 3 "Q1" twoAgents = Ret twoAgentsSummary /\
  meta_qid (s_meta twoAgentsSummary) = "Q1" /\
  meta_aras (s_meta twoAgentsSummary) = ["ara-a"; "ara-b"].
Proof.
  split; [exact twoAgents_returned|].
  exact (MetaFacts.meta_lists_agents_in_order key 3 "Q1" twoAgents
           twoAgents_returned).
Defined.

Lemma results_refer_to_paths_and_nodes_witness :
  creativeAnswersToSummary key 3 "Q1" directAnswers = Ret directSummary /\
  In directEntry (s_results directSummary) /\
  r_paths directEntry <> [] /\
  (forall pid, In pid (r_paths directEntry) ->
               exists p, assoc pid (s_paths directSummary) = Some p) /\
  (exists n, assoc (render (r_subject directEntry)) (s_nodes directSummary)
             = Some n).
Proof.
  assert (Hin : In directEntry (s_results directSummary)) by (vm_compute; auto).
  split; [exact direct_returned | split; [exact Hin|]].
  exact (MetaFacts.results_refer_to_paths_and_nodes key 3 "Q1" directAnswers
           direct_returned directEntry Hin).
Defined.

Lemma edges_carry_no_snippets_nor_qualifiers_witness :
  creativeAnswersToSummary key 3 "Q1" directAnswers = Ret directSummary /\
  assoc "MONDO:1|treated by|CHEBI:1" (s_edges directSummary) =
    Some (summaryEdge directSummary "MONDO:1|treated by|CHEBI:1") /\
  e_snippets (summaryEdge directSummary "MONDO:1|treated by|CHEBI:1") = None /\
  e_qualifiers (summaryEdge directSummary "MONDO:1|treated by|CHEBI:1") = None.
Proof.
  assert (He : assoc "MONDO:1|treated by|CHEBI:1" (s_edges directSummary) =
               Some (summaryEdge directSummary "MONDO:1|treated by|CHEBI:1"))
    by (vm_compute; reflexivity).
  split; [exact direct_returned | split; [exact He|]].
  exact (FinalEdgeFacts.edges_carry_no_snippets_nor_qualifiers key 3 "Q1"
           directAnswers direct_returned _ He).
Defined.

Lemma edge_publications_are_valid_and_distinct_witness :
  creativeAnswersToSummary key 3 "Q1" directAnswers = Ret directSummary /\
  In ("CHEBI:1|biolink:treats|MONDO:1",
      summaryEdge directSummary "CHEBI:1|biolink:treats|MONDO:1")
     (s_edges directSummary) /\
  NoDup (e_publications
           (summaryEdge directSummary "CHEBI:1|biolink:treats|MONDO:1")) /\
  forall id,
    In id (e_publications
             (summaryEdge directSummary "CHEBI:1|biolink:treats|MONDO:1")) ->
    isValidId id = true.
Proof.
  assert (Hin : In ("CHEBI:1|biolink:treats|MONDO:1",
                    summaryEdge directSummary "CHEBI:1|biolink:treats|MONDO:1")
                   (s_edges directSummary)) by (vm_compute; auto).
  split; [exact direct_returned | split; [exact Hin|]].
  exact (FinalEdgeFacts.edge_publications_are_valid_and_distinct key 3 "Q1"
           directAnswers direct_returned _ _ Hin).
Defined.

Lemma entries_list_answering_agents_witness :
  creativeAnswersToSummary key 3 "Q1" twoAgents = Ret twoAgentsSummary /\
  (forall k n, In (k, n) (s_nodes twoAgentsSummary) ->
               credited ["ara-a"; "ara-b"] (n_aras n)) /\
  (forall k e, In (k, e) (s_edges twoAgentsSummary) ->
               credited ["ara-a"; "ara-b"] (e_aras e)) /\
  (forall k p, In (k, p) (s_paths twoAgentsSummary) ->
               credited ["ara-a"; "ara-b"] (p_aras p)).
Proof.
  split; [exact twoAgents_returned|].
  exact (AgentFacts.entries_list_answering_agents key 3 "Q1" twoAgents
           twoAgents_returned).
Defined.

Lemma node_names_are_the_names_given_witness :
  creativeAnswersToSummary key 3 "Q1" approvalAnswers = Ret approvalSummary /\
  exists css,
    condensed key 3 approvalAnswers = Ret css /\
    forall k n, assoc k (s_nodes approvalSummary) = Some n ->
      n_names n = pushIfEmpty (dedup (namesGiven k css)) k.
Proof.
  split; [exact approval_returned|].
  exact (ReplayFacts.node_names_are_the_names_given key 3 "Q1" approvalAnswers
           approval_returned).
Defined.

Lemma node_fda_info_is_the_last_given_witness :
  creativeAnswersToSummary key 3 "Q1" approvalAnswers = Ret approvalSummary /\
  exists css,
    condensed key 3 approvalAnswers = Ret css /\
    forall k n, assoc k (s_nodes approvalSummary) = Some n ->
      exists last,
        lastNode k css = Some last /\
        n_fda_info n = fdaInfo (kn_attributes last).
Proof.
  split; [exact approval_returned|].
  exact (ReplayFacts.node_fda_info_is_the_last_given key 3 "Q1" approvalAnswers
           approval_returned).
Defined.

Lemma paths_credit_their_agents_witness :
  creativeAnswersToSummary key 3 "Q1" twoAgents = Ret twoAgentsSummary /\
  exists css,
    condensed key 3 twoAgents = Ret css /\
    (forall cs path,
       In cs css -> In path (sf_paths (cs_fragment cs)) ->
       exists p, assoc (key path) (s_paths twoAgentsSummary) = Some p /\
                 In (cs_agent cs) (p_aras p)) /\
    (forall K p,
       In (K, p) (s_paths twoAgentsSummary) ->
       exists path, In path (pathsOf css) /\ key path = K /\
                    subgraph p = dedupBy atom_eqb path).
Proof.
  split; [exact twoAgents_returned|].
  exact (PathEntryFacts.paths_credit_their_agents key 3 "Q1" twoAgents
           twoAgents_returned).
Defined.

Lemma paths_are_within_the_hop_limit_witness :
  creativeAnswersToSummary key 3 "Q1" aliasAnswers = Ret aliasSummary /\
  forall K p, In (K, p) (s_paths aliasSummary) ->
    1 <= List.length (subgraph p) <= 2 * 3 + 1 /\
    exists path, withinHops 3 path /\ key path = K /\
                 subgraph p = dedupBy atom_eqb path.
Proof.
  assert (H : creativeAnswersToSummary key 3 "Q1" aliasAnswers = Ret aliasSummary)
    by (vm_compute; reflexivity).
  split; [exact H|].
  exact (PathBoundFacts.paths_are_within_the_hop_limit key 3 "Q1" aliasAnswers H).
Defined.

Lemma cited_returned :
  creativeAnswersToSummary numberedKey 3 "Q1" citedAnswers = Ret citedSummary.
Proof. vm_compute. reflexivity. Qed.

Lemma publication_is_of_the_last_listing_edge_witness :
  creativeAnswersToSummary numberedKey 3 "Q1" citedAnswers = Ret citedSummary /\
  akeys (fragmentEdges numberedKey 3 citedAnswers) =
    ["CHEBI:1|biolink:treats|MONDO:1"; "42071536"] /\
  assoc "PMID:1" (s_publications citedSummary) =
    Some (summaryPublication citedSummary "PMID:1") /\
  pub_snippet (summaryPublication citedSummary "PMID:1") = Some "first" /\
  exists l1 K e l2,
    enumerate (fragmentEdges numberedKey 3 citedAnswers) = l1 ++ (K, e) :: l2 /\
    In "PMID:1" (e_publications e) /\
    (forall K' e', In (K', e') l2 -> ~ In "PMID:1" (e_publications e')) /\
    summaryPublication citedSummary "PMID:1" = publicationOf e "PMID:1".
Proof.
  assert (Hp : assoc "PMID:1" (s_publications citedSummary) =
               Some (summaryPublication citedSummary "PMID:1"))
    by (vm_compute; reflexivity).
  split; [exact cited_returned|].
  split; [vm_compute; reflexivity|].
  split; [exact Hp|].
  split; [vm_compute; reflexivity|].
  exact (PublicationOrderFacts.publication_is_of_the_last_listing_edge
           numberedKey 3 "Q1" citedAnswers cited_returned _ Hp).
Defined.

Lemma one_result_for_each_drug_witness :
  creativeAnswersToSummary key 3 "Q1" twoAgents = Ret twoAgentsSummary /\
  NoDup (resultDrugs twoAgentsSummary) /\
  forall drug,
    In drug (resultDrugs twoAgentsSummary) <->
    exists p, In p (fragmentPaths key 3 twoAgents) /\ pathDrug p = drug.
Proof.
  split; [exact twoAgents_returned|].
  apply (ResultDrugFacts.one_result_for_each_drug key 3 "Q1" twoAgents
           twoAgents_returned).
  rewrite two_paths.
  intros p q [<- | [<- | []]] [<- | [<- | []]] _; reflexivity.
Defined.

Lemma entries_come_from_bindings_witness :
  creativeAnswersToSummary key 3 "Q1" directAnswers = Ret directSummary /\
  exists mapping,
    Canonical.makeCanonicalNodeMapping (resultNodes directAnswers) = Ret mapping /\
    (forall k, In k (akeys (s_nodes directSummary)) ->
               boundNodeKey (Canonical.canonical mapping) directAnswers k) /\
    (forall k, In k (akeys (fragmentEdges key 3 directAnswers)) ->
               boundEdgeKey key (Canonical.canonical mapping) directAnswers k).
Proof.
  split; [exact direct_returned|].
  exact (BindingFacts.entries_come_from_bindings key 3 "Q1" directAnswers
           direct_returned).
Defined.

Lemma out_edges_are_symmetric_witness :
  Rgraph.makeRnodeToOutEdges directRgraph directGraph = Ret directOutEdges /\
  (In {| Rgraph.oe_redge := "e1"; Rgraph.oe_target := "MONDO:1" |}
      (Rgraph.rnodeToOutEdges directOutEdges "CHEBI:1") <->
   In {| Rgraph.oe_redge := "e1"; Rgraph.oe_target := "CHEBI:1" |}
      (Rgraph.rnodeToOutEdges directOutEdges "MONDO:1")).
Proof.
  assert (H : Rgraph.makeRnodeToOutEdges directRgraph directGraph =
              Ret directOutEdges) by (vm_compute; reflexivity).
  split; [exact H|].
  exact (proj1 (AdjacencyFacts.out_edges_are_symmetric _ _ H "e1" "CHEBI:1" "MONDO:1")).
Defined.

Lemma drug_name_is_first_name_of_node_witness :
  creativeAnswersToSummary key 3 "Q1" directAnswers = Ret directSummary /\
  In directEntry (s_results directSummary) /\
  exists n name rest,
    assoc (render (r_subject directEntry)) (s_nodes directSummary) = Some n /\
    n_names n = name :: rest /\
    r_drug_name directEntry = AStr name.
Proof.
  assert (Hin : In directEntry (s_results directSummary)) by (vm_compute; auto).
  split; [exact direct_returned | split; [exact Hin|]].
  exact (ResultEntryFacts.drug_name_is_first_name_of_node key 3 "Q1" directAnswers
           direct_returned directEntry Hin).
Defined.

Lemma result_paths_are_the_paths_of_its_drug_witness :
  creativeAnswersToSummary key 3 "Q1" directAnswers = Ret directSummary /\
  In directEntry (s_results directSummary) /\
  forall pid,
    In pid (r_paths directEntry) <->
    exists p, In p (fragmentPaths key 3 directAnswers) /\
              key p = pid /\ pathDrug p = render (r_subject directEntry).
Proof.
  assert (Hin : In directEntry (s_results directSummary)) by (vm_compute; auto).
  split; [exact direct_returned | split; [exact Hin|]].
  apply (ResultEntryFacts.result_paths_are_the_paths_of_its_drug key 3 "Q1"
           directAnswers direct_returned); [|exact Hin].
  rewrite direct_paths. intros p q [<- | []] [<- | []] _. reflexivity.
Defined.

Lemma node_agents_are_its_contributors_witness :
  creativeAnswersToSummary key 3 "Q1" approvalAnswers = Ret approvalSummary /\
  exists css,
    condensed key 3 approvalAnswers = Ret css /\
    forall k n, assoc k (s_nodes approvalSummary) = Some n ->
      forall agent,
        In agent (n_aras n) <->
        exists cs u, In cs css /\ cs_agent cs = agent /\
                     In u (sf_nodes (cs_fragment cs)) /\ nodeKey u = k.
Proof.
  split; [exact approval_returned|].
  exact (NodeCreditFacts.node_agents_are_its_contributors key 3 "Q1"
           approvalAnswers approval_returned).
Defined.

End SummaryScenarios.

Module QueryScenarios.
Import Query Scenarios.

Lemma hasKey_found (query : json) (k : string) :
  hasKey query k = true -> exists v, prop query k = Ret (Some v).
Proof.
  destruct query; simpl; try discriminate.
  destruct (assoc k l); [eauto | discriminate].
Qed.

Lemma geneQuery_accepted :
  queryToCreativeQuery isObject hasKey geneQuery = Ok geneRequest.
Proof. vm_compute. reflexivity. Qed.

Lemma creative_query_is_accepted_iff_witness :
  exists r, queryToCreativeQuery isObject hasKey geneQuery = Ok r.
Proof.
  apply (@QueryFacts.creative_query_is_accepted_iff isObject hasKey hasKey_found
           geneQuery).
  split; [reflexivity | split].
  - intros k [<- | [<- | [<- | []]]]; reflexivity.
  - exists "gene". split; [reflexivity | simpl; auto].
Defined.

Lemma creative_query_has_one_inferred_edge_witness :
  queryToCreativeQuery isObject hasKey geneQuery = Ok geneRequest /\
  exists qg e t curie,
    queryGraph geneRequest = Some qg /\ edgeOf qg = Some e /\
    assoc "subject" e = Some (JStr subjectKey) /\
    assoc "object" e = Some (JStr objectKey) /\
    assoc "knowledge_type" e = Some (JStr "inferred") /\
    prop geneQuery "type" = Ret (Some (JStr t)) /\
    prop geneQuery "curie" = Ret (Some curie) /\
    nodeOf qg subjectKey =
      Some (nodeToQgNode
              {| category := "ChemicalEntity";
                 id := if String.eqb t "gene" then Some curie else None |}) /\
    nodeOf qg objectKey =
      Some (nodeToQgNode
              {| category := if String.eqb t "drug" then "Disease" else "Gene";
                 id := if String.eqb t "gene" then None else Some curie |}).
Proof.
  split; [exact geneQuery_accepted|].
  exact (@QueryFacts.creative_query_has_one_inferred_edge isObject hasKey
           hasKey_found geneQuery geneRequest geneQuery_accepted).
Defined.

Lemma creative_query_direction_witness :
  queryToCreativeQuery isObject hasKey geneQuery = Ok geneRequest /\
  exists qg e t direction,
    queryGraph geneRequest = Some qg /\ edgeOf qg = Some e /\
    prop geneQuery "type" = Ret (Some (JStr t)) /\
    prop geneQuery "direction" = Ret (Some direction) /\
    (assoc "qualifier_constraints" e <> None <->
     t <> "drug" /\ truthy direction = true).
Proof.
  split; [exact geneQuery_accepted|].
  exact (@QueryFacts.creative_query_direction isObject hasKey hasKey_found
           geneQuery geneRequest geneQuery_accepted).
Defined.

End QueryScenarios.

Module HandlerScenarios.
Import Annotation AnnotationSpec Scenarios.

Lemma disease_description_stops_at_bracket_witness :
  getDiseaseDescription diseaseAnnotation = Ret (JStr "A disease of the joints. ") /\
  contains "["%char "A disease of the joints. " = false /\
  exists def rest,
    Cmn.jsonGetFromKpath diseaseAnnotation ["disease_ontology"; "def"] JNull
      = Ret (JStr def) /\
    def = ("A disease of the joints. " ++ rest)%string /\
    (rest = "" \/ exists tl, rest = String "["%char tl).
Proof.
  assert (H : getDiseaseDescription diseaseAnnotation =
              Ret (JStr "A disease of the joints. ")) by (vm_compute; reflexivity).
  split; [exact H|].
  exact (HandlerFacts.disease_description_stops_at_bracket _ H).
Defined.


Lemma classes_are_tried_in_order_witness :
  getFdaApproval [diseaseAnnotation] = Ret JNull.
Proof.
  assert (Hd : assoc "disease_ontology"
                 [("disease_ontology",
                   JObj [("def",
                          JStr "A disease of the joints. [url:http://example.org]")]);
                  ("chembl", JObj [("max_phase", JNum 4)])] <> None)
    by (simpl; discriminate).
  pose proof (proj1 (HandlerFacts.classes_are_tried_in_order
                       (fun _ => None) (fun x => x) _ []) Hd) as H.
  inversion H as [|? ? _ H1]. inversion H1 as [|? ? Hf _]. exact Hf.
Defined.

End HandlerScenarios.
